(** * Derived metrics of the AI-visibility dashboard

    A shallow embedding of the metric functions of
    [src/results/data/formulas.ts], [src/results/data/analyticsData.ts]
    and of the two page components that look up a top competitor, with
    the properties the specification states about them.

    Conventions of the embedding.
    - A JavaScript [number] is modelled by [number]: the rational value
      of a finite binary64 number, or one of the three special values.
      A quotient and a product are rounded to binary64, to the nearest
      value with ties to even, as IEEE 754 prescribes ([binary64]); the
      sign of zero is outside the model.
    - Numbers that come out of the JSON payload are finite, so record
      fields that hold them have type [Q]: the value of the binary64
      number that [JSON.parse] made of the decimal.
    - Sums of counts, the differences that comparators return and the
      rates that [getBrandMentionPercentile] ranks are kept exact: the
      code only compares them with each other or with zero, and on
      integer counts below 2^53 binary64 adds and subtracts without
      error.
    - [Array.prototype.sort] is stable and, for a consistent comparator,
      its result is determined by the comparator; [Array_sort] is the
      stable insertion sort that computes it.
    - An object that the code only looks up by key, or whose values it
      only adds up, is a [gmap]: exact sums do not depend on the order
      of [Object.values].  Where the iteration order decides the result
      the object is given by its [Object.entries]. *)

From Stdlib Require Import ZArith QArith Qround Qpower Lqa Lia Ascii String.
From stdpp Require Import base decidable option list sorting gmap strings fin_maps.

#[local] Open Scope string_scope.

(** ** JavaScript numbers *)

Module Num.

Inductive number : Type :=
| Fin (q : Q)
| PosInf
| NegInf
| NaN.

Definition of_Z (z : Z) : number := Fin (inject_Z z).
Definition of_nat (n : nat) : number := of_Z (Z.of_nat n).

Definition Qltb (a b : Q) : bool := negb (Qle_bool b a).

(** The sign of a non-zero rational, as a flag for "negative". *)
Definition neg_inf (negative : bool) : number :=
  if negative then NegInf else PosInf.

Definition is_neg (n : number) : bool :=
  match n with
  | Fin q => Qltb q 0%Q
  | NegInf => true
  | _ => false
  end.

(** *** Rounding to binary64

    A finite binary64 number is [m * 2^e] with [|m| < 2^53] and
    [-1074 <= e <= 971].  The operations of IEEE 754 return the number of
    that form nearest to the exact result, the one with the even [m] when
    two are equally near, and an infinity from [2^1024 - 2^970] on. *)

(** The integer part of the binary logarithm of a positive rational. *)
Definition ilog2 (q : Q) : Z :=
  let k := (Z.log2 (Qnum q) - Z.log2 (Zpos (Qden q)))%Z in
  if Qle_bool (2 ^ k) q then k else (k - 1)%Z.

(** The nearest integer, the even one of two equally near. *)
Definition round_half_even (q : Q) : Z :=
  let f := Qfloor q in
  match (q - inject_Z f ?= 1 # 2)%Q with
  | Lt => f
  | Gt => (f + 1)%Z
  | Eq => if Z.even f then f else (f + 1)%Z
  end.

(** The exponent of the binary64 numbers around a positive [q]: 53
    significant bits, and no exponent below that of the subnormal
    numbers. *)
Definition exponent (q : Q) : Z := Z.max (ilog2 q - 52) (-1074).

(** The multiple of [2^exponent] nearest to a positive [q]. *)
Definition nearest (q : Q) : Q :=
  let e := exponent q in
  Qred (inject_Z (round_half_even (q / 2 ^ e)) * 2 ^ e).

(** The same for a rational of either sign. *)
Definition rounded (q : Q) : Q :=
  match (q ?= 0)%Q with
  | Eq => 0%Q
  | Gt => nearest q
  | Lt => (- nearest (- q))%Q
  end.

(** The binary64 result of an operation whose exact result is [q]. *)
Definition binary64 (q : Q) : number :=
  let r := rounded q in
  if Qle_bool (2 ^ 1024) r then PosInf
  else if Qle_bool r (- 2 ^ 1024) then NegInf
  else Fin r.

(** [a / b] *)
Definition div (a b : number) : number :=
  match a, b with
  | NaN, _ | _, NaN => NaN
  | Fin x, Fin y =>
      if Qeq_bool y 0%Q
      then (if Qeq_bool x 0%Q then NaN else neg_inf (Qltb x 0%Q))
      else binary64 (x / y)
  | Fin _, _ => Fin 0%Q
  | _, Fin _ => neg_inf (xorb (is_neg a) (is_neg b))
  | _, _ => NaN
  end.

(** [a * b] *)
Definition mul (a b : number) : number :=
  match a, b with
  | NaN, _ | _, NaN => NaN
  | Fin x, Fin y => binary64 (x * y)
  | Fin x, _ => if Qeq_bool x 0%Q then NaN else neg_inf (xorb (is_neg a) (is_neg b))
  | _, Fin y => if Qeq_bool y 0%Q then NaN else neg_inf (xorb (is_neg a) (is_neg b))
  | _, _ => neg_inf (xorb (is_neg a) (is_neg b))
  end.

(** [Math.round]: the nearest integer, halves going up. *)
Definition round_Q (q : Q) : Z := Qfloor (q + (1 # 2))%Q.

Definition Math_round (a : number) : number :=
  match a with
  | Fin q => of_Z (round_Q q)
  | _ => a
  end.

(** The comparison of two numbers; [None] when one of them is [NaN], in
    which case every relational operator answers [false]. *)
Definition compare (a b : number) : option comparison :=
  match a, b with
  | NaN, _ | _, NaN => None
  | Fin x, Fin y => Some (x ?= y)%Q
  | PosInf, PosInf | NegInf, NegInf => Some Eq
  | NegInf, _ | _, PosInf => Some Lt
  | PosInf, _ | _, NegInf => Some Gt
  end.

Definition ltb (a b : number) : bool :=
  match compare a b with Some Lt => true | _ => false end.
Definition leb (a b : number) : bool :=
  match compare a b with Some Lt | Some Eq => true | _ => false end.
Definition gtb (a b : number) : bool := ltb b a.
Definition geb (a b : number) : bool := leb b a.


(** [x || d] on a finite number: zero is falsy. *)
Definition or_else (x d : Q) : Q := if Qeq_bool x 0%Q then d else x.

(** [o || d] on an optional finite number: [undefined] and zero are falsy. *)
Definition opt_or (o : option Q) (d : Q) : Q :=
  match o with
  | Some x => or_else x d
  | None => d
  end.

(** Truthiness of an optional finite number. *)
Definition truthy (o : option Q) : bool :=
  match o with
  | Some x => negb (Qeq_bool x 0%Q)
  | None => false
  end.

(** The number that [JSON.parse] makes of a decimal of the payload: the
    nearest binary64 number.  The fields of the payload hold such
    numbers. *)
Definition JSON_number (decimal : Q) : Q := rounded decimal.

End Num.

Export Num.

(** ** Arrays *)

Section ArraySort.
Context {A : Type}.
(** The comparator: negative when its first argument goes first. *)
Variable cmp : A → A → Q.

Fixpoint sort_insert (x : A) (l : list A) : list A :=
  match l with
  | [] => [x]
  | y :: l' =>
      if Qle_bool (cmp x y) 0%Q then x :: y :: l' else y :: sort_insert x l'
  end.

(** [arr.sort(cmp)], as a function of the contents of [arr]. *)
Definition Array_sort (l : list A) : list A := foldr sort_insert [] l.
End ArraySort.

(** [arr.findIndex(p)]: the index of the first match, or [-1]. *)
Fixpoint findIndex_from {A} (p : A → bool) (l : list A) (i : Z) : Z :=
  match l with
  | [] => (-1)%Z
  | x :: l' => if p x then i else findIndex_from p l' (i + 1)%Z
  end.

Definition findIndex {A} (p : A → bool) (l : list A) : Z :=
  findIndex_from p l 0%Z.

(** ** formulas.ts *)

Definition calculatePercentile (value : Q) (allValues : list Q) : number :=
  let sorted := Array_sort (λ a b, a - b)%Q allValues in
  let lowerCount := length (List.filter (λ v, Qltb v value) sorted) in
  let percentile :=
    Num.mul (Num.div (of_nat lowerCount) (of_nat (length sorted))) (Fin 100%Q) in
  Math_round percentile.

Definition getTierFromPercentile (percentile : number) : string :=
  if Num.geb percentile (Fin 70%Q) then "High"
  else if Num.geb percentile (Fin 40%Q) then "Medium"
  else "Low".



(** ** The analytics payload *)

(** [x || d] on an optional string: [undefined] and the empty string are
    falsy. *)
Definition str_or (o : option string) (d : string) : string :=
  match o with
  | Some s => if String.eqb s "" then d else s
  | None => d
  end.

(** [o[key] = v] on an object that was created as [{}].  Under the key
    [__proto__] the object inherits an accessor of its prototype, whose
    setter ignores a number: that assignment adds no entry. *)
Definition obj_set {V} (key : string) (v : V) (o : gmap string V) : gmap string V :=
  if String.eqb key "__proto__" then o else <[key := v]> o.

(** A brand as the payload carries it: every field but the name may be
    missing. *)
Module Raw.
Record Brand : Type := {
  brand : string;
  geo_score : option Q;
  mention_score : option Q;
  mention_count : option Q;
  logo : option string;
  geo_tier : option string;
  mention_tier : option string;
  summary : option string;
  outlook : option string;
  mention_breakdown : option (gmap string Q);
}.
End Raw.

(** One entry of [llm_wise_data]. *)
Record LlmData : Type := {
  t1 : option Q;
  t2 : option Q;
  t3 : option Q;
  queries_with_brand : option Q;
  average_brand_rank : option Q;
  average_rank : option Q;
}.

(** What [getAnalytics()] returns when it does not return [null]. *)
Record Analytics : Type := {
  brand_name : option string;
  brands : option (list Raw.Brand);
  llm_wise_data : option (gmap string (option LlmData));
}.

(** The element type of [getBrandInfoWithLogos()]. *)
Record BrandInfo : Type := {
  brand : string;
  geo_score : Q;
  mention_score : Q;
  mention_count : Q;
  logo : string;
  geo_tier : string;
  mention_tier : string;
  summary : string;
  outlook : string;
  mention_breakdown : option (gmap string Q);
}.

(** [formatLogoUrl] depends on a build-time favicon template; the metrics
    never look inside a logo, so it is a parameter of the development. *)
Class LogoFormat : Type := formatLogoUrl : string → string.

Section AnalyticsData.
Context {lf : LogoFormat}.

Definition getBrandName (analytics : option Analytics) : string :=
  str_or (analytics ≫= brand_name) "".

Definition getBrandInfoWithLogos (analytics : option Analytics) : list BrandInfo :=
  match analytics ≫= brands with
  | None => []
  | Some brands =>
      map (λ b : Raw.Brand,
             {| brand := Raw.brand b;
                geo_score := opt_or (Raw.geo_score b) 0%Q;
                mention_score := opt_or (Raw.mention_score b) 0%Q;
                mention_count := opt_or (Raw.mention_count b) 0%Q;
                logo := formatLogoUrl (str_or (Raw.logo b) "");
                geo_tier := str_or (Raw.geo_tier b) "Low";
                mention_tier := str_or (Raw.mention_tier b) "Low";
                summary := str_or (Raw.summary b) "";
                outlook := str_or (Raw.outlook b) "Neutral";
                mention_breakdown := Raw.mention_breakdown b |})
          brands
  end.

(** The result of [getMentionsPosition]; the function is the same in both
    revisions of the file. *)
Record MentionsPosition : Type := {
  position : Z;
  mp_tier : string;
  mp_totalBrands : nat;
  topBrandMentions : Q;
  brandMentions : Q;
  allBrandMentions : gmap string Q;
}.

Definition getMentionsPosition (analytics : option Analytics) : MentionsPosition :=
  let brandName := getBrandName analytics in
  let brandInfoWithLogos := getBrandInfoWithLogos analytics in
  let allMentionScores :=
    foldl (λ (acc : gmap string Q) b, obj_set (brand b) (mention_score b) acc)
          ∅ brandInfoWithLogos in
  let sortedByMentions :=
    Array_sort (λ a b, mention_score b - mention_score a)%Q brandInfoWithLogos in
  let brandIndex := findIndex (λ b, String.eqb (brand b) brandName) sortedByMentions in
  let position :=
    if (0 <=? brandIndex)%Z then (brandIndex + 1)%Z
    else Z.of_nat (length sortedByMentions) in
  let brandInfo := List.find (λ b, String.eqb (brand b) brandName) brandInfoWithLogos in
  let brandMentionScore := opt_or (mention_score <$> brandInfo) 0%Q in
  let topMentionScore := opt_or (mention_score <$> head sortedByMentions) 0%Q in
  let tier := str_or (mention_tier <$> brandInfo) "Low" in
  {| position := position;
     mp_tier := tier;
     mp_totalBrands := length brandInfoWithLogos;
     topBrandMentions := topMentionScore;
     brandMentions := brandMentionScore;
     allBrandMentions := allMentionScores |}.

Record PositionBreakdown : Type := {
  topPosition : number;
  midPosition : number;
  lowPosition : number;
}.

Record VisibilityMetrics : Type := {
  score : Q;
  tier : string;
  brandPosition : Z;
  totalBrands : nat;
  positionBreakdown : PositionBreakdown;
}.

(** A row of the response-rate table. *)
Record RateRow : Type := {
  rr_brand : string;
  responseRate : Q;
  rr_logo : string;
  isTestBrand : bool;
}.

(** [Math.min] on finite numbers. *)
Definition Qmin_js (a b : Q) : Q := if Qle_bool a b then a else b.

(** [total > 0 ? Math.round((part / total) * 100) : 0] *)
Definition percentOf (part total : Q) : number :=
  if Qltb 0%Q total
  then Math_round (Num.mul (Num.div (Fin part) (Fin total)) (Fin 100%Q))
  else Fin 0%Q.

End AnalyticsData.

(** ** analyticsData.ts, first revision

    The revision whose position breakdown reads the pre-aggregated
    [t1]/[t2]/[t3] counters of the [gemini] and [openai] entries. *)
Module V1.
Section V1.
Context {lf : LogoFormat}.

(** [llmData?.<model>?.<field> || 0] *)
Definition counter (llmData : option (gmap string (option LlmData)))
    (model : string) (field : LlmData → option Q) : Q :=
  opt_or (d ← mjoin (llmData ≫= (.!! model)); field d) 0%Q.

Definition getAIVisibilityMetrics (analytics : option Analytics) : VisibilityMetrics :=
  match analytics with
  | None =>
      {| score := 0%Q; tier := "Low";
         positionBreakdown :=
           {| topPosition := Fin 0%Q; midPosition := Fin 0%Q; lowPosition := Fin 0%Q |};
         brandPosition := 0%Z; totalBrands := 0%nat |}
  | Some analytics =>
      let llmData := llm_wise_data analytics in
      let brandName := brand_name analytics in
      let brands := default [] (brands analytics) in
      let is_brand (b : Raw.Brand) :=
        match brandName with
        | Some n => String.eqb (Raw.brand b) n
        | None => false
        end in
      let brandInfo := List.find is_brand brands in
      let visibilityScore := opt_or (brandInfo ≫= Raw.geo_score) 0%Q in
      let tier := str_or (brandInfo ≫= Raw.geo_tier) "Low" in
      let geminiT1 := counter llmData "gemini" t1 in
      let geminiT2 := counter llmData "gemini" t2 in
      let geminiT3 := counter llmData "gemini" t3 in
      let openaiT1 := counter llmData "openai" t1 in
      let openaiT2 := counter llmData "openai" t2 in
      let openaiT3 := counter llmData "openai" t3 in
      let totalT1 := (geminiT1 + openaiT1)%Q in
      let totalT2 := (geminiT2 + openaiT2)%Q in
      let totalT3 := (geminiT3 + openaiT3)%Q in
      let totalMentions := (totalT1 + totalT2 + totalT3)%Q in
      let topPosition := percentOf totalT1 totalMentions in
      let midPosition := percentOf totalT2 totalMentions in
      let lowPosition := percentOf totalT3 totalMentions in
      let sortedBrands :=
        Array_sort
          (λ a b, let scoreA := opt_or (Raw.geo_score a) 0%Q in
                  let scoreB := opt_or (Raw.geo_score b) 0%Q in
                  scoreB - scoreA)%Q
          brands in
      let brandPosition := (findIndex is_brand sortedBrands + 1)%Z in
      let totalBrands := length brands in
      {| score := visibilityScore;
         tier := tier;
         positionBreakdown :=
           {| topPosition := topPosition;
              midPosition := midPosition;
              lowPosition := lowPosition |};
         (* [brandPosition || 0] *)
         brandPosition := if (brandPosition =? 0)%Z then 0%Z else brandPosition;
         totalBrands := totalBrands |}
  end.

Definition getBrandMentionResponseRates (analytics : option Analytics) : list RateRow :=
  let brandName := getBrandName analytics in
  let brandInfoWithLogos := getBrandInfoWithLogos analytics in
  let allBrandsWithRates :=
    map (λ b, {| rr_brand := brand b;
                 responseRate := mention_score b;
                 rr_logo := logo b;
                 isTestBrand := String.eqb (brand b) brandName |})
        brandInfoWithLogos in
  let sortedBrands :=
    Array_sort (λ a b, responseRate b - responseRate a)%Q allBrandsWithRates in
  let topTwoCompetitors :=
    take 2 (List.filter (λ b, negb (isTestBrand b)) sortedBrands) in
  let testBrand := List.find (λ b, isTestBrand b) sortedBrands in
  let combinedBrands :=
    match testBrand with
    | Some t => (topTwoCompetitors ++ [t])%list
    | None => topTwoCompetitors
    end in
  Array_sort (λ a b, responseRate b - responseRate a)%Q combinedBrands.

End V1.
End V1.

(** ** analyticsData.ts, second revision

    The revision whose position breakdown is derived from each model's
    average rank. *)
Module V2.
Section V2.
Context {lf : LogoFormat}.

(** The four counters the [forEach] over [llm_wise_data] updates. *)
Record Counts : Type := {
  totalQueriesWithBrand : Q;
  topPositionCount : Q;
  midPositionCount : Q;
  lowPositionCount : Q;
}.

(** One iteration of the loop over [Object.values(llmData)]. *)
Definition countModel (c : Counts) (data : option LlmData) : Counts :=
  if truthy (data ≫= queries_with_brand) then
    let q := default 0%Q (data ≫= queries_with_brand) in
    let c := {| totalQueriesWithBrand := (totalQueriesWithBrand c + q)%Q;
                topPositionCount := topPositionCount c;
                midPositionCount := midPositionCount c;
                lowPositionCount := lowPositionCount c |} in
    let avgRank :=
      opt_or (data ≫= average_brand_rank) (opt_or (data ≫= average_rank) 0%Q) in
    if Qltb 0%Q avgRank then
      if Qle_bool avgRank 1%Q then
        {| totalQueriesWithBrand := totalQueriesWithBrand c;
           topPositionCount := (topPositionCount c + q)%Q;
           midPositionCount := midPositionCount c;
           lowPositionCount := lowPositionCount c |}
      else if Qle_bool avgRank 4%Q then
        {| totalQueriesWithBrand := totalQueriesWithBrand c;
           topPositionCount := topPositionCount c;
           midPositionCount := (midPositionCount c + q)%Q;
           lowPositionCount := lowPositionCount c |}
      else
        {| totalQueriesWithBrand := totalQueriesWithBrand c;
           topPositionCount := topPositionCount c;
           midPositionCount := midPositionCount c;
           lowPositionCount := (lowPositionCount c + q)%Q |}
    else c
  else c.

Definition countModels (values : list (option LlmData)) : Counts :=
  foldl countModel
    {| totalQueriesWithBrand := 0%Q; topPositionCount := 0%Q;
       midPositionCount := 0%Q; lowPositionCount := 0%Q |}
    values.

(** The breakdown computed from the values of [llm_wise_data]. *)
Definition breakdownOf (values : list (option LlmData)) : PositionBreakdown :=
  let c := countModels values in
  let queriesWithMentions := or_else (totalQueriesWithBrand c) 1%Q in
  {| topPosition := percentOf (topPositionCount c) queriesWithMentions;
     midPosition := percentOf (midPositionCount c) queriesWithMentions;
     lowPosition := percentOf (lowPositionCount c) queriesWithMentions |}.

Definition getAIVisibilityMetrics (analytics : option Analytics) : VisibilityMetrics :=
  let brandName := getBrandName analytics in
  let brandInfoWithLogos := getBrandInfoWithLogos analytics in
  let brandData := List.find (λ b, String.eqb (brand b) brandName) brandInfoWithLogos in
  let score := opt_or (geo_score <$> brandData) 0%Q in
  let tier := str_or (geo_tier <$> brandData) "Low" in
  let totalBrands := length brandInfoWithLogos in
  let sortedByScore :=
    Array_sort (λ a b, geo_score b - geo_score a)%Q brandInfoWithLogos in
  let brandIndex := findIndex (λ b, String.eqb (brand b) brandName) sortedByScore in
  let brandPosition :=
    if (0 <=? brandIndex)%Z then (brandIndex + 1)%Z else Z.of_nat totalBrands in
  let llmData := default ∅ (analytics ≫= llm_wise_data) in
  {| score := score;
     tier := tier;
     brandPosition := brandPosition;
     totalBrands := totalBrands;
     positionBreakdown := breakdownOf ((map_to_list llmData).*2) |}.

Definition getBrandMentionResponseRates (analytics : option Analytics) : list RateRow :=
  let brandName := getBrandName analytics in
  let brandInfoWithLogos := getBrandInfoWithLogos analytics in
  let brandsWithRates :=
    Array_sort (λ a b, responseRate b - responseRate a)%Q
      (map (λ b,
              let responseRate := Qmin_js (mention_score b) 100%Q in
              {| rr_brand := brand b;
                 responseRate := responseRate;
                 rr_logo := logo b;
                 isTestBrand := String.eqb (brand b) brandName |})
           brandInfoWithLogos) in
  let topTwoBrands :=
    take 2 (List.filter (λ b, negb (isTestBrand b)) brandsWithRates) in
  let testBrand := List.find (λ b, isTestBrand b) brandsWithRates in
  match testBrand with
  | Some t => (topTwoBrands ++ [t])%list
  | None => topTwoBrands
  end.

End V2.
End V2.

(** ** The page components *)

Section Pages.
(** [brandInfo] is [getBrandInfoWithLogos()], read once when the component
    renders. *)
Variable brandInfo : list BrandInfo.

(** The three variables the scan updates. *)
Record Top : Type := {
  topBrand : string;
  topScore : Q;
  topLogo : string;
}.

(** [b.mention_breakdown?.[keywordId] || 0] *)
Definition keywordScore (keywordId : string) (b : BrandInfo) : Q :=
  opt_or (mention_breakdown b ≫= (.!! keywordId)) 0%Q.

Definition getTopCompetitorForKeyword (keywordId : string) : Top :=
  foldl (λ top b,
           let score := keywordScore keywordId b in
           if Qltb (topScore top) score
           then {| topBrand := brand b; topScore := score; topLogo := logo b |}
           else top)
        {| topBrand := ""; topScore := 0%Q; topLogo := "" |}
        brandInfo.

(** The component's own [getBrandLogo]; [undefined] when the brand is
    unknown. *)
Definition getBrandLogo (name : string) : option string :=
  logo <$> List.find (λ b, String.eqb (brand b) name) brandInfo.

(** A value of a source's [mentions] object. *)
Record Mention : Type := {
  count : option Q;
  m_score : option Q;
  insight : option string;
}.

(** [mentions] is given by its [Object.entries], in iteration order.
    [data.count > topScore] is false when [count] is missing. *)
Definition getTopCompetitorForSource (mentions : list (string * Mention)) : Top :=
  foldl (λ top '(brand, data),
           match count data with
           | Some c =>
               if Qltb (topScore top) c
               then {| topBrand := brand; topScore := c;
                       topLogo := str_or (getBrandLogo brand) "" |}
               else top
           | None => top
           end)
        {| topBrand := ""; topScore := 0%Q; topLogo := "" |}
        mentions.
End Pages.

(** ** Vocabulary of the properties

    What the functions above are compared with.  [specBreakdown] and its
    bands follow the specification's own words; the other definitions
    name what the code computes. *)

(** Descending order of the rows of a response-rate table. *)
Definition rateDescending (rows : list RateRow) : Prop :=
  StronglySorted (λ a b, (responseRate b <= responseRate a)%Q) rows.

(** How the table is selected from all [rows]: [top] holds the two
    best-rated competitors (all of them when there are fewer), [rest] the
    other competitors, [subject] the best-rated row of the subject brand
    when there is one. *)
Definition selection (rows top subject rest : list RateRow) : Prop :=
  List.filter (λ b, negb (isTestBrand b)) rows ≡ₚ (top ++ rest)%list
  ∧ length top = Nat.min 2 (length (List.filter (λ b, negb (isTestBrand b)) rows))
  ∧ (∀ t r, t ∈ top → r ∈ rest → (responseRate r <= responseRate t)%Q)
  ∧ match subject with
    | [] => Forall (λ r, isTestBrand r = false) rows
    | [t] =>
        t ∈ rows ∧ isTestBrand t = true
        ∧ ∀ r, r ∈ rows → isTestBrand r = true → (responseRate r <= responseRate t)%Q
    | _ => False
    end.







(** [Math.round((part / total) * 100)], the expression that the
    percentages of the code share. *)
Definition roundedPercent (part total : Q) : number :=
  Math_round (Num.mul (Num.div (Fin part) (Fin total)) (Fin 100%Q)).

(** The integer that expression yields when neither the quotient nor the
    product overflows. *)
Definition binary64Percent (part total : Q) : Z :=
  round_Q (rounded (rounded (part / total) * 100)).

(** How far from a half the exact percentage of a part of at most four
    times the whole has to be for the rounding error of the quotient and
    of the product to leave the nearest integer alone: [2^-43]. *)
Definition slack : Q := 1 # 8796093022208.

(** [z] is the integer nearest to [p], halves going up, or the one next
    to it when [p] is within [slack] of a half. *)
Definition nearlyRounded (z : Z) (p : Q) : Prop :=
  (round_Q (p - slack) <= z <= round_Q (p + slack))%Z.


(** The step both top-competitor scans share: the current top is replaced
    when, and only when, an entry scores strictly higher. *)
Definition scan_step {X} (sc : X → option Q) (mk : X → Top) (top : Top) (x : X) : Top :=
  match sc x with
  | Some c => if Qltb (topScore top) c then mk x else top
  | None => top
  end.

(** ** Sample payloads *)

Definition plain_logo : LogoFormat := λ s, s.

Definition sampleBrand (name : string) (geo mention : option Q) : Raw.Brand :=
  {| Raw.brand := name; Raw.geo_score := geo; Raw.mention_score := mention;
     Raw.mention_count := None; Raw.logo := None; Raw.geo_tier := None;
     Raw.mention_tier := None; Raw.summary := None; Raw.outlook := None;
     Raw.mention_breakdown := None |}.

Definition sampleAnalytics (name : string) (bs : list Raw.Brand) : Analytics :=
  {| brand_name := Some name; brands := Some bs; llm_wise_data := None |}.

(** [brands = [{brand: "A", geo_score: 10}]], [brand_name = "Z"]. *)
Definition absentBrand : Analytics :=
  sampleAnalytics "Z" [sampleBrand "A" (Some 10%Q) None].

(** Acme 80, Beta 50, Gamma 50 by [mention_score]; the subject is Gamma. *)
Definition tiedBrands : Analytics :=
  sampleAnalytics "Gamma"
    [sampleBrand "Acme" None (Some 80%Q);
     sampleBrand "Beta" None (Some 50%Q);
     sampleBrand "Gamma" None (Some 50%Q)].

(** A competitor whose [mention_score] exceeds 100. *)
Definition overfullBrands : Analytics :=
  sampleAnalytics "Acme"
    [sampleBrand "Acme" None (Some 60%Q);
     sampleBrand "Beta" None (Some 150%Q)].

(** A subject brand that outscores both competitors. *)
Definition leadingSubject : Analytics :=
  sampleAnalytics "Acme"
    [sampleBrand "Acme" None (Some 90%Q);
     sampleBrand "Beta" None (Some 50%Q);
     sampleBrand "Gamma" None (Some 40%Q)].

(** The subject at 50 and three competitors from 100 up, the last one
    the highest. *)
Definition cappedBrands : Analytics :=
  sampleAnalytics "Sigma"
    [sampleBrand "Sigma" None (Some 50%Q);
     sampleBrand "Acme" None (Some 100%Q);
     sampleBrand "Beta" None (Some 150%Q);
     sampleBrand "Gamma" None (Some 200%Q)].

(** The subject's name carried by two brands, the second with the higher
    score. *)
Definition repeatedSubject : Analytics :=
  sampleAnalytics "Acme"
    [sampleBrand "Acme" None (Some 10%Q);
     sampleBrand "Beta" None (Some 50%Q);
     sampleBrand "Acme" None (Some 90%Q)].

(** The integers from 0 to 39. *)
Definition fortyValues : list Q := (λ n, inject_Z (Z.of_nat n)) <$> seq 0 40.





(** * More of the code

    The functions of the same files that the sections above leave out. *)

(** ** formulas.ts: colours *)

(** [String.prototype.toLowerCase] on the bytes of a string.  Only ASCII
    letters are changed; that decides every comparison with an ASCII word
    that has no [k] in it, since the Kelvin sign is the only character
    outside ASCII whose lower case is an ASCII letter alone. *)
Definition lower_ascii (c : ascii) : ascii :=
  let n := nat_of_ascii c in
  if (65 <=? n)%nat && (n <=? 90)%nat then ascii_of_nat (n + 32) else c.

Fixpoint toLowerCase (s : string) : string :=
  match s with
  | EmptyString => EmptyString
  | String c s' => String (lower_ascii c) (toLowerCase s')
  end.

Definition getTierBadgeClasses (tier : option string) : string :=
  match toLowerCase <$> tier with
  | Some "high" | Some "positive" | Some "yes" => "bg-green-500 text-white"
  | Some "medium" | Some "neutral" => "bg-amber-500 text-white"
  | Some "low" | Some "negative" | Some "no" | Some "absent" => "bg-red-500 text-white"
  | _ => "bg-muted text-muted-foreground"
  end.

Definition getGaugeColor (percentile : number) : string :=
  if Num.geb percentile (Fin 70%Q) then "hsl(142, 71%, 45%)"
  else if Num.geb percentile (Fin 40%Q) then "hsl(45, 93%, 47%)"
  else "hsl(0, 84%, 60%)".

Definition getGaugeGradientId (percentile : number) : string :=
  if Num.geb percentile (Fin 70%Q) then "gaugeGreen"
  else if Num.geb percentile (Fin 40%Q) then "gaugeAmber"
  else "gaugeRed".

(** ** analyticsData.ts: accessors of the subject brand *)

Section Accessors.
Context {lf : LogoFormat}.

(** The subject brand among [getBrandInfoWithLogos()]. *)
Definition subjectInfo (analytics : option Analytics) : option BrandInfo :=
  List.find (λ b, String.eqb (brand b) (getBrandName analytics))
            (getBrandInfoWithLogos analytics).

Definition getBrandLogo_data (analytics : option Analytics) (brandName : string) : string :=
  str_or (logo <$> List.find (λ b, String.eqb (brand b) brandName)
                             (getBrandInfoWithLogos analytics)) "".

Record Sentiment : Type := {
  dominant_sentiment : string;
  s_summary : string;
}.

Definition getSentiment (analytics : option Analytics) : Sentiment :=
  let brandInfo := subjectInfo analytics in
  {| dominant_sentiment := str_or (outlook <$> brandInfo) "N/A";
     s_summary := str_or (summary <$> brandInfo) "" |}.

Record AIVisibility : Type := {
  av_geo_score : Q;
  brand_tier : string;
}.

Definition getAIVisibility (analytics : option Analytics) : AIVisibility :=
  let brandInfo := subjectInfo analytics in
  {| av_geo_score := opt_or (geo_score <$> brandInfo) 0%Q;
     brand_tier := str_or (geo_tier <$> brandInfo) "Low" |}.

Record BrandMentions : Type := {
  bm_mention_count : Q;
  bm_mention_score : Q;
  bm_mention_tier : string;
}.

Definition getBrandMentions (analytics : option Analytics) : BrandMentions :=
  let brandInfo := subjectInfo analytics in
  {| bm_mention_count := opt_or (mention_count <$> brandInfo) 0%Q;
     bm_mention_score := opt_or (mention_score <$> brandInfo) 0%Q;
     bm_mention_tier := str_or (mention_tier <$> brandInfo) "Low" |}.

Definition getPrimaryBrandTotalMentions (analytics : option Analytics) : Q :=
  opt_or (mention_count <$> subjectInfo analytics) 0%Q.

Definition getCompetitorNames (analytics : option Analytics) : list string :=
  match analytics ≫= brands with
  | None => []
  | Some brands => map Raw.brand brands
  end.

(** [getBrandMentionCounts]: an object filled by assignment, brand by
    brand. *)
Definition getBrandMentionCounts (analytics : option Analytics) : gmap string Q :=
  foldl (λ (mentionCounts : gmap string Q) b,
           obj_set (brand b) (mention_count b) mentionCounts)
        ∅ (getBrandInfoWithLogos analytics).

(** The result of the legacy [getVisibilityPosition]. *)
Record VisibilityPosition : Type := {
  vp_position : Z;
  vp_tier : string;
  vp_totalBrands : nat;
}.

Definition getVisibilityPosition (metrics : VisibilityMetrics) : VisibilityPosition :=
  {| vp_position := brandPosition metrics;
     vp_tier := tier metrics;
     vp_totalBrands := totalBrands metrics |}.

(** The rows of [getAllBrandMentionsWithTiers]. *)
Record MentionRow : Type := {
  mr_brand : string;
  mr_mentions : Q;
  mr_percentile : number;
  mr_tier : string;
  mr_logo : string;
}.

(** [(a, b) => b.mentions - a.mentions] *)
Definition getAllBrandMentionsWithTiers (analytics : option Analytics) : list MentionRow :=
  let brandInfoWithLogos := getBrandInfoWithLogos analytics in
  let allMentions := map mention_count brandInfoWithLogos in
  Array_sort (λ a b, mr_mentions b - mr_mentions a)%Q
    (map (λ brand_,
            let percentile := calculatePercentile (mention_count brand_) allMentions in
            {| mr_brand := brand brand_;
               mr_mentions := mention_count brand_;
               mr_percentile := percentile;
               mr_tier := mention_tier brand_;
               mr_logo := logo brand_ |})
         brandInfoWithLogos).

End Accessors.

(** ** analyticsData.ts: keywords, competitors and rates *)

(** [Math.max(a, b)] *)
Definition Math_max (a b : number) : number :=
  match Num.compare a b with
  | None => NaN
  | Some Lt => b
  | Some _ => a
  end.

(** [Math.max(...xs)]; [-Infinity] for no argument. *)
Definition Math_max_of (xs : list Q) : number :=
  foldr (λ x acc, Math_max (Fin x) acc) NegInf xs.

(** An entry of [search_keywords]. *)
Record Keyword : Type := {
  kw_name : string;
  prompts : option (list string);
}.

(** An entry of [sources_and_content_impact]; [mentions] by its
    [Object.entries]. *)
Record Source : Type := {
  src_mentions : option (list (string * Mention));
  pages_used : option (list string);
}.

(** The analytics object with the fields the functions below read in
    addition to those of [Analytics]; the two objects are given by their
    [Object.entries]. *)
Record Payload : Type := {
  core : Analytics;
  search_keywords : option (list (string * Keyword));
  sources_and_content_impact : option (list (string * Source));
}.

Record KeywordWithPrompts : Type := {
  kp_id : string;
  kp_name : string;
  kp_prompts : list string;
}.

Definition getKeywords (analytics : option Payload) : list string :=
  match analytics ≫= search_keywords with
  | None => []
  | Some kws => map (λ e, kw_name e.2) kws
  end.

Definition getSearchKeywordsWithPrompts (analytics : option Payload)
    : list KeywordWithPrompts :=
  match analytics ≫= search_keywords with
  | None => []
  | Some kws =>
      map (λ '(id, kw),
             {| kp_id := id; kp_name := kw_name kw;
                kp_prompts := default [] (prompts kw) |})
          kws
  end.

(** First revision only. *)
Definition getTotalPromptCount (analytics : option Payload) : nat :=
  match analytics ≫= search_keywords with
  | None => 0
  | Some kws =>
      foldl (λ totalPrompts (e : string * Keyword),
               match prompts e.2 with
               | Some ps => totalPrompts + length ps
               | None => totalPrompts
               end)
            0 kws
  end.

Record CompetitorRow : Type := {
  cr_name : string;
  keywordScores : list Q;
  totalScore : Q;
  cr_logo : string;
}.

Record VisibilityRow : Type := {
  row : CompetitorRow;
  visibility : number;
}.

Record Rate : Type := {
  rate_brand : string;
  rate : Q;
}.

Section Competitors.
Context {lf : LogoFormat}.

Definition getCompetitorData (analytics : option Payload) : list CompetitorRow :=
  let brandInfoWithLogos := getBrandInfoWithLogos (core <$> analytics) in
  let keywordsWithPrompts := getSearchKeywordsWithPrompts analytics in
  Array_sort (λ a b, totalScore b - totalScore a)%Q
    (map (λ brand_,
            let keywordScores :=
              foldl (λ keywordScores kw,
                       let score := opt_or (mention_breakdown brand_ ≫= (.!! kp_id kw)) 0%Q in
                       (keywordScores ++ [score])%list)
                    [] keywordsWithPrompts in
            let totalScore := geo_score brand_ in
            {| cr_name := brand brand_;
               keywordScores := keywordScores;
               totalScore := totalScore;
               cr_logo := logo brand_ |})
         brandInfoWithLogos).

Definition getCompetitorVisibility (analytics : option Payload) : list VisibilityRow :=
  let data := getCompetitorData analytics in
  let maxScore := Math_max_of (map totalScore data) in
  map (λ c,
         {| row := c;
            visibility :=
              if Num.gtb maxScore (Fin 0%Q)
              then Math_round (Num.mul (Num.div (Fin (totalScore c)) maxScore) (Fin 100%Q))
              else Fin 0%Q |})
      data.

Definition getAllBrandVisibilityScores (analytics : option Payload) : list Q :=
  map totalScore (getCompetitorData analytics).


End Competitors.

(** ** The page components: derived values *)

Section PromptsContent.
Variable brandName : string.
Variable brandInfo : list BrandInfo.
Variable keywordsWithPrompts : list KeywordWithPrompts.

Definition getBrandScoreForKeyword (keywordId : string) : Q :=
  opt_or (b ← List.find (λ b, String.eqb (brand b) brandName) brandInfo;
          mention_breakdown b ≫= (.!! keywordId)) 0%Q.

(** [keywordsWithPrompts.reduce((acc, k) => acc + k.prompts.length, 0)] *)
Definition totalPrompts : nat :=
  foldl (λ acc k, acc + length (kp_prompts k)) 0 keywordsWithPrompts.

(** The tiles under "Brand Mentions for" a keyword: the brands that are
    mentioned for it and the subject brand, by descending score.  The
    [filter] yields a new array, which the [sort] then orders. *)
Definition competitorBreakdown (keywordId : string) : list BrandInfo :=
  Array_sort (λ a b, keywordScore keywordId b - keywordScore keywordId a)%Q
    (List.filter (λ b, Qltb 0%Q (keywordScore keywordId b)
                       || String.eqb (brand b) brandName)
                 brandInfo).
End PromptsContent.

Section SourcesAllContent.
Variable brandName : string.

(** [mentions[name]] on the entries of [mentions]. *)
Definition mention_of (mentions : list (string * Mention)) (name : string)
    : option Mention :=
  snd <$> List.find (λ e, String.eqb e.1 name) mentions.

Record SourceRow : Type := {
  sr_name : string;
  sr_pagesUsed : list string;
  sr_mentions : list (string * Mention);
  totalMentions : Q;
  sr_brandMentions : Q;
  brandScore : number;
  brandInsight : string;
}.

(** The [sourcesData] of the component, from the entries of
    [sources_and_content_impact]. *)
Definition sourcesData (sourcesAndContentImpact : list (string * Source))
    : list SourceRow :=
  map (λ '(sourceName, sourceData),
         let mentions := default [] (src_mentions sourceData) in
         let pagesUsed := default [] (pages_used sourceData) in
         let totalMentions :=
           foldl (λ totalMentions (m : string * Mention),
                    (totalMentions + opt_or (count m.2) 0)%Q)
                 0%Q mentions in
         {| sr_name := sourceName;
            sr_pagesUsed := pagesUsed;
            sr_mentions := mentions;
            totalMentions := totalMentions;
            sr_brandMentions := opt_or (mention_of mentions brandName ≫= count) 0%Q;
            brandScore :=
              Math_round
                (Num.mul (Fin (opt_or (mention_of mentions brandName ≫= m_score) 0%Q))
                         (Fin 100%Q));
            brandInsight := str_or (mention_of mentions brandName ≫= insight) "" |})
      sourcesAndContentImpact.

Definition totalMentionsAll (rows : list SourceRow) : Q :=
  foldl (λ acc s, acc + totalMentions s)%Q 0%Q rows.
End SourcesAllContent.

(** ** analyticsData.ts: the stored response

    The module keeps the last API response in a variable and in
    [localStorage].  [JSON.stringify] and [JSON.parse] belong to the
    platform and are parameters; a parse that throws is [None].  A parsed
    value is seen through the fields the code reads: one without an
    [analytics] array (also [null] or a primitive) has [analytics = None].
    A [brands] field that is present is an array. *)

Record Wrapper : Type := {
  w_analytics : option Payload;
  w_date : option string;
  w_updated_at : option string;
  w_created_at : option string;
  w_status : option string;
}.

Record Response : Type := {
  analytics : option (list (option Wrapper));
}.

Class Json : Type := {
  JSON_stringify : Response → string;
  JSON_parse : string → option Response;
}.

Record Store : Type := {
  currentAnalyticsData : option Response;
  localStorage : gmap string string;
}.

Definition ANALYTICS_STORAGE_KEY : string := "new_results_analytics_data".

(** The state of a freshly loaded module: [let currentAnalyticsData = null]. *)
Definition moduleInit (st : Store) : Store :=
  {| currentAnalyticsData := None; localStorage := localStorage st |}.

Section StoredResponse.
Context {json : Json}.

(** [setItemOk] tells whether the browser accepts the write; the code
    catches the exception of a refused one. *)
Definition setAnalyticsData (apiResponse : option Response) (setItemOk : bool)
    (st : Store) : Store :=
  match apiResponse with
  | Some r =>
      match analytics r with
      | Some _ =>
          {| currentAnalyticsData := Some r;
             localStorage :=
               if setItemOk
               then <[ANALYTICS_STORAGE_KEY := JSON_stringify r]> (localStorage st)
               else localStorage st |}
      | None => st
      end
  | None => st
  end.

Definition removeStored (st : Store) : Store :=
  {| currentAnalyticsData := currentAnalyticsData st;
     localStorage := delete ANALYTICS_STORAGE_KEY (localStorage st) |}.

Definition loadAnalyticsFromStorage (st : Store) : bool * Store :=
  match localStorage st !! ANALYTICS_STORAGE_KEY with
  | Some stored =>
      if String.eqb stored "" then (false, st)
      else
        match JSON_parse stored with
        | Some parsed =>
            match analytics parsed with
            | Some entries =>
                let analyticsObj := mjoin (head entries) ≫= w_analytics in
                match analyticsObj with
                | Some obj =>
                    match brands (core obj) with
                    | None => (false, removeStored st)
                    | Some _ =>
                        (true, {| currentAnalyticsData := Some parsed;
                                  localStorage := localStorage st |})
                    end
                | None =>
                    (true, {| currentAnalyticsData := Some parsed;
                              localStorage := localStorage st |})
                end
            | None => (false, st)
            end
        | None => (false, removeStored st)
        end
  | None => (false, st)
  end.

Definition clearAnalyticsData (st : Store) : Store :=
  {| currentAnalyticsData := None;
     localStorage := delete ANALYTICS_STORAGE_KEY (localStorage st) |}.

Definition getAnalytics (st : Store) : option Payload :=
  match currentAnalyticsData st with
  | None => None
  | Some r =>
      match mjoin (analytics r ≫= head) with
      | None => None
      | Some wrapper => w_analytics wrapper
      end
  end.

Definition hasAnalyticsData (st : Store) : bool :=
  bool_decide (is_Some (currentAnalyticsData st))
  && bool_decide (is_Some (getAnalytics st)).

Definition getStatus (st : Store) : string :=
  match mjoin ((currentAnalyticsData st ≫= analytics) ≫= head) with
  | None => ""
  | Some wrapper => str_or (w_status wrapper) ""
  end.

End StoredResponse.

(** ** The onboarding page: selections

    A state update of the form [setX(prev => ...)] is the function it
    passes.  A handler that first tests the state of its render returns
    no update when it returns early. *)

(** [Array.from(new Set(xs))]: the first occurrence of each element. *)
Fixpoint dedupe_from (seen xs : list string) : list string :=
  match xs with
  | [] => []
  | x :: xs' =>
      if bool_decide (x ∈ seen) then dedupe_from seen xs'
      else x :: dedupe_from (x :: seen) xs'
  end.

Definition dedupe (xs : list string) : list string := dedupe_from [] xs.

(** [prev.includes(k)] *)
Definition includes (l : list string) (k : string) : bool := bool_decide (k ∈ l).

(** [handleGenerateBrandDescription]: the suggested keywords. *)
Definition mergeSuggestedKeywords (keywords prev : list string) : list string :=
  let uniqueNew := List.filter (λ k, negb (includes prev k)) keywords in
  (prev ++ uniqueNew)%list.

(** [handlePrePopulateData]: the suggested and the selected keywords. *)
Definition prePopulateSuggested (keywords prev : list string) : list string :=
  dedupe (keywords ++ prev).

Definition prePopulateSelected (keywords prev : list string) : list string :=
  dedupe (prev ++ keywords).

Definition toggleKeyword (selectedKeywords : list string) (keyword : string)
    : option (list string → list string) :=
  if includes selectedKeywords keyword
  then Some (λ prev, List.filter (λ k, negb (String.eqb k keyword)) prev)
  else if (3 <=? length selectedKeywords)%nat then None
  else Some (λ prev, (prev ++ [keyword])%list).

(** The update applied to the state the handler was rendered with. *)
Definition applyUpdate {A} (state : A) (update : option (A → A)) : A :=
  match update with
  | Some f => f state
  | None => state
  end.

(** What [handleAddCustomKeyword] does: the updates of the two lists and
    the title of its toast. *)
Record CustomKeyword : Type := {
  selectedUpdate : list string → list string;
  suggestedUpdate : list string → list string;
  toastTitle : string;
}.

Section CustomKeyword.
(** [String.prototype.trim] *)
Variable trim : string → string.

Definition handleAddCustomKeyword (selectedKeywords : list string)
    (customKeyword : string) : option CustomKeyword :=
  if String.eqb (trim customKeyword) "" then None
  else if (3 <=? length selectedKeywords)%nat then
    Some {| selectedUpdate := λ prev, prev;
            suggestedUpdate := λ prev, prev;
            toastTitle := "Selection full" |}
  else
    let newKw := trim customKeyword in
    Some {| selectedUpdate := λ prev, (prev ++ [newKw])%list;
            suggestedUpdate :=
              λ prev, if negb (includes prev newKw) then newKw :: prev else prev;
            toastTitle := "Keyword Added" |}.
End CustomKeyword.

(** The events on the selected keywords, each handled with the state of
    the render it occurs in. *)
Inductive KeywordEvent : Type :=
| Toggle (keyword : string)
| AddCustom (customKeyword : string).

Definition keywordStep (trim : string → string) (selected : list string)
    (e : KeywordEvent) : list string :=
  match e with
  | Toggle k => applyUpdate selected (toggleKeyword selected k)
  | AddCustom c =>
      applyUpdate selected (selectedUpdate <$> handleAddCustomKeyword trim selected c)
  end.

(** ** The onboarding page: the selected competitors

    A competitor has a name and a website; the page tests the website for
    truthiness, so a missing website and an empty one behave alike. *)

Record OnboardingCompetitor : Type := {
  oc_name : string;
  website : option string;
}.

(** Truthiness of an optional string. *)
Definition truthy_str (o : option string) : bool :=
  match o with
  | Some s => negb (String.eqb s "")
  | None => false
  end.

(** What [handleAddCustomCompetitor] does when it does not return early:
    the updates of the selected and of the suggested competitors. *)
Record CustomCompetitor : Type := {
  cc_selectedUpdate : list OnboardingCompetitor → list OnboardingCompetitor;
  cc_suggestedUpdate : list OnboardingCompetitor → list OnboardingCompetitor;
}.

(** The events on the selected competitors. *)
Inductive CompetitorEvent : Type :=
| ToggleCompetitor (competitor : OnboardingCompetitor)
| AddCustomCompetitor (customCompName customCompWebsite : string).

(** [normalizeDomain] trims, lowercases and strips the scheme, a leading
    [www.] and trailing slashes with the platform's string functions; the
    handlers below use nothing of it but that it is a function.  The same
    holds of [String.prototype.String_trim] and [String.prototype.toLowerCase]. *)
Class StringOps : Type := {
  normalizeDomain : string → string;
  String_trim : string → string;
  String_toLowerCase : string → string;
}.

Section CompetitorSelection.
Context {ops : StringOps}.

Definition isSameCompetitor (a b : OnboardingCompetitor) : bool :=
  if truthy_str (website a) && truthy_str (website b)
  then String.eqb (normalizeDomain (default "" (website a)))
                  (normalizeDomain (default "" (website b)))
  else String.eqb (String_trim (String_toLowerCase (oc_name a)))
                  (String_trim (String_toLowerCase (oc_name b))).

Definition toggleCompetitor (selectedCompetitors : list OnboardingCompetitor)
    (competitor : OnboardingCompetitor)
    : option (list OnboardingCompetitor → list OnboardingCompetitor) :=
  let isSelected := existsb (λ c, isSameCompetitor c competitor) selectedCompetitors in
  if isSelected
  then Some (λ prev, List.filter (λ c, negb (isSameCompetitor c competitor)) prev)
  else if (5 <=? length selectedCompetitors)%nat then None
  else Some (λ prev, (prev ++ [competitor])%list).

Definition handleAddCustomCompetitor (selectedCompetitors : list OnboardingCompetitor)
    (customCompName customCompWebsite : string) : option CustomCompetitor :=
  if String.eqb (String_trim customCompName) "" || String.eqb (String_trim customCompWebsite) ""
  then None
  else if (5 <=? length selectedCompetitors)%nat then None
  else
    let normalizedWeb := normalizeDomain customCompWebsite in
    let newComp := {| oc_name := String_trim customCompName; website := Some normalizedWeb |} in
    Some {| cc_selectedUpdate := λ prev, (prev ++ [newComp])%list;
            cc_suggestedUpdate :=
              λ prev, if negb (existsb (λ c, isSameCompetitor c newComp) prev)
                      then newComp :: prev else prev |}.

(** [handleGenerateBrandDescription]: the suggested competitors. *)
Definition mergeSuggestedCompetitors (competitors prev : list OnboardingCompetitor)
    : list OnboardingCompetitor :=
  let newComps :=
    List.filter (λ nc, negb (existsb (λ pc, isSameCompetitor nc pc) prev)) competitors in
  (prev ++ newComps)%list.

(** [handlePrePopulateData]: the suggested and the selected competitors. *)
Definition prePopulateSuggestedCompetitors (competitors prev : list OnboardingCompetitor)
    : list OnboardingCompetitor :=
  let newCompetitors :=
    List.filter (λ nc, negb (existsb (λ pc, isSameCompetitor nc pc) prev)) competitors in
  (newCompetitors ++ prev)%list.

Definition prePopulateSelectedCompetitors (competitors prev : list OnboardingCompetitor)
    : list OnboardingCompetitor :=
  let newCompetitors :=
    List.filter (λ nc, negb (existsb (λ pc, isSameCompetitor nc pc) prev)) competitors in
  (prev ++ newCompetitors)%list.

Definition competitorStep (selected : list OnboardingCompetitor) (e : CompetitorEvent)
    : list OnboardingCompetitor :=
  match e with
  | ToggleCompetitor c => applyUpdate selected (toggleCompetitor selected c)
  | AddCustomCompetitor n w =>
      applyUpdate selected (cc_selectedUpdate <$> handleAddCustomCompetitor selected n w)
  end.
End CompetitorSelection.

(** ** The onboarding page: progress of the analysis *)

(** [AGENTS.length] *)
Definition AGENTS_length : Z := 5.

(** One tick of the two-second interval:
    [prev < AGENTS.length - 1 ? prev + 1 : prev]. *)
Definition nextAgent (prev : Z) : Z :=
  if (prev <? AGENTS_length - 1)%Z then (prev + 1)%Z else prev.

(** [Math.round(((activeAgentIndex + 1) / AGENTS.length) * 100)] *)
Definition progressPercent (activeAgentIndex : Z) : number :=
  Math_round
    (Num.mul (Num.div (of_Z (activeAgentIndex + 1)) (of_Z AGENTS_length)) (Fin 100%Q)).

(** [Math.max(0, (AGENTS.length - activeAgentIndex - 1) * 2)] *)
Definition secondsRemaining (activeAgentIndex : Z) : Z :=
  Z.max 0 ((AGENTS_length - activeAgentIndex - 1) * 2).

(** ** More sample payloads *)

(** String functions that leave their argument as it is. *)
Definition plain_ops : StringOps :=
  {| normalizeDomain := λ s, s; String_trim := λ s, s; String_toLowerCase := λ s, s |}.


Definition keywordBrand (name : string) (geo : Q) (mb : gmap string Q) : Raw.Brand :=
  {| Raw.brand := name; Raw.geo_score := Some geo; Raw.mention_score := None;
     Raw.mention_count := None; Raw.logo := None; Raw.geo_tier := None;
     Raw.mention_tier := None; Raw.summary := None; Raw.outlook := None;
     Raw.mention_breakdown := Some mb |}.

(** Three brands, two keywords with four prompts in all, one source. *)
Definition samplePayload : Payload :=
  {| core :=
       {| brand_name := Some "Acme";
          brands :=
            Some [keywordBrand "Acme" 60%Q {[ "k1" := 2%Q; "k2" := 1%Q ]};
                  keywordBrand "Beta" 80%Q {[ "k1" := 3%Q ]};
                  keywordBrand "Gamma" 0%Q ∅];
          llm_wise_data := None |};
     search_keywords :=
       Some [("k1", {| kw_name := "crm"; prompts := Some ["a"; "b"; "c"] |});
             ("k2", {| kw_name := "erp"; prompts := Some ["d"] |})];
     sources_and_content_impact :=
       Some [("reddit",
              {| src_mentions :=
                   Some [("Acme", {| count := Some 2%Q; m_score := Some (1 # 2)%Q;
                                     insight := Some "seen" |});
                         ("Beta", {| count := Some 5%Q;
                                     m_score := Some (JSON_number (9 # 10));
                                     insight := None |})];
                 pages_used := Some ["https://example.com/a"] |})] |}.

(** A source that mentions "Acme" with a score of 0.575. *)
Definition halfwaySource : list (string * Source) :=
  [("reddit",
    {| src_mentions :=
         Some [("Acme", {| count := Some 2%Q; m_score := Some (JSON_number (575 # 1000));
                           insight := None |})];
       pages_used := None |})].

(** A stored response with the sample payload, one whose first entry has
    an analytics object without [brands], and a platform whose
    [JSON.parse] returns what [JSON.stringify] was given for these two. *)
Definition sampleResponse : Response :=
  {| analytics :=
       Some [Some {| w_analytics := Some samplePayload; w_date := Some "2025-01-01";
                     w_updated_at := None; w_created_at := None;
                     w_status := Some "completed" |}] |}.

Definition oldResponse : Response :=
  {| analytics :=
       Some [Some {| w_analytics :=
                       Some {| core := {| brand_name := Some "Acme"; brands := None;
                                          llm_wise_data := None |};
                               search_keywords := None;
                               sources_and_content_impact := None |};
                     w_date := None; w_updated_at := None; w_created_at := None;
                     w_status := None |}] |}.

Definition sampleJson : Json :=
  {| JSON_stringify :=
       λ r, match analytics r with
            | Some [Some w] =>
                match w_analytics w ≫= (λ p, brands (core p)) with
                | Some _ => "new"
                | None => "old"
                end
            | _ => "other"
            end;
     JSON_parse :=
       λ s, if String.eqb s "new" then Some sampleResponse
            else if String.eqb s "old" then Some oldResponse
            else None |}.

Definition emptyStore : Store := {| currentAnalyticsData := None; localStorage := ∅ |}.

(** * Properties *)

(** ** Numbers *)

Lemma Qltb_lt (a b : Q) : Qltb a b = true ↔ (a < b)%Q.
Proof.
  unfold Qltb. rewrite negb_true_iff. split.
  - intros Hb. apply Qnot_le_lt. intros Hle.
    apply Qle_bool_iff in Hle. congruence.
  - intros Hlt. destruct (Qle_bool b a) eqn:E; [|done].
    apply Qle_bool_iff in E. lra.
Qed.

Lemma Qltb_ge (a b : Q) : Qltb a b = false ↔ (b <= a)%Q.
Proof.
  unfold Qltb. rewrite negb_false_iff. apply Qle_bool_iff.
Qed.

Lemma Qle_bool_gt (a b : Q) : Qle_bool a b = false ↔ (b < a)%Q.
Proof.
  split.
  - intros Hb. apply Qnot_le_lt. intros Hle.
    apply Qle_bool_iff in Hle. congruence.
  - intros Hlt. destruct (Qle_bool a b) eqn:E; [|done].
    apply Qle_bool_iff in E. lra.
Qed.

Lemma Qeq_bool_false (a b : Q) : Qeq_bool a b = false ↔ ¬ (a == b)%Q.
Proof.
  split.
  - intros Hb Heq. apply Qeq_bool_iff in Heq. congruence.
  - intros Hne. destruct (Qeq_bool a b) eqn:E; [|done].
    apply Qeq_bool_iff in E. done.
Qed.

#[export] Instance round_Q_proper : Proper (Qeq ==> eq) round_Q.
Proof. intros a b Hab. unfold round_Q. by rewrite Hab. Qed.

Lemma round_Q_Z (z : Z) : round_Q (inject_Z z) = z.
Proof.
  unfold round_Q. apply Z.le_antisymm.
  - apply Z.lt_succ_r. rewrite Zlt_Qlt.
    eapply Qle_lt_trans; [apply Qfloor_le|].
    unfold Z.succ. rewrite inject_Z_plus. change (inject_Z 1) with 1%Q. lra.
  - rewrite <- (Qfloor_Z z) at 1. apply Qfloor_resp_le. lra.
Qed.

Lemma round_Q_mono (a b : Q) : (a <= b)%Q → (round_Q a <= round_Q b)%Z.
Proof. intros Hab. unfold round_Q. apply Qfloor_resp_le. lra. Qed.

(** *** Rounding to binary64 *)

Lemma pow2_pos (e : Z) : (0 < 2 ^ e)%Q.
Proof. by apply Qpower_0_lt. Qed.

Lemma pow2_add (a b : Z) : (2 ^ (a + b) == 2 ^ a * 2 ^ b)%Q.
Proof. by apply Qpower_plus. Qed.

Lemma pow2_le (a b : Z) : (a <= b)%Z → (2 ^ a <= 2 ^ b)%Q.
Proof. intros H. by apply Qpower_le_compat_l. Qed.

Lemma pow2_lt (a b : Z) : (a < b)%Z → (2 ^ a < 2 ^ b)%Q.
Proof. intros H. by apply Qpower_lt_compat_l. Qed.

Lemma pow2_lt_inv (a b : Z) : (2 ^ a < 2 ^ b)%Q → (a < b)%Z.
Proof. intros H. by apply Qpower_lt_compat_l_inv in H. Qed.

Lemma pow2_Z (a : Z) : (0 <= a)%Z → (inject_Z (2 ^ a) == 2 ^ a)%Q.
Proof. intros H. by apply (Zpower_Qpower 2). Qed.

Lemma ilog2_spec (q : Q) : (0 < q)%Q → (2 ^ ilog2 q <= q)%Q ∧ (q < 2 ^ (ilog2 q + 1))%Q.
Proof.
  intros Hq. unfold ilog2.
  destruct q as [n d]. assert (Hn : (0 < n)%Z).
  { unfold Qlt in Hq. simpl in Hq. lia. }
  cbn [Qnum Qden].
  destruct (Z.log2_spec n Hn) as [Hn1 Hn2].
  destruct (Z.log2_spec (Zpos d) (Pos2Z.is_pos d)) as [Hd1 Hd2].
  pose proof (Z.log2_nonneg n) as Ha. pose proof (Z.log2_nonneg (Zpos d)) as Hb.
  set (a := Z.log2 n) in *. set (b := Z.log2 (Zpos d)) in *.
  assert (Hup : (n # d < 2 ^ (a - b + 1))%Q).
  { rewrite (Qmake_Qdiv n d). apply Qlt_shift_div_r; [reflexivity|].
    apply Qlt_le_trans with (2 ^ (a + 1))%Q.
    - rewrite <- pow2_Z by lia. rewrite <- Zlt_Qlt. unfold Z.succ in Hn2. lia.
    - replace (a + 1)%Z with ((a - b + 1) + b)%Z by lia. rewrite pow2_add.
      apply Qmult_le_l; [apply pow2_pos|].
      rewrite <- pow2_Z by lia. by rewrite <- Zle_Qle. }
  assert (Hlow : (2 ^ (a - b - 1) < n # d)%Q).
  { rewrite (Qmake_Qdiv n d). apply Qlt_shift_div_l; [reflexivity|].
    apply Qlt_le_trans with (2 ^ a)%Q.
    - replace a with ((a - b - 1) + (b + 1))%Z at 2 by lia. rewrite pow2_add.
      apply Qmult_lt_l; [apply pow2_pos|].
      rewrite <- pow2_Z by lia. rewrite <- Zlt_Qlt. unfold Z.succ in Hd2. lia.
    - rewrite <- pow2_Z by lia. by rewrite <- Zle_Qle. }
  destruct (Qle_bool (2 ^ (a - b)) (n # d)) eqn:E.
  - apply Qle_bool_iff in E. done.
  - split; [by apply Qlt_le_weak|].
    replace (a - b - 1 + 1)%Z with (a - b)%Z by lia.
    apply Qnot_le_lt. intros Hle. apply Qle_bool_iff in Hle. congruence.
Qed.

Lemma ilog2_unique (q : Q) (j : Z) :
  (2 ^ j <= q)%Q → (q < 2 ^ (j + 1))%Q → ilog2 q = j.
Proof.
  intros H1 H2.
  assert (Hq : (0 < q)%Q) by (pose proof (pow2_pos j); lra).
  destruct (ilog2_spec q Hq) as [H3 H4].
  assert (j < ilog2 q + 1)%Z by (apply pow2_lt_inv; lra).
  assert (ilog2 q < j + 1)%Z by (apply pow2_lt_inv; lra).
  lia.
Qed.

Lemma ilog2_mono (a b : Q) : (0 < a)%Q → (a <= b)%Q → (ilog2 a <= ilog2 b)%Z.
Proof.
  intros Ha Hab.
  destruct (ilog2_spec a Ha) as [H1 _].
  destruct (ilog2_spec b) as [_ H2]; [lra|].
  assert (ilog2 a < ilog2 b + 1)%Z by (apply pow2_lt_inv; lra). lia.
Qed.

Lemma ilog2_proper (a b : Q) : (0 < a)%Q → (a == b)%Q → ilog2 a = ilog2 b.
Proof.
  intros Ha Hab. symmetry. destruct (ilog2_spec a Ha).
  apply ilog2_unique; lra.
Qed.

#[export] Instance round_half_even_proper : Proper (Qeq ==> eq) round_half_even.
Proof.
  intros a b Hab. unfold round_half_even. cbv zeta.
  rewrite (Qfloor_comp a b Hab).
  assert (((a - inject_Z (Qfloor b) ?= 1 # 2) = (b - inject_Z (Qfloor b) ?= 1 # 2))%Q) as ->;
    [|done].
  apply Qcompare_comp; [|done]. by rewrite Hab.
Qed.

Lemma round_half_even_Z (z : Z) : round_half_even (inject_Z z) = z.
Proof.
  unfold round_half_even. rewrite Qfloor_Z.
  assert ((inject_Z z - inject_Z z ?= 1 # 2)%Q = Lt) as ->; [|done].
  apply (proj1 (Qlt_alt _ _)). generalize (inject_Z z). intros x. lra.
Qed.

Lemma round_half_even_bounds (q : Q) :
  (q - (1 # 2) <= inject_Z (round_half_even q))%Q
  ∧ (inject_Z (round_half_even q) <= q + (1 # 2))%Q.
Proof.
  unfold round_half_even.
  pose proof (Qfloor_le q) as H1. pose proof (Qlt_floor q) as H2.
  rewrite inject_Z_plus in H2. change (inject_Z 1) with 1%Q in H2.
  destruct (Qcompare_spec (q - inject_Z (Qfloor q)) (1 # 2)) as [H|H|H].
  - destruct (Z.even (Qfloor q)); [lra|].
    rewrite inject_Z_plus. change (inject_Z 1) with 1%Q. lra.
  - lra.
  - rewrite inject_Z_plus. change (inject_Z 1) with 1%Q. lra.
Qed.

Lemma round_half_even_mono (a b : Q) :
  (a <= b)%Q → (round_half_even a <= round_half_even b)%Z.
Proof.
  intros Hab. pose proof (Qfloor_resp_le a b Hab) as Hf.
  destruct (Z.eq_dec (Qfloor a) (Qfloor b)) as [Heq|Hne].
  - unfold round_half_even. rewrite <- Heq.
    destruct (Qcompare_spec (a - inject_Z (Qfloor a)) (1 # 2)) as [Ha|Ha|Ha];
      destruct (Qcompare_spec (b - inject_Z (Qfloor a)) (1 # 2)) as [Hb|Hb|Hb];
      try lra; destruct (Z.even (Qfloor a)); lia.
  - assert (round_half_even a <= Qfloor a + 1)%Z.
    { unfold round_half_even. destruct (_ ?= _)%Q; [destruct (Z.even _)| |]; lia. }
    assert (Qfloor b <= round_half_even b)%Z.
    { unfold round_half_even. destruct (_ ?= _)%Q; [destruct (Z.even _)| |]; lia. }
    lia.
Qed.

Lemma exponent_mono (a b : Q) : (0 < a)%Q → (a <= b)%Q → (exponent a <= exponent b)%Z.
Proof. intros Ha Hab. unfold exponent. pose proof (ilog2_mono a b Ha Hab). lia. Qed.

Lemma nearest_value (q : Q) :
  (nearest q == inject_Z (round_half_even (q / 2 ^ exponent q)) * 2 ^ exponent q)%Q.
Proof. unfold nearest. apply Qred_correct. Qed.

(** The scaled value is below [2^53], and from [2^52] up unless the
    exponent is the least one. *)
Lemma scaled_bounds (q : Q) :
  (0 < q)%Q →
  (0 < q / 2 ^ exponent q)%Q
  ∧ (q / 2 ^ exponent q < 2 ^ 53)%Q
  ∧ ((-1074 < exponent q)%Z → (2 ^ 52 <= q / 2 ^ exponent q)%Q).
Proof.
  intros Hq. destruct (ilog2_spec q Hq) as [H1 H2].
  pose proof (pow2_pos (exponent q)) as He.
  split_and!.
  - apply Qlt_shift_div_l; lra.
  - apply Qlt_shift_div_r; [done|]. rewrite <- pow2_add.
    eapply Qlt_le_trans; [exact H2|]. apply pow2_le. unfold exponent. lia.
  - intros Hnormal. apply Qle_shift_div_l; [done|]. rewrite <- pow2_add.
    eapply Qle_trans; [|exact H1]. apply pow2_le. unfold exponent in *. lia.
Qed.

Lemma mantissa_bounds (q : Q) :
  (0 < q)%Q →
  let m := round_half_even (q / 2 ^ exponent q) in
  (0 <= m <= 2 ^ 53)%Z ∧ ((-1074 < exponent q)%Z → (2 ^ 52 <= m)%Z).
Proof.
  intros Hq m. destruct (scaled_bounds q Hq) as (H0 & H1 & H2).
  split_and!.
  - rewrite <- (round_half_even_Z 0). apply round_half_even_mono.
    change (inject_Z 0) with 0%Q. lra.
  - rewrite <- (round_half_even_Z (2 ^ 53)). apply round_half_even_mono.
    rewrite pow2_Z by lia. lra.
  - intros Hn. rewrite <- (round_half_even_Z (2 ^ 52)). apply round_half_even_mono.
    rewrite pow2_Z by lia. by apply H2.
Qed.

Lemma nearest_nonneg (q : Q) : (0 < q)%Q → (0 <= nearest q)%Q.
Proof.
  intros Hq. rewrite nearest_value.
  destruct (mantissa_bounds q Hq) as [[Hm _] _].
  apply Qmult_le_0_compat; [|apply Qlt_le_weak, pow2_pos].
  change 0%Q with (inject_Z 0). by rewrite <- Zle_Qle.
Qed.

Lemma nearest_mono (a b : Q) : (0 < a)%Q → (a <= b)%Q → (nearest a <= nearest b)%Q.
Proof.
  intros Ha Hab. assert (Hb : (0 < b)%Q) by lra.
  rewrite !nearest_value.
  pose proof (exponent_mono a b Ha Hab) as He.
  destruct (mantissa_bounds a Ha) as [[_ Hma] _].
  destruct (mantissa_bounds b Hb) as [_ Hmb].
  pose proof (pow2_pos (exponent a)) as Hpa. pose proof (pow2_pos (exponent b)) as Hpb.
  destruct (Z.eq_dec (exponent a) (exponent b)) as [Heq|Hne].
  - rewrite <- Heq. apply Qmult_le_compat_r; [|lra].
    rewrite <- Zle_Qle. apply round_half_even_mono.
    apply Qmult_le_compat_r; [done|]. apply Qlt_le_weak, Qinv_lt_0_compat. done.
  - apply Qle_trans with (2 ^ (exponent a + 53))%Q.
    + rewrite pow2_add, (Qmult_comm (2 ^ exponent a)).
      apply Qmult_le_compat_r; [|lra]. rewrite <- (pow2_Z 53) by lia. by rewrite <- Zle_Qle.
    + apply Qle_trans with (2 ^ (exponent b + 52))%Q; [apply pow2_le; lia|].
      rewrite pow2_add, (Qmult_comm (2 ^ exponent b)).
      apply Qmult_le_compat_r; [|lra]. rewrite <- (pow2_Z 52) by lia. rewrite <- Zle_Qle.
      apply Hmb. unfold exponent in *. lia.
Qed.

Lemma nearest_proper (a b : Q) : (0 < a)%Q → (a == b)%Q → nearest a = nearest b.
Proof.
  intros Ha Hab. unfold nearest, exponent. cbv zeta.
  rewrite <- (ilog2_proper a b Ha Hab). apply Qred_complete.
  assert (round_half_even (a / 2 ^ Z.max (ilog2 a - 52) (-1074))
          = round_half_even (b / 2 ^ Z.max (ilog2 a - 52) (-1074))) as ->; [|reflexivity].
  apply round_half_even_proper. unfold Qdiv. by apply Qmult_comp.
Qed.

Lemma nearest_error (q : Q) (k : Z) :
  (0 < q)%Q → (q < 2 ^ k)%Q → (-1021 <= k)%Z →
  (q - 2 ^ (k - 54) <= nearest q)%Q ∧ (nearest q <= q + 2 ^ (k - 54))%Q.
Proof.
  intros Hq Hk Hmin. rewrite nearest_value.
  destruct (ilog2_spec q Hq) as [H1 _].
  assert (Hlog : (ilog2 q < k)%Z) by (apply pow2_lt_inv; lra).
  assert (He : (exponent q <= k - 53)%Z) by (unfold exponent; lia).
  pose proof (pow2_pos (exponent q)) as Hp.
  destruct (round_half_even_bounds (q / 2 ^ exponent q)) as [Hlo Hhi].
  set (m := inject_Z (round_half_even (q / 2 ^ exponent q))) in *.
  assert (Hhalf : (2 ^ exponent q * (1 # 2) <= 2 ^ (k - 54))%Q).
  { apply Qle_trans with (2 ^ (k - 53) * (1 # 2))%Q.
    - apply Qmult_le_compat_r; [by apply pow2_le | lra].
    - replace (k - 53)%Z with ((k - 54) + 1)%Z by lia. rewrite pow2_add.
      change (2 ^ 1)%Q with 2%Q. lra. }
  assert (Hq' : (q == q / 2 ^ exponent q * 2 ^ exponent q)%Q) by (field; lra).
  set (x := (q / 2 ^ exponent q)%Q) in *.
  assert ((x - (1 # 2)) * 2 ^ exponent q <= m * 2 ^ exponent q)%Q
    by (apply Qmult_le_compat_r; lra).
  assert (m * 2 ^ exponent q <= (x + (1 # 2)) * 2 ^ exponent q)%Q
    by (apply Qmult_le_compat_r; lra).
  generalize dependent (2 ^ exponent q)%Q. intros p. generalize dependent (2 ^ (k - 54))%Q.
  intros. nra.
Qed.

Lemma rounded_nonneg (q : Q) : (0 <= q)%Q → (0 <= rounded q)%Q.
Proof.
  intros Hq. unfold rounded. destruct (Qcompare_spec q 0) as [H|H|H]; [lra | lra |].
  by apply nearest_nonneg.
Qed.

Lemma rounded_mono (a b : Q) : (0 <= a)%Q → (a <= b)%Q → (rounded a <= rounded b)%Q.
Proof.
  intros Ha Hab. unfold rounded at 1. destruct (Qcompare_spec a 0) as [H|H|H].
  - apply rounded_nonneg. lra.
  - lra.
  - unfold rounded. destruct (Qcompare_spec b 0) as [H'|H'|H']; [lra | lra |].
    by apply nearest_mono.
Qed.

Lemma rounded_proper (a b : Q) : (a == b)%Q → rounded a = rounded b.
Proof.
  intros Hab. unfold rounded. rewrite <- (Qcompare_comp a b Hab 0%Q 0%Q (Qeq_refl 0%Q)).
  destruct (Qcompare_spec a 0) as [H|H|H]; [done | |].
  - f_equal. apply nearest_proper; [lra | by rewrite Hab].
  - by apply nearest_proper.
Qed.

Lemma rounded_error (q : Q) (k : Z) :
  (0 <= q)%Q → (q < 2 ^ k)%Q → (-1021 <= k)%Z →
  (q - 2 ^ (k - 54) <= rounded q)%Q ∧ (rounded q <= q + 2 ^ (k - 54))%Q.
Proof.
  intros Hq Hk Hmin. unfold rounded. destruct (Qcompare_spec q 0) as [H|H|H].
  - pose proof (pow2_pos (k - 54)). lra.
  - lra.
  - by apply nearest_error.
Qed.

(** Some values: a tenth, the smallest subnormal number and the half of
    it, which goes to the even neighbour 0, and the first rational that
    overflows. *)
Lemma rounded_values :
  rounded (1 # 10) = (3602879701896397 # 36028797018963968)%Q
  ∧ (rounded (2 ^ (-1074)) == 2 ^ (-1074))%Q
  ∧ rounded (2 ^ (-1075)) = 0%Q
  ∧ binary64 (2 ^ 1024 - 2 ^ 970) = PosInf
  ∧ binary64 (- (2 ^ 1024 - 2 ^ 970)) = NegInf
  ∧ (∃ r, binary64 (2 ^ 1024 - 2 ^ 970 - 1) = Fin r ∧ (r == 2 ^ 1024 - 2 ^ 971)%Q).
Proof.
  split_and!; try (vm_compute; reflexivity).
  eexists. split; [vm_compute; reflexivity|]. vm_compute. reflexivity.
Qed.

Lemma rounded_100 : rounded 100 = 100%Q.
Proof. vm_compute. reflexivity. Qed.


Lemma rounded_1 : rounded 1 = 1%Q.
Proof. vm_compute. reflexivity. Qed.

Lemma rounded_4 : rounded 4 = 4%Q.
Proof. vm_compute. reflexivity. Qed.

Lemma rounded_0 (q : Q) : (q == 0)%Q → rounded q = 0%Q.
Proof. intros Hq. by rewrite (rounded_proper q 0 Hq). Qed.

(** A rounded number is a binary64 number: rounding it again changes
    nothing. *)
Lemma nearest_idempotent (q : Q) :
  (0 < q)%Q → (0 < nearest q)%Q → nearest (nearest q) = nearest q.
Proof.
  intros Hq Hr.
  destruct (mantissa_bounds q Hq) as [[_ Hm53] Hm52].
  pose proof (nearest_value q) as Hv.
  set (e := exponent q) in *. set (m := round_half_even (q / 2 ^ e)) in *.
  pose proof (pow2_pos e) as He.
  assert (Hm0 : (0 < m)%Z).
  { destruct (Z_lt_le_dec 0 m) as [|Hle]; [done|]. exfalso.
    assert (inject_Z m <= 0)%Q by (change 0%Q with (inject_Z 0); by rewrite <- Zle_Qle).
    rewrite Hv in Hr. nra. }
  assert (Hval : ∀ k j : Z,
            exponent (nearest q) = k → (nearest q / 2 ^ k == inject_Z j)%Q →
            (inject_Z j * 2 ^ k == inject_Z m * 2 ^ e)%Q →
            nearest (nearest q) = nearest q).
  { intros k j Hk Hj Heq. unfold nearest at 1. cbv zeta. rewrite Hk.
    rewrite (round_half_even_proper _ _ Hj), round_half_even_Z.
    unfold nearest. cbv zeta. fold e. fold m. by apply Qred_complete. }
  destruct (Z.eq_dec m (2 ^ 53)%Z) as [Htop|Hlow].
  - assert (Hr53 : (nearest q == 2 ^ (e + 53))%Q).
    { rewrite Hv, Htop, pow2_add, (pow2_Z 53) by lia. apply Qmult_comm. }
    apply (Hval (e + 1)%Z (2 ^ 52)%Z).
    + unfold exponent. rewrite (ilog2_unique (nearest q) (e + 53)).
      * unfold e, exponent. lia.
      * rewrite Hr53. apply Qle_refl.
      * rewrite Hr53. apply pow2_lt. lia.
    + rewrite Hr53, (pow2_Z 52) by lia.
      replace (e + 53)%Z with (52 + (e + 1))%Z by lia. rewrite pow2_add.
      field. pose proof (pow2_pos (e + 1)). lra.
    + rewrite Htop, !pow2_Z by lia.
      rewrite <- !pow2_add. by replace (52 + (e + 1))%Z with (53 + e)%Z by lia.
  - assert (Hlt : (inject_Z m < 2 ^ 53)%Q).
    { rewrite <- (pow2_Z 53) by lia. rewrite <- Zlt_Qlt. lia. }
    assert (Hup : (nearest q < 2 ^ (e + 53))%Q).
    { rewrite Hv, pow2_add, (Qmult_comm (2 ^ e)). by apply Qmult_lt_compat_r. }
    apply (Hval e m).
    + destruct (ilog2_spec (nearest q) Hr) as [Hl1 Hl2].
      assert (Hlog : (ilog2 (nearest q) < e + 53)%Z) by (apply pow2_lt_inv; lra).
      destruct (Z_lt_le_dec (-1074) e) as [Hnormal|Hsub].
      * assert (Hm : (2 ^ 52 <= inject_Z m)%Q).
        { rewrite <- (pow2_Z 52) by lia. rewrite <- Zle_Qle. by apply Hm52. }
        assert (Hdown : (2 ^ (e + 52) <= nearest q)%Q).
        { rewrite Hv, pow2_add, (Qmult_comm (2 ^ e)). apply Qmult_le_compat_r; lra. }
        assert (e + 52 < ilog2 (nearest q) + 1)%Z by (apply pow2_lt_inv; lra).
        unfold exponent at 1. lia.
      * assert (e = -1074)%Z by (unfold e, exponent in *; lia).
        unfold exponent at 1. lia.
    + rewrite Hv. field. lra.
    + reflexivity.
Qed.

Lemma nearest_zero (q : Q) : (nearest q == 0)%Q → nearest q = 0%Q.
Proof.
  intros Hz. rewrite nearest_value in Hz. unfold nearest. cbv zeta.
  exact (Qred_complete _ 0 Hz).
Qed.

Lemma rounded_idempotent (q : Q) : rounded (rounded q) = rounded q.
Proof.
  destruct (Qcompare_spec q 0) as [H|H|H].
  - rewrite (rounded_0 q H). vm_compute. reflexivity.
  - assert (Hrq : rounded q = (- nearest (- q))%Q).
    { unfold rounded. by rewrite (proj1 (Qlt_alt _ _) H). }
    rewrite Hrq. assert (Hq : (0 < - q)%Q) by lra.
    pose proof (nearest_nonneg (- q) Hq) as Hn.
    destruct (Qlt_le_dec 0 (nearest (- q))) as [Hpos|Hzero].
    + unfold rounded.
      assert ((- nearest (- q) ?= 0)%Q = Lt) as -> by (apply (proj1 (Qlt_alt _ _)); lra).
      f_equal. rewrite <- (nearest_idempotent (- q) Hq Hpos) at 2.
      apply nearest_proper; [lra|]. ring.
    + assert (Hz : (- nearest (- q) == 0)%Q) by lra.
      rewrite (rounded_0 _ Hz).
      assert (Hnz : (nearest (- q) == 0)%Q) by lra.
      by rewrite (nearest_zero _ Hnz).
  - assert (Hrq : rounded q = nearest q).
    { unfold rounded. by rewrite (proj1 (Qgt_alt _ _) H). }
    rewrite Hrq. pose proof (nearest_nonneg q H) as Hn.
    destruct (Qlt_le_dec 0 (nearest q)) as [Hpos|Hzero].
    + unfold rounded.
      assert ((nearest q ?= 0)%Q = Gt) as -> by (apply (proj1 (Qgt_alt _ _)); lra).
      by apply nearest_idempotent.
    + assert (Hz : (nearest q == 0)%Q) by lra.
      rewrite (rounded_0 _ Hz). by rewrite (nearest_zero _ Hz).
Qed.

(** No overflow up to [2^1023]. *)
Lemma binary64_finite (q : Q) :
  (0 <= q)%Q → (q <= 2 ^ 1023)%Q → binary64 q = Fin (rounded q).
Proof.
  intros H0 H1. unfold binary64. cbv zeta.
  pose proof (rounded_nonneg q H0) as Hr0.
  pose proof (rounded_mono q (2 ^ 1023) H0 H1) as Hr1.
  assert (Hfix : (rounded (2 ^ 1023) == 2 ^ 1023)%Q) by (vm_compute; reflexivity).
  assert (Hlt : (2 ^ 1023 < 2 ^ 1024)%Q) by (by apply pow2_lt).
  assert (Hneg : (- 2 ^ 1024 < 0)%Q) by (pose proof (pow2_pos 1024); lra).
  assert (Qle_bool (2 ^ 1024) (rounded q) = false) as -> by (apply Qle_bool_gt; lra).
  assert (Qle_bool (rounded q) (- 2 ^ 1024) = false) as -> by (apply Qle_bool_gt; lra).
  done.
Qed.




Lemma div_Fin_nonzero (x y : Q) :
  ¬ (y == 0)%Q → Num.div (Fin x) (Fin y) = binary64 (x / y).
Proof. intros Hy. simpl. apply Qeq_bool_false in Hy. by rewrite Hy. Qed.

Lemma large_bound (q : Q) : (q <= 400)%Q → (q <= 2 ^ 1023)%Q.
Proof.
  intros Hq. apply Qle_trans with (2 ^ 9)%Q; [change (2 ^ 9)%Q with 512%Q; lra|].
  by apply pow2_le.
Qed.

(** *** The rounded percentage *)

(** The quotient of a part of at most four times the whole. *)
Lemma quotient_bounds (part total : Q) (k : Q) :
  (0 <= part)%Q → (0 < total)%Q → (part <= k * total)%Q →
  (0 <= part / total)%Q ∧ (part / total <= k)%Q.
Proof.
  intros Hp Ht Hk. split.
  - apply Qle_shift_div_l; lra.
  - apply Qle_shift_div_r; lra.
Qed.

Lemma roundedPercent_value (part total : Q) :
  (0 <= part)%Q → (0 < total)%Q → (part <= 4 * total)%Q →
  roundedPercent part total = of_Z (binary64Percent part total).
Proof.
  intros Hp Ht Hk. unfold roundedPercent, binary64Percent.
  destruct (quotient_bounds part total 4 Hp Ht Hk) as [Hq0 Hq4].
  rewrite div_Fin_nonzero by lra.
  rewrite binary64_finite; [|done|apply large_bound; lra].
  pose proof (rounded_nonneg _ Hq0) as Hr0.
  pose proof (rounded_mono _ 4 Hq0 Hq4) as Hr4. rewrite rounded_4 in Hr4.
  cbn [Num.mul]. rewrite binary64_finite; [done | lra | apply large_bound; lra].
Qed.

(** The percentage of a part of a whole lies between 0 and 100. *)
Lemma roundedPercent_bounds (part total : Q) :
  (0 <= part)%Q → (part <= total)%Q → (0 < total)%Q →
  ∃ z, roundedPercent part total = of_Z z ∧ (0 <= z <= 100)%Z.
Proof.
  intros Hp Hle Ht. rewrite roundedPercent_value by lra.
  eexists. split; [done|]. unfold binary64Percent.
  destruct (quotient_bounds part total 1 Hp Ht) as [Hq0 Hq1]; [lra|].
  pose proof (rounded_nonneg _ Hq0) as Hr0.
  pose proof (rounded_mono _ 1 Hq0 Hq1) as Hr1. rewrite rounded_1 in Hr1.
  set (r := rounded (part / total)) in *.
  assert (Hs0 : (0 <= r * 100)%Q) by lra.
  assert (Hs1 : (r * 100 <= 100)%Q) by lra.
  pose proof (rounded_nonneg _ Hs0) as Ht0.
  pose proof (rounded_mono _ 100 Hs0 Hs1) as Ht1. rewrite rounded_100 in Ht1.
  pose proof (round_Q_mono (inject_Z 0) (rounded (r * 100))) as H0.
  pose proof (round_Q_mono (rounded (r * 100)) (inject_Z 100)) as H100.
  rewrite round_Q_Z in H0, H100.
  change (inject_Z 0) with 0%Q in H0. change (inject_Z 100) with 100%Q in H100.
  split; [apply H0 | apply H100]; lra.
Qed.

(** A larger part of the same whole has no smaller percentage. *)
Lemma roundedPercent_mono (part part' total : Q) (z z' : Z) :
  (0 <= part)%Q → (part <= part')%Q → (part' <= 4 * total)%Q → (0 < total)%Q →
  roundedPercent part total = of_Z z → roundedPercent part' total = of_Z z' →
  (z <= z')%Z.
Proof.
  intros Hp Hle Hk Ht. rewrite !roundedPercent_value by lra.
  intros [= <-] [= <-]. unfold binary64Percent.
  destruct (quotient_bounds part total 4 Hp Ht) as [Hq0 _]; [lra|].
  assert (Hq : (part / total <= part' / total)%Q).
  { apply Qmult_le_compat_r; [done|]. apply Qlt_le_weak, Qinv_lt_0_compat, Ht. }
  pose proof (rounded_nonneg _ Hq0) as Hr0.
  pose proof (rounded_mono _ _ Hq0 Hq) as Hr.
  apply round_Q_mono, rounded_mono; lra.
Qed.

(** All of the whole is 100 percent, none of it 0 percent. *)
Lemma roundedPercent_all (part total : Q) :
  (0 < total)%Q → (part == total)%Q → roundedPercent part total = of_Z 100.
Proof.
  intros Ht Hp. rewrite roundedPercent_value by lra. unfold binary64Percent.
  assert (H1 : (part / total == 1)%Q) by (rewrite Hp; field; lra).
  rewrite (rounded_proper _ 1 H1), rounded_1.
  by rewrite (rounded_proper (1 * 100) 100) by reflexivity.
Qed.

Lemma roundedPercent_none (part total : Q) :
  (0 < total)%Q → (part == 0)%Q → roundedPercent part total = of_Z 0.
Proof.
  intros Ht Hp. rewrite roundedPercent_value by lra. unfold binary64Percent.
  assert (H0 : (part / total == 0)%Q) by (rewrite Hp; field; lra).
  rewrite (rounded_0 _ H0).
  by rewrite (rounded_0 (0 * 100)) by reflexivity.
Qed.

(** The rounding errors of the quotient and of the product together
    stay below [slack]. *)
Lemma roundedPercent_error (part total : Q) :
  (0 <= part)%Q → (0 < total)%Q → (part <= 4 * total)%Q →
  (100 * part / total - slack <= rounded (rounded (part / total) * 100))%Q
  ∧ (rounded (rounded (part / total) * 100) <= 100 * part / total + slack)%Q.
Proof.
  intros Hp Ht Hk.
  destruct (quotient_bounds part total 4 Hp Ht Hk) as [Hq0 Hq4].
  assert (Hpq : (100 * part / total == part / total * 100)%Q) by (field; lra).
  rewrite Hpq. clear Hpq.
  set (q := (part / total)%Q) in *.
  destruct (rounded_error q 3) as [He1 He2]; [done | change (2 ^ 3)%Q with 8%Q; lra | lia |].
  pose proof (rounded_nonneg _ Hq0) as Hr0.
  pose proof (rounded_mono _ 4 Hq0 Hq4) as Hr4. rewrite rounded_4 in Hr4.
  set (r := rounded q) in *.
  destruct (rounded_error (r * 100) 9) as [Hf1 Hf2];
    [lra | change (2 ^ 9)%Q with 512%Q; lra | lia |].
  change (2 ^ (3 - 54))%Q with (1 # 2251799813685248)%Q in He1, He2.
  change (2 ^ (9 - 54))%Q with (1 # 35184372088832)%Q in Hf1, Hf2.
  unfold slack. split; lra.
Qed.

Lemma roundedPercent_near (part total : Q) :
  (0 <= part)%Q → (0 < total)%Q → (part <= 4 * total)%Q →
  nearlyRounded (binary64Percent part total) (100 * part / total).
Proof.
  intros Hp Ht Hk.
  destruct (roundedPercent_error part total Hp Ht Hk) as [H1 H2].
  split; by apply round_Q_mono.
Qed.

Lemma binary64Percent_proper (part part' total total' : Q) :
  (part == part')%Q → (total == total')%Q →
  binary64Percent part total = binary64Percent part' total'.
Proof.
  intros Hp Ht. unfold binary64Percent. f_equal. apply rounded_proper.
  rewrite (rounded_proper (part / total) (part' / total')); [done|].
  by rewrite Hp, Ht.
Qed.


(** Away from the halves the nearest integer is the exact one. *)
Lemma nearlyRounded_exact (z k : Z) (p : Q) :
  nearlyRounded z p →
  (inject_Z k - (1 # 2) + slack <= p)%Q → (p < inject_Z k + (1 # 2) - slack)%Q →
  z = k.
Proof.
  intros [H1 H2] Hlo Hhi.
  assert (Hk1 : (k <= round_Q (p - slack))%Z).
  { unfold round_Q. rewrite <- (Qfloor_Z k) at 1. apply Qfloor_resp_le. lra. }
  assert (Hk2 : (round_Q (p + slack) < k + 1)%Z).
  { unfold round_Q. rewrite Zlt_Qlt. eapply Qle_lt_trans; [apply Qfloor_le|].
    rewrite inject_Z_plus. change (inject_Z 1) with 1%Q. lra. }
  lia.
Qed.





(** ** Sorting *)

Lemma filter_length_perm {A} (p : A → bool) (l l' : list A) :
  l ≡ₚ l' → length (List.filter p l) = length (List.filter p l').
Proof.
  induction 1 as [|x l l' _ IH|x y l|l l' l'' _ IH1 _ IH2]; simpl.
  - done.
  - destruct (p x); simpl; by rewrite IH.
  - destruct (p x), (p y); done.
  - by rewrite IH1.
Qed.

Section SortFacts.
Context {A : Type} (cmp : A → A → Q).

Lemma sort_insert_perm (x : A) (l : list A) : sort_insert cmp x l ≡ₚ x :: l.
Proof.
  induction l as [|y l IH]; simpl; [done|].
  destruct (Qle_bool (cmp x y) 0); [done|].
  rewrite IH. apply perm_swap.
Qed.

Lemma Array_sort_perm (l : list A) : Array_sort cmp l ≡ₚ l.
Proof.
  induction l as [|x l IH]; simpl; [done|].
  by rewrite sort_insert_perm, IH.
Qed.

Lemma Array_sort_length (l : list A) : length (Array_sort cmp l) = length l.
Proof. by rewrite Array_sort_perm. Qed.

(** Stability: elements that the comparator does not separate keep
    their order. *)
Section Stable.
Variable p : A → bool.
Hypothesis p_tied : ∀ a b, p a = true → p b = true → (cmp a b <= 0)%Q.

Lemma sort_insert_filter (x : A) (l : list A) :
  List.filter p (sort_insert cmp x l) = List.filter p (x :: l).
Proof.
  induction l as [|y l IH]; [done|].
  cbn [sort_insert]. destruct (Qle_bool (cmp x y) 0) eqn:E; [done|].
  apply Qle_bool_gt in E.
  cbn [List.filter] in *. rewrite IH.
  destruct (p x) eqn:Ex, (p y) eqn:Ey; try done.
  specialize (p_tied x y Ex Ey). lra.
Qed.

Lemma Array_sort_filter (l : list A) :
  List.filter p (Array_sort cmp l) = List.filter p l.
Proof.
  induction l as [|x l IH]; [done|].
  cbn [Array_sort foldr]. rewrite sort_insert_filter.
  cbn [List.filter]. fold (Array_sort cmp l). by rewrite IH.
Qed.
End Stable.

(** Order: for a comparator that is a total preorder the result is
    sorted. *)
Section Sorted.
Hypothesis cmp_total : ∀ a b, (0 < cmp a b)%Q → (cmp b a <= 0)%Q.
Hypothesis cmp_trans :
  ∀ a b c, (cmp a b <= 0)%Q → (cmp b c <= 0)%Q → (cmp a c <= 0)%Q.

Lemma sort_insert_sorted (x : A) (l : list A) :
  StronglySorted (λ a b, (cmp a b <= 0)%Q) l →
  StronglySorted (λ a b, (cmp a b <= 0)%Q) (sort_insert cmp x l).
Proof.
  induction 1 as [|y l Hl IH Hy]; cbn [sort_insert].
  - repeat constructor.
  - destruct (Qle_bool (cmp x y) 0) eqn:E.
    + apply Qle_bool_iff in E.
      constructor; [by constructor|].
      constructor; [done|].
      eapply Forall_impl; [exact Hy|]. intros z Hz. by eapply cmp_trans.
    + apply Qle_bool_gt in E.
      constructor; [done|].
      rewrite sort_insert_perm. constructor; [by apply cmp_total | done].
Qed.

Lemma Array_sort_sorted (l : list A) :
  StronglySorted (λ a b, (cmp a b <= 0)%Q) (Array_sort cmp l).
Proof.
  induction l as [|x l IH]; [constructor|].
  by apply sort_insert_sorted.
Qed.
End Sorted.
End SortFacts.

(** Descending order by a key, the comparator [(a, b) => key(b) - key(a)]. *)
Lemma Array_sort_desc {A} (key : A → Q) (l : list A) :
  StronglySorted (λ a b, (key b <= key a)%Q) (Array_sort (λ a b, key b - key a)%Q l).
Proof.
  assert (Hs : StronglySorted (λ a b, (key b - key a <= 0)%Q)
                 (Array_sort (λ a b, key b - key a)%Q l)).
  { apply (Array_sort_sorted (λ a b, key b - key a)%Q).
    - intros a b Hab. lra.
    - intros a b c Hab Hbc. lra. }
  induction Hs as [|x l' _ IH Hx]; constructor; [done|].
  eapply Forall_impl; [exact Hx|]. intros y Hy. simpl in Hy. lra.
Qed.

Lemma Array_sort_desc_stable {A} (key : A → Q) (s : Q) (l : list A) :
  List.filter (λ a, Qeq_bool (key a) s) (Array_sort (λ a b, key b - key a)%Q l)
  = List.filter (λ a, Qeq_bool (key a) s) l.
Proof.
  apply Array_sort_filter. intros a b Ha Hb.
  apply Qeq_bool_iff in Ha. apply Qeq_bool_iff in Hb. lra.
Qed.

(** ** formulas.ts *)








(** C1: on an empty population [calculatePercentile] divides zero by
    zero; its result is [NaN] whatever the value, and not the number 0
    that the specification asks for. *)
Theorem calculatePercentile_empty (value : Q) :
  calculatePercentile value [] = NaN ∧ calculatePercentile value [] ≠ Fin 0%Q.
Proof. split; [reflexivity | discriminate]. Qed.




(** C5: [getTierFromPercentile] answers "High" exactly from 70 up,
    "Medium" exactly from 40 up to but excluding 70, "Low" exactly below
    40, and nothing else for any number; 70 and 40 belong to the upper
    tier. *)
Theorem getTierFromPercentile_spec :
  (∀ p : number,
     getTierFromPercentile p = "High" ∨ getTierFromPercentile p = "Medium"
     ∨ getTierFromPercentile p = "Low")
  ∧ (∀ q : Q,
       (getTierFromPercentile (Fin q) = "High" ↔ (70 <= q)%Q)
       ∧ (getTierFromPercentile (Fin q) = "Medium" ↔ (40 <= q)%Q ∧ (q < 70)%Q)
       ∧ (getTierFromPercentile (Fin q) = "Low" ↔ (q < 40)%Q))
  ∧ getTierFromPercentile (Fin 70%Q) = "High"
  ∧ getTierFromPercentile (Fin 69%Q) = "Medium"
  ∧ getTierFromPercentile (Fin 40%Q) = "Medium"
  ∧ getTierFromPercentile (Fin 39%Q) = "Low".
Proof.
  split; [|split; [|by repeat split]].
  - intros p. unfold getTierFromPercentile.
    destruct (Num.geb p (Fin 70)); [by left|].
    destruct (Num.geb p (Fin 40)); [right; by left | right; by right].
  - intros q. unfold getTierFromPercentile, Num.geb, Num.leb, Num.compare.
    destruct (Qcompare_spec 70 q) as [H70|H70|H70];
      destruct (Qcompare_spec 40 q) as [H40|H40|H40];
      repeat split; intros; try discriminate; try lra; try done.
Qed.

Lemma filter_length_le {A} (p q : A → bool) (l : list A) :
  (∀ x, p x = true → q x = true) →
  (length (List.filter p l) <= length (List.filter q l))%nat.
Proof.
  intros Hpq. induction l as [|x l IH]; simpl; [done|].
  destruct (p x) eqn:Hp.
  - rewrite (Hpq x Hp). simpl. lia.
  - destruct (q x); simpl; lia.
Qed.

Lemma filter_length_bound {A} (p : A → bool) (l : list A) :
  (length (List.filter p l) <= length l)%nat.
Proof.
  induction l as [|x l IH]; simpl; [done|]. destruct (p x); simpl; lia.
Qed.

Lemma length_positive {A} (l : list A) :
  l ≠ [] → (0 < inject_Z (Z.of_nat (length l)))%Q.
Proof.
  intros Hne. change 0%Q with (inject_Z 0). rewrite <- Zlt_Qlt.
  destruct l; [done|]. simpl. lia.
Qed.

Lemma calculatePercentile_count (value : Q) (allValues : list Q) :
  calculatePercentile value allValues
  = roundedPercent
      (inject_Z (Z.of_nat (length (List.filter (λ v, Qltb v value) allValues))))
      (inject_Z (Z.of_nat (length allValues))).
Proof.
  unfold calculatePercentile.
  rewrite (filter_length_perm _ _ allValues) by apply Array_sort_perm.
  by rewrite Array_sort_length.
Qed.

(** The count of the lower members, as a part of the size. *)
Lemma lower_count_bounds (value : Q) (allValues : list Q) :
  let lower := inject_Z (Z.of_nat (length (List.filter (λ v, Qltb v value) allValues))) in
  (0 <= lower)%Q ∧ (lower <= inject_Z (Z.of_nat (length allValues)))%Q.
Proof.
  intros lower. subst lower.
  pose proof (filter_length_bound (λ v, Qltb v value) allValues) as Hle. split.
  - change 0%Q with (inject_Z 0). rewrite <- Zle_Qle. lia.
  - rewrite <- Zle_Qle. lia.
Qed.

Lemma filter_all {A} (p : A → bool) (l : list A) :
  Forall (λ x, p x = true) l → List.filter p l = l.
Proof.
  induction 1 as [|x l Hx _ IH]; simpl; [done|]. by rewrite Hx, IH.
Qed.

Lemma filter_none {A} (p : A → bool) (l : list A) :
  Forall (λ x, p x = false) l → List.filter p l = [].
Proof.
  induction 1 as [|x l Hx _ IH]; simpl; [done|]. by rewrite Hx.
Qed.

(** C6, as amended: on a non-empty population [calculatePercentile] is
    the integer that [Math.round] makes of the binary64 product of the
    binary64 quotient [lower / size] and 100, where [lower] counts the
    members strictly below the value: it is [round(100 * lower / size)]
    unless that percentage is within [slack] of a half, where it may be
    the integer next to it.  Members equal to the value do not count:
    the result is 100 when the value exceeds every member and 0 when no
    member is below it. *)
Theorem calculatePercentile_spec (value : Q) (allValues : list Q) :
  allValues ≠ [] →
  let lower := inject_Z (Z.of_nat (length (List.filter (λ v, Qltb v value) allValues))) in
  let size := inject_Z (Z.of_nat (length allValues)) in
  let p := (100 * lower / size)%Q in
  calculatePercentile value allValues = of_Z (binary64Percent lower size)
  ∧ nearlyRounded (binary64Percent lower size) p
  ∧ (∀ k : Z,
       (inject_Z k - (1 # 2) + slack <= p)%Q → (p < inject_Z k + (1 # 2) - slack)%Q →
       calculatePercentile value allValues = of_Z k)
  ∧ (Forall (λ v, (v < value)%Q) allValues →
     calculatePercentile value allValues = of_Z 100)
  ∧ (Forall (λ v, (value <= v)%Q) allValues →
     calculatePercentile value allValues = of_Z 0).
Proof.
  intros Hne lower size p.
  pose proof (length_positive allValues Hne) as Hlen. fold size in Hlen.
  destruct (lower_count_bounds value allValues) as [Hl0 Hl1].
  fold lower size in Hl0, Hl1.
  rewrite calculatePercentile_count. fold lower size.
  assert (Hz : roundedPercent lower size = of_Z (binary64Percent lower size))
    by (apply roundedPercent_value; lra).
  assert (Hnear : nearlyRounded (binary64Percent lower size) p)
    by (apply roundedPercent_near; lra).
  split_and!.
  - exact Hz.
  - exact Hnear.
  - intros k Hlo Hhi. by rewrite Hz, (nearlyRounded_exact _ k p Hnear Hlo Hhi).
  - intros Hall. apply roundedPercent_all; [done|]. subst lower size.
    rewrite filter_all; [done|].
    eapply Forall_impl; [exact Hall|]. intros v Hv. by apply Qltb_lt.
  - intros Hall. apply roundedPercent_none; [done|]. subst lower.
    rewrite filter_none; [done|].
    eapply Forall_impl; [exact Hall|]. intros v Hv. by apply Qltb_ge.
Qed.

(** A population of four with a tie at the value: one member is lower,
    exactly 25 percent. *)
Lemma calculatePercentile_spec_witness :
  calculatePercentile 5%Q [1%Q; 5%Q; 7%Q; 5%Q] = of_Z 25
  ∧ calculatePercentile 9%Q [1%Q; 5%Q; 7%Q; 5%Q] = of_Z 100
  ∧ calculatePercentile 1%Q [1%Q; 5%Q; 7%Q; 5%Q] = of_Z 0.
Proof.
  split; [|split].
  - apply (calculatePercentile_spec 5%Q [1%Q; 5%Q; 7%Q; 5%Q]); [discriminate | |];
      vm_compute; [discriminate | reflexivity].
  - apply (calculatePercentile_spec 9%Q [1%Q; 5%Q; 7%Q; 5%Q]); [discriminate|].
    repeat constructor.
  - apply (calculatePercentile_spec 1%Q [1%Q; 5%Q; 7%Q; 5%Q]); [discriminate|].
    repeat constructor; discriminate.
Defined.

(** C6 as stated fails where the percentage is a half: of the integers
    from 0 to 39, twenty-three are below 23, which is 57.5 percent and
    rounds to 58; the binary64 quotient 0.575 times 100 is
    57.49999999999999, and the code returns 57. *)
Lemma calculatePercentile_counterexample :
  let lower := length (List.filter (λ v, Qltb v 23%Q) fortyValues) in
  let size := length fortyValues in
  lower = 23%nat
  ∧ size = 40%nat
  ∧ round_Q (100 * inject_Z (Z.of_nat lower) / inject_Z (Z.of_nat size)) = 58%Z
  ∧ calculatePercentile 23%Q fortyValues = of_Z 57
  ∧ calculatePercentile 23%Q fortyValues
    ≠ of_Z (round_Q (100 * inject_Z (Z.of_nat lower) / inject_Z (Z.of_nat size))).
Proof.
  split_and!; vm_compute; try reflexivity. discriminate.
Qed.

(** ** Arrays *)

Lemma findIndex_from_absent {A} (p : A → bool) (l : list A) (i : Z) :
  Forall (λ x, p x = false) l → findIndex_from p l i = (-1)%Z.
Proof.
  intros Hl. revert i. induction Hl as [|x l Hx _ IH]; intros i; simpl; [done|].
  by rewrite Hx.
Qed.

Lemma findIndex_absent {A} (p : A → bool) (l : list A) :
  Forall (λ x, p x = false) l → findIndex p l = (-1)%Z.
Proof. apply findIndex_from_absent. Qed.

(** ** Positions *)

Section Positions.
Context {lf : LogoFormat}.

Lemma getBrandName_Some (a : Analytics) (n : string) :
  brand_name a = Some n → getBrandName (Some a) = n.
Proof.
  intros Hn. unfold getBrandName. simpl. rewrite Hn. simpl.
  destruct (String.eqb_spec n ""); congruence.
Qed.

Lemma getBrandInfoWithLogos_length (a : Analytics) :
  length (getBrandInfoWithLogos (Some a)) = length (default [] (brands a)).
Proof.
  unfold getBrandInfoWithLogos. simpl.
  destruct (brands a); simpl; [by rewrite length_map | done].
Qed.

Lemma getBrandInfoWithLogos_absent (a : Analytics) (n : string) :
  Forall (λ b, Raw.brand b ≠ n) (default [] (brands a)) →
  Forall (λ b, String.eqb (brand b) n = false) (getBrandInfoWithLogos (Some a)).
Proof.
  intros Hbs. unfold getBrandInfoWithLogos. simpl.
  destruct (brands a) as [bs|]; simpl in *; [|constructor].
  apply Forall_fmap. eapply Forall_impl; [exact Hbs|].
  intros b Hb. simpl. by apply String.eqb_neq.
Qed.

Lemma Forall_Array_sort {A} (P : A → Prop) (cmp : A → A → Q) (l : list A) :
  Forall P l → Forall P (Array_sort cmp l).
Proof. by rewrite Array_sort_perm. Qed.

(** C2: when no brand carries the subject's name, [getMentionsPosition]
    and the rank-derived revision of [getAIVisibilityMetrics] answer the
    number of brands, as the claim has it: 1 for the single brand "A" and
    the absent name "Z".  The t1/t2/t3 revision of
    [getAIVisibilityMetrics] misses that fallback: its
    [findIndex(...) + 1] is 0, which [|| 0] leaves at 0, and that is not
    the number of brands unless there is none. *)
Theorem brandPosition_absent (a : Analytics) :
  Forall (λ b, Raw.brand b ≠ getBrandName (Some a)) (default [] (brands a)) →
  position (getMentionsPosition (Some a)) = Z.of_nat (length (default [] (brands a)))
  ∧ brandPosition (V2.getAIVisibilityMetrics (Some a))
    = Z.of_nat (length (default [] (brands a)))
  ∧ brandPosition (V1.getAIVisibilityMetrics (Some a)) = 0%Z
  ∧ (default [] (brands a) ≠ [] →
     brandPosition (V1.getAIVisibilityMetrics (Some a))
     ≠ Z.of_nat (length (default [] (brands a)))).
Proof.
  intros Habs.
  pose proof (getBrandInfoWithLogos_absent a _ Habs) as Hinfo.
  assert (Hold : brandPosition (V1.getAIVisibilityMetrics (Some a)) = 0%Z).
  { unfold V1.getAIVisibilityMetrics. cbn [brandPosition].
    rewrite findIndex_absent; [done|].
    apply Forall_Array_sort.
    destruct (brand_name a) as [n|] eqn:Hn.
    + rewrite (getBrandName_Some a n Hn) in Habs.
      eapply Forall_impl; [exact Habs|]. intros b Hb. by apply String.eqb_neq.
    + by apply Forall_true. }
  split_and!.
  - unfold getMentionsPosition. cbn [position].
    rewrite findIndex_absent by by apply Forall_Array_sort.
    simpl. by rewrite Array_sort_length, getBrandInfoWithLogos_length.
  - unfold V2.getAIVisibilityMetrics. cbn [brandPosition].
    rewrite findIndex_absent by by apply Forall_Array_sort.
    simpl. by rewrite getBrandInfoWithLogos_length.
  - exact Hold.
  - intros Hne. rewrite Hold. destruct (default [] (brands a)); [done|]. simpl. lia.
Qed.
End Positions.

(** The single brand "A" and the absent name "Z": the length is 1, the
    t1/t2/t3 revision answers 0. *)
Lemma brandPosition_absent_witness :
  position (getMentionsPosition (lf := plain_logo) (Some absentBrand)) = 1%Z
  ∧ brandPosition (V2.getAIVisibilityMetrics (lf := plain_logo) (Some absentBrand)) = 1%Z
  ∧ brandPosition (V1.getAIVisibilityMetrics (Some absentBrand)) = 0%Z
  ∧ brandPosition (V1.getAIVisibilityMetrics (Some absentBrand))
    ≠ Z.of_nat (length (default [] (brands absentBrand))).
Proof.
  destruct (brandPosition_absent (lf := plain_logo) absentBrand)
    as (Hm & Hv & Hold & Hne).
  - repeat constructor. discriminate.
  - split_and!; [exact Hm | exact Hv | exact Hold | apply Hne; discriminate].
Defined.

(** ** The response-rate table *)

Lemma filter_perm {A} (p : A → bool) (l l' : list A) :
  l ≡ₚ l' → List.filter p l ≡ₚ List.filter p l'.
Proof.
  induction 1 as [|x l l' _ IH|x y l|l l' l'' _ IH1 _ IH2]; simpl.
  - done.
  - destruct (p x); by rewrite IH.
  - destruct (p x), (p y); try done. apply perm_swap.
  - by rewrite IH1.
Qed.

Lemma filter_sorted {A} (R : relation A) (p : A → bool) (l : list A) :
  StronglySorted R l → StronglySorted R (List.filter p l).
Proof.
  induction 1 as [|x l _ IH Hx]; simpl; [constructor|].
  destruct (p x); [|done]. constructor; [done|].
  apply Forall_forall. intros y Hy.
  apply list_elem_of_In, filter_In in Hy as [Hy _].
  rewrite Forall_forall in Hx. by apply Hx, list_elem_of_In.
Qed.

Lemma find_first {A} (p : A → bool) (l : list A) (t : A) :
  List.find p l = Some t →
  ∃ l1 l2, l = (l1 ++ t :: l2)%list ∧ p t = true ∧ Forall (λ x, p x = false) l1.
Proof.
  induction l as [|x l IH]; simpl; [done|].
  destruct (p x) eqn:Hx.
  - intros [= ->]. by exists [], l.
  - intros Hf. destruct (IH Hf) as (l1 & l2 & -> & Ht & Hl1).
    exists (x :: l1), l2. split_and!; [done | done | by constructor].
Qed.

Lemma find_absent {A} (p : A → bool) (l : list A) :
  List.find p l = None → Forall (λ x, p x = false) l.
Proof.
  induction l as [|x l IH]; simpl; [constructor|].
  destruct (p x) eqn:Hx; [done|]. intros Hf. constructor; auto.
Qed.

Lemma filter_comm {A} (p q : A → bool) (l : list A) :
  List.filter p (List.filter q l) = List.filter q (List.filter p l).
Proof.
  induction l as [|x l IH]; simpl; [done|].
  destruct (p x) eqn:Hp, (q x) eqn:Hq; simpl; rewrite ?Hp, ?Hq, IH; done.
Qed.

(** Competitors of the same rate keep the order of the rows. *)
Lemma selection_order (rows : list RateRow) (s : Q) :
  let competitors :=
    List.filter (λ b, negb (isTestBrand b))
                (Array_sort (λ a b, responseRate b - responseRate a)%Q rows) in
  List.filter (λ r, Qeq_bool (responseRate r) s) (take 2 competitors ++ drop 2 competitors)
  = List.filter (λ r, Qeq_bool (responseRate r) s)
                (List.filter (λ b, negb (isTestBrand b)) rows).
Proof.
  intros competitors. subst competitors. rewrite take_drop.
  rewrite !(filter_comm (λ r, Qeq_bool (responseRate r) s)).
  by rewrite (Array_sort_desc_stable responseRate s rows).
Qed.

Lemma selection_of_sorted (rows sorted : list RateRow) :
  sorted ≡ₚ rows → rateDescending sorted →
  selection rows
    (take 2 (List.filter (λ b, negb (isTestBrand b)) sorted))
    (option_list (List.find (λ b, isTestBrand b) sorted))
    (drop 2 (List.filter (λ b, negb (isTestBrand b)) sorted)).
Proof.
  intros Hperm Hsorted.
  set (competitors := List.filter (λ b, negb (isTestBrand b)) sorted).
  assert (Hcomp : rateDescending competitors) by by apply filter_sorted.
  split_and!.
  - rewrite take_drop. symmetry. by apply filter_perm.
  - rewrite length_take. f_equal. subst competitors.
    apply Permutation_length. by apply filter_perm.
  - intros t r Ht Hr. unfold rateDescending in Hcomp.
    rewrite <- (take_drop 2 competitors) in Hcomp.
    by apply (StronglySorted_app_1_elem_of _ _ _ t r) in Hcomp.
  - destruct (List.find _ sorted) as [t|] eqn:Hfind; simpl.
    + apply find_first in Hfind as (l1 & l2 & Hsplit & Ht & Hl1).
      split_and!.
      * rewrite <- Hperm, Hsplit. set_solver.
      * done.
      * intros r Hr Htest. rewrite <- Hperm, Hsplit in Hr.
        apply elem_of_app in Hr as [Hr|Hr].
        { rewrite Forall_forall in Hl1. specialize (Hl1 r Hr). congruence. }
        apply elem_of_cons in Hr as [->|Hr]; [lra|].
        unfold rateDescending in Hsorted. rewrite Hsplit in Hsorted.
        apply StronglySorted_app_1_r in Hsorted.
        apply StronglySorted_inv in Hsorted as [_ Hl2].
        rewrite Forall_forall in Hl2. by apply Hl2.
    + apply find_absent in Hfind. by rewrite <- Hperm.
Qed.

Section ResponseRates.
Context {lf : LogoFormat}.

(** C3, as amended: both revisions of [getBrandMentionResponseRates]
    return the two best-rated competitors and, when present, the
    subject brand, which is left out of that selection; among
    competitors of the same rate the earlier ones of the payload are
    taken.  The first revision takes [mention_score] as the rate,
    uncapped, and returns the rows in descending order of it.  The
    second revision takes [mention_score] capped at 100 as the rate,
    also for the selection, and returns the two competitors in
    descending order followed by the subject brand.  So with the subject
    at 50 and competitors at 100, 150 and 200 the first revision returns
    the competitors at 200 and 150, the second those at 100 and 150, both
    shown as 100. *)
Theorem getBrandMentionResponseRates_spec (analytics : option Analytics) :
  let brandName := getBrandName analytics in
  let info := getBrandInfoWithLogos analytics in
  let row (rate : BrandInfo → Q) (b : BrandInfo) :=
    {| rr_brand := brand b; responseRate := rate b; rr_logo := logo b;
       isTestBrand := String.eqb (brand b) brandName |} in
  let inOrder (rows top rest : list RateRow) :=
    ∀ s : Q,
      List.filter (λ r, Qeq_bool (responseRate r) s) (top ++ rest)
      = List.filter (λ r, Qeq_bool (responseRate r) s)
                    (List.filter (λ b, negb (isTestBrand b)) rows) in
  (∃ top subject rest,
     selection (map (row mention_score) info) top subject rest
     ∧ inOrder (map (row mention_score) info) top rest
     ∧ V1.getBrandMentionResponseRates analytics ≡ₚ (top ++ subject)%list
     ∧ rateDescending (V1.getBrandMentionResponseRates analytics))
  ∧ (∃ top subject rest,
       selection (map (row (λ b, Qmin_js (mention_score b) 100%Q)) info)
                 top subject rest
       ∧ inOrder (map (row (λ b, Qmin_js (mention_score b) 100%Q)) info) top rest
       ∧ V2.getBrandMentionResponseRates analytics = (top ++ subject)%list
       ∧ rateDescending top
       ∧ Forall (λ r, (responseRate r <= 100)%Q)
                (V2.getBrandMentionResponseRates analytics))
  ∧ (λ r, (rr_brand r, responseRate r)) <$> V1.getBrandMentionResponseRates (Some cappedBrands)
    = [("Gamma", 200%Q); ("Beta", 150%Q); ("Sigma", 50%Q)]
  ∧ (λ r, (rr_brand r, responseRate r)) <$> V2.getBrandMentionResponseRates (Some cappedBrands)
    = [("Acme", 100%Q); ("Beta", 100%Q); ("Sigma", 50%Q)].
Proof.
  intros brandName info row inOrder. split_and!.
  - set (rows := map (row mention_score) info).
    set (sorted := Array_sort (λ a b, responseRate b - responseRate a)%Q rows).
    pose proof (selection_of_sorted rows sorted
                  (Array_sort_perm _ rows) (Array_sort_desc responseRate rows)) as Hsel.
    eexists _, _, _. split; [exact Hsel|].
    split; [intros s; apply selection_order|].
    assert (Heq : V1.getBrandMentionResponseRates analytics
                  = Array_sort (λ a b, responseRate b - responseRate a)%Q
                      (take 2 (List.filter (λ b, negb (isTestBrand b)) sorted)
                       ++ option_list (List.find (λ b, isTestBrand b) sorted))).
    { unfold V1.getBrandMentionResponseRates. fold brandName info.
      change (map _ info) with rows. fold sorted.
      destruct (List.find _ sorted); simpl; [done|]. by rewrite app_nil_r. }
    rewrite Heq. split; [apply Array_sort_perm | apply Array_sort_desc].
  - set (rows := map (row (λ b, Qmin_js (mention_score b) 100%Q)) info).
    set (sorted := Array_sort (λ a b, responseRate b - responseRate a)%Q rows).
    pose proof (Array_sort_desc responseRate rows) as Hsorted. fold sorted in Hsorted.
    pose proof (selection_of_sorted rows sorted
                  (Array_sort_perm _ rows) Hsorted) as Hsel.
    eexists _, _, _. split; [exact Hsel|].
    split; [intros s; apply selection_order|].
    assert (Heq : V2.getBrandMentionResponseRates analytics
                  = (take 2 (List.filter (λ b, negb (isTestBrand b)) sorted)
                     ++ option_list (List.find (λ b, isTestBrand b) sorted))%list).
    { unfold V2.getBrandMentionResponseRates. fold brandName info.
      change (map _ info) with rows. fold sorted.
      destruct (List.find _ sorted); simpl; [done|]. by rewrite app_nil_r. }
    split; [exact Heq|]. split.
    + apply (filter_sorted _ (λ b, negb (isTestBrand b))) in Hsorted.
      rewrite <- (take_drop 2 (List.filter _ sorted)) in Hsorted.
      by apply StronglySorted_app_1_l in Hsorted.
    + assert (Hcap : Forall (λ r, (responseRate r <= 100)%Q) sorted).
      { apply Forall_Array_sort. subst rows. apply Forall_fmap, Forall_true.
        intros b. simpl. unfold Qmin_js.
        destruct (Qle_bool (mention_score b) 100) eqn:E.
        - by apply Qle_bool_iff.
        - lra. }
      rewrite Heq. apply Forall_app. split.
      * apply Forall_forall. intros r Hr.
        apply elem_of_take in Hr as (i & Hr & _).
        apply list_elem_of_lookup_2, list_elem_of_In, filter_In in Hr as [Hr _].
        rewrite Forall_forall in Hcap. by apply Hcap, list_elem_of_In.
      * destruct (List.find _ sorted) as [t|] eqn:Hfind; simpl; [|constructor].
        apply find_some in Hfind as [Ht _].
        rewrite Forall_forall in Hcap. repeat constructor.
        by apply Hcap, list_elem_of_In.
  - vm_compute. reflexivity.
  - vm_compute. reflexivity.
Qed.
End ResponseRates.

(** C3 as stated fails for each revision: the first does not cap the rate
    (a competitor with [mention_score] 150 keeps 150), the second does not
    sort the returned rows (a subject brand at 90 comes after competitors
    at 50 and 40). *)
Lemma getBrandMentionResponseRates_counterexample :
  ¬ Forall (λ r, (responseRate r <= 100)%Q)
      (V1.getBrandMentionResponseRates (lf := plain_logo) (Some overfullBrands))
  ∧ ¬ rateDescending
        (V2.getBrandMentionResponseRates (lf := plain_logo) (Some leadingSubject)).
Proof.
  split.
  - assert (Hrows :
      V1.getBrandMentionResponseRates (lf := plain_logo) (Some overfullBrands)
      = [ {| rr_brand := "Beta"; responseRate := 150%Q; rr_logo := "";
             isTestBrand := false |};
          {| rr_brand := "Acme"; responseRate := 60%Q; rr_logo := "";
             isTestBrand := true |} ]) by (vm_compute; reflexivity).
    rewrite Hrows. intros Hall. apply Forall_cons_1 in Hall as [Hbeta _].
    simpl in Hbeta. apply Qle_bool_iff in Hbeta. discriminate.
  - assert (Hrows :
      V2.getBrandMentionResponseRates (lf := plain_logo) (Some leadingSubject)
      = [ {| rr_brand := "Beta"; responseRate := 50%Q; rr_logo := "";
             isTestBrand := false |};
          {| rr_brand := "Gamma"; responseRate := 40%Q; rr_logo := "";
             isTestBrand := false |};
          {| rr_brand := "Acme"; responseRate := 90%Q; rr_logo := "";
             isTestBrand := true |} ]) by (vm_compute; reflexivity).
    rewrite Hrows. intros Hsorted.
    apply StronglySorted_inv in Hsorted as [_ Hbeta].
    apply Forall_cons_1 in Hbeta as [_ Hbeta].
    apply Forall_cons_1 in Hbeta as [Hacme _].
    simpl in Hacme. apply Qle_bool_iff in Hacme. discriminate.
Qed.

(** ** Top competitors *)

Lemma foldl_ext_all {A B} (f g : A → B → A) (l : list B) (a : A) :
  (∀ a b, f a b = g a b) → foldl f a l = foldl g a l.
Proof.
  intros Hfg. revert a. induction l as [|b l IH]; intros a; simpl; [done|].
  by rewrite Hfg, IH.
Qed.

Section Scan.
Context {X : Type} (sc : X → option Q) (mk : X → Top).
Hypothesis mk_score : ∀ x c, sc x = Some c → topScore (mk x) = c.

Lemma scan_first_max (l : list X) (init : Top) :
  (Forall (λ x, ∀ c, sc x = Some c → (c <= topScore init)%Q) l
   ∧ foldl (scan_step sc mk) init l = init)
  ∨ (∃ l1 x l2 c,
       l = (l1 ++ x :: l2)%list ∧ sc x = Some c ∧ (topScore init < c)%Q
       ∧ Forall (λ y, ∀ d, sc y = Some d → (d < c)%Q) l1
       ∧ Forall (λ y, ∀ d, sc y = Some d → (d <= c)%Q) l2
       ∧ foldl (scan_step sc mk) init l = mk x).
Proof.
  revert init. induction l as [|x l IH]; intros init.
  { left. by split. }
  cbn [foldl]. unfold scan_step at 2 4.
  destruct (sc x) as [c|] eqn:Hc.
  - assert (Hx : ∀ d, sc x = Some d → d = c) by (intros d Hd; congruence).
    destruct (Qltb (topScore init) c) eqn:Hlt.
    + apply Qltb_lt in Hlt. right.
      destruct (IH (mk x))
        as [[Hall Heq]|(l1 & y & l2 & d & -> & Hd & Hlt' & Hl1 & Hl2 & Heq)];
        rewrite ?(mk_score x c Hc) in *.
      * exists [], x, l, c. by split_and!.
      * exists (x :: l1), y, l2, d.
        split_and!; [done | done | lra | | done | done].
        constructor; [|done]. intros d' Hd'. by rewrite (Hx d' Hd').
    + apply Qltb_ge in Hlt.
      destruct (IH init)
        as [[Hall Heq]|(l1 & y & l2 & d & -> & Hd & Hlt' & Hl1 & Hl2 & Heq)].
      * left. split; [|done]. constructor; [|done].
        intros d' Hd'. by rewrite (Hx d' Hd').
      * right. exists (x :: l1), y, l2, d.
        split_and!; [done | done | done | | done | done].
        constructor; [|done]. intros d' Hd'. rewrite (Hx d' Hd'). lra.
  - destruct (IH init)
      as [[Hall Heq]|(l1 & y & l2 & d & -> & Hd & Hlt' & Hl1 & Hl2 & Heq)].
    + left. split; [|done]. constructor; [|done]. intros c' Hc'. congruence.
    + right. exists (x :: l1), y, l2, d.
      split_and!; [done | done | done | | done | done].
      constructor; [|done]. intros d' Hd'. congruence.
Qed.
End Scan.

(** C8: [getTopCompetitorForKeyword] and [getTopCompetitorForSource]
    return the empty record when no entry scores above 0, and otherwise
    the first entry that reaches the highest score: every entry before it
    scores strictly less, every entry after it scores at most as much. *)
Theorem getTopCompetitor_spec (brandInfo : list BrandInfo) (keywordId : string)
    (mentions : list (string * Mention)) :
  let sentinel := {| topBrand := ""; topScore := 0%Q; topLogo := "" |} in
  ((Forall (λ b, (keywordScore keywordId b <= 0)%Q) brandInfo
    ∧ getTopCompetitorForKeyword brandInfo keywordId = sentinel)
   ∨ (∃ l1 b l2,
        brandInfo = (l1 ++ b :: l2)%list
        ∧ (0 < keywordScore keywordId b)%Q
        ∧ Forall (λ y, (keywordScore keywordId y < keywordScore keywordId b)%Q) l1
        ∧ Forall (λ y, (keywordScore keywordId y <= keywordScore keywordId b)%Q) l2
        ∧ getTopCompetitorForKeyword brandInfo keywordId
          = {| topBrand := brand b; topScore := keywordScore keywordId b;
               topLogo := logo b |}))
  ∧ ((Forall (λ e, ∀ c, count e.2 = Some c → (c <= 0)%Q) mentions
      ∧ getTopCompetitorForSource brandInfo mentions = sentinel)
     ∨ (∃ l1 e l2 c,
          mentions = (l1 ++ e :: l2)%list
          ∧ count e.2 = Some c ∧ (0 < c)%Q
          ∧ Forall (λ y, ∀ d, count y.2 = Some d → (d < c)%Q) l1
          ∧ Forall (λ y, ∀ d, count y.2 = Some d → (d <= c)%Q) l2
          ∧ getTopCompetitorForSource brandInfo mentions
            = {| topBrand := e.1; topScore := c;
                 topLogo := str_or (getBrandLogo brandInfo e.1) "" |})).
Proof.
  intros sentinel. split.
  - set (sc := λ b : BrandInfo, Some (keywordScore keywordId b)).
    set (mk := λ b : BrandInfo,
           {| topBrand := brand b; topScore := keywordScore keywordId b;
              topLogo := logo b |}).
    assert (Hmk : ∀ x c, sc x = Some c → topScore (mk x) = c).
    { intros x c [= <-]. done. }
    change (getTopCompetitorForKeyword brandInfo keywordId)
      with (foldl (scan_step sc mk) sentinel brandInfo).
    destruct (scan_first_max sc mk Hmk brandInfo sentinel)
      as [[Hall Heq]|(l1 & b & l2 & c & Hsplit & Hc & Hlt & Hl1 & Hl2 & Heq)].
    + left. split; [|done]. eapply Forall_impl; [exact Hall|].
      intros b Hb. by apply Hb.
    + right. injection Hc as <-. exists l1, b, l2. split_and!; try done.
      * eapply Forall_impl; [exact Hl1|]. intros y Hy. by apply Hy.
      * eapply Forall_impl; [exact Hl2|]. intros y Hy. by apply Hy.
  - set (sc := λ e : string * Mention, count e.2).
    set (mk := λ e : string * Mention,
           {| topBrand := e.1; topScore := default 0%Q (count e.2);
              topLogo := str_or (getBrandLogo brandInfo e.1) "" |}).
    assert (Hmk : ∀ x c, sc x = Some c → topScore (mk x) = c).
    { intros x c Hx. unfold sc in Hx. simpl. by rewrite Hx. }
    assert (Hfold : getTopCompetitorForSource brandInfo mentions
                    = foldl (scan_step sc mk) sentinel mentions).
    { apply foldl_ext_all. intros top [b data]. unfold scan_step, sc, mk. simpl.
      by destruct (count data). }
    rewrite Hfold.
    destruct (scan_first_max sc mk Hmk mentions sentinel)
      as [[Hall Heq]|(l1 & e & l2 & c & Hsplit & Hc & Hlt & Hl1 & Hl2 & Heq)].
    + left. by split.
    + right. exists l1, e, l2, c. split_and!; try done.
      rewrite Heq. unfold mk. unfold sc in Hc. by rewrite Hc.
Qed.

(** ** The position breakdown *)








#[export] Instance nearlyRounded_proper (z : Z) : Proper (Qeq ==> iff) (nearlyRounded z).
Proof.
  intros p p' Hp. unfold nearlyRounded.
  assert (round_Q (p - slack) = round_Q (p' - slack)) as ->
    by (apply round_Q_proper; by rewrite Hp).
  assert (round_Q (p + slack) = round_Q (p' + slack)) as ->
    by (apply round_Q_proper; by rewrite Hp).
  done.
Qed.

Section Counting.
Import V2.






End Counting.

Section Breakdown.
Context {lf : LogoFormat}.

End Breakdown.





(** * Properties of the rest of the code *)

(** ** Colours *)

(** X1: the tier, the badge of that tier, the gauge colour and the gauge
    gradient of a percentile always agree: green from 70 up, amber from 40
    up, red otherwise ([NaN] included); a computed tier never gets the
    muted badge. *)
Theorem tier_colours_agree (p : number) :
  (getTierFromPercentile p = "High"
   ∧ getTierBadgeClasses (Some (getTierFromPercentile p)) = "bg-green-500 text-white"
   ∧ getGaugeColor p = "hsl(142, 71%, 45%)"
   ∧ getGaugeGradientId p = "gaugeGreen"
   ∧ Num.geb p (Fin 70%Q) = true)
  ∨ (getTierFromPercentile p = "Medium"
     ∧ getTierBadgeClasses (Some (getTierFromPercentile p)) = "bg-amber-500 text-white"
     ∧ getGaugeColor p = "hsl(45, 93%, 47%)"
     ∧ getGaugeGradientId p = "gaugeAmber"
     ∧ Num.geb p (Fin 70%Q) = false ∧ Num.geb p (Fin 40%Q) = true)
  ∨ (getTierFromPercentile p = "Low"
     ∧ getTierBadgeClasses (Some (getTierFromPercentile p)) = "bg-red-500 text-white"
     ∧ getGaugeColor p = "hsl(0, 84%, 60%)"
     ∧ getGaugeGradientId p = "gaugeRed"
     ∧ Num.geb p (Fin 40%Q) = false).
Proof.
  unfold getTierFromPercentile, getGaugeColor, getGaugeGradientId.
  destruct (Num.geb p (Fin 70)) eqn:E70.
  - left. by split_and!.
  - destruct (Num.geb p (Fin 40)) eqn:E40.
    + right. left. by split_and!.
    + right. right. by split_and!.
Qed.

(** ** Sorting and searching under a map *)

Lemma find_map {A B} (f : A → B) (p : B → bool) (l : list A) :
  List.find p (map f l) = f <$> List.find (λ a, p (f a)) l.
Proof.
  induction l as [|x l IH]; simpl; [done|]. by destruct (p (f x)).
Qed.

Lemma findIndex_from_map {A B} (f : A → B) (p : B → bool) (l : list A) (i : Z) :
  findIndex_from p (map f l) i = findIndex_from (λ a, p (f a)) l i.
Proof.
  revert i. induction l as [|x l IH]; intros i; simpl; [done|].
  by destruct (p (f x)).
Qed.

Lemma sort_insert_map {A B} (f : A → B) (cmp : B → B → Q) (x : A) (l : list A) :
  sort_insert cmp (f x) (map f l) = map f (sort_insert (λ a b, cmp (f a) (f b)) x l).
Proof.
  induction l as [|y l IH]; simpl; [done|].
  destruct (Qle_bool (cmp (f x) (f y)) 0); simpl; [done|]. by rewrite IH.
Qed.

Lemma Array_sort_map {A B} (f : A → B) (cmp : B → B → Q) (l : list A) :
  Array_sort cmp (map f l) = map f (Array_sort (λ a b, cmp (f a) (f b)) l).
Proof.
  induction l as [|x l IH]; [done|].
  cbn [map Array_sort foldr]. fold (Array_sort cmp (map f l)).
  fold (Array_sort (λ a b, cmp (f a) (f b)) l).
  by rewrite IH, sort_insert_map.
Qed.

Lemma findIndex_from_found {A} (p : A → bool) (l1 l2 : list A) (x : A) (i : Z) :
  Forall (λ y, p y = false) l1 → p x = true →
  findIndex_from p (l1 ++ x :: l2) i = (i + Z.of_nat (length l1))%Z.
Proof.
  intros Hl1 Hx. revert i.
  induction Hl1 as [|y l1 Hy _ IH]; intros i; simpl.
  - rewrite Hx. lia.
  - rewrite Hy, IH. lia.
Qed.

(** The first match of a list that has one. *)
Lemma first_match {A} (p : A → bool) (l : list A) (x : A) :
  x ∈ l → p x = true →
  ∃ l1 y l2, l = (l1 ++ y :: l2)%list ∧ p y = true ∧ Forall (λ z, p z = false) l1.
Proof.
  intros Hx Hp. destruct (List.find p l) as [y|] eqn:Hfind.
  - apply find_first in Hfind as (l1 & l2 & -> & Hy & Hl1). by exists l1, y, l2.
  - apply find_absent in Hfind. rewrite Forall_forall in Hfind.
    specialize (Hfind x Hx). congruence.
Qed.

Lemma NoDup_map_eq {A B} (f : A → B) (l : list A) (x y : A) :
  NoDup (map f l) → x ∈ l → y ∈ l → f x = f y → x = y.
Proof.
  induction l as [|z l IH]; simpl; intros Hnd Hx Hy Hf.
  { by apply elem_of_nil in Hx. }
  apply NoDup_cons in Hnd as [Hz Hnd].
  apply elem_of_cons in Hx as [->|Hx]; apply elem_of_cons in Hy as [->|Hy].
  - done.
  - exfalso. apply Hz. rewrite Hf. by apply (list_elem_of_fmap_2 f).
  - exfalso. apply Hz. rewrite <- Hf. by apply (list_elem_of_fmap_2 f).
  - by apply IH.
Qed.

(** Where an entry lands in the descending ranking: after every entry
    with a strictly higher key, and only after entries whose key is at
    least as high. *)
Lemma rank_bounds {A} (key : A → Q) (p : A → bool) (l : list A) (b : A) :
  b ∈ l → p b = true → (∀ x, x ∈ l → p x = true → x = b) →
  let idx := findIndex p (Array_sort (λ a c, key c - key a)%Q l) in
  (Z.of_nat (length (List.filter (λ c, Qltb (key b) (key c)) l)) <= idx)%Z
  ∧ (idx < Z.of_nat (length (List.filter (λ c, Qle_bool (key b) (key c)) l)))%Z.
Proof.
  intros Hb Hp Honly idx. subst idx.
  set (sorted := Array_sort (λ a c, key c - key a)%Q l).
  assert (Hperm : sorted ≡ₚ l) by apply Array_sort_perm.
  destruct (first_match p sorted b) as (l1 & y & l2 & Hsplit & Hy & Hl1);
    [by rewrite Hperm | done |].
  assert (y = b) as ->.
  { apply Honly; [|done]. rewrite <- Hperm, Hsplit. set_solver. }
  unfold findIndex. rewrite Hsplit, findIndex_from_found by done.
  pose proof (Array_sort_desc key l) as Hsorted. fold sorted in Hsorted.
  rewrite Hsplit in Hsorted.
  assert (Hbefore : Forall (λ c, (key b <= key c)%Q) l1).
  { apply Forall_forall. intros c Hc.
    apply (StronglySorted_app_1_elem_of _ l1 (b :: l2) c b) in Hsorted; set_solver. }
  assert (Hafter : Forall (λ c, (key c <= key b)%Q) l2).
  { apply StronglySorted_app_1_r in Hsorted.
    by apply StronglySorted_inv in Hsorted as [_ Hl2]. }
  rewrite <- !(filter_length_perm _ sorted l) by done.
  rewrite Hsplit, !List.filter_app. cbn [List.filter].
  rewrite !length_app.
  assert (Qltb (key b) (key b) = false) as -> by (apply Qltb_ge; lra).
  assert (Qle_bool (key b) (key b) = true) as -> by (apply Qle_bool_iff; lra).
  rewrite (filter_none (λ c, Qltb (key b) (key c)) l2),
    (filter_all (λ c, Qle_bool (key b) (key c)) l1); simpl.
  - pose proof (filter_length_bound (λ c, Qltb (key b) (key c)) l1). lia.
  - eapply Forall_impl; [exact Hbefore|]. intros c Hc. by apply Qle_bool_iff.
  - eapply Forall_impl; [exact Hafter|]. intros c Hc. by apply Qltb_ge.
Qed.

(** One match with no match before it: where the list is split is
    determined. *)
Lemma split_first_match {A} (p : A → bool) (l1 l2 l1' l2' : list A) (x x' : A) :
  (l1 ++ x :: l2 = l1' ++ x' :: l2')%list →
  Forall (λ y, p y = false) l1 → Forall (λ y, p y = false) l1' →
  p x = true → p x' = true → l1 = l1'.
Proof.
  intros Heq Hl1. revert l1' Heq.
  induction Hl1 as [|y l1 Hy _ IH]; intros l1' Heq Hl1' Hx Hx'.
  - destruct l1' as [|y' l1']; [done|]. simpl in Heq. injection Heq as <- _.
    apply Forall_cons_1 in Hl1' as [Hy' _]. congruence.
  - destruct l1' as [|y' l1']; simpl in Heq.
    + injection Heq as -> _. congruence.
    + injection Heq as <- Heq. apply Forall_cons_1 in Hl1' as [_ Hl1'].
      f_equal. by apply IH.
Qed.

Lemma Forall_filter {A} (P : A → Prop) (p : A → bool) (l : list A) :
  Forall P l → Forall P (List.filter p l).
Proof.
  induction 1 as [|x l Hx _ IH]; simpl; [constructor|].
  destruct (p x); [by constructor | done].
Qed.

(** Entries that are not lower than [b] are either higher or equal. *)
Lemma not_lower_count {A} (key : A → Q) (b : A) (l : list A) :
  Forall (λ c, (key b <= key c)%Q) l →
  length l = (length (List.filter (λ c, Qltb (key b) (key c)) l)
              + length (List.filter (λ c, Qeq_bool (key c) (key b)) l))%nat.
Proof.
  induction 1 as [|c l Hc _ IH]; simpl; [done|].
  destruct (Qltb (key b) (key c)) eqn:Hlt, (Qeq_bool (key c) (key b)) eqn:Heq; simpl.
  - apply Qltb_lt in Hlt. apply Qeq_bool_iff in Heq. lra.
  - lia.
  - lia.
  - apply Qltb_ge in Hlt. apply Qeq_bool_false in Heq. exfalso. apply Heq. lra.
Qed.

(** Where the only match lands in the descending ranking: after the
    entries with a strictly higher key, and after those entries of an
    equal key that come before it in the list. *)
Lemma rank_exact {A} (key : A → Q) (p : A → bool) (before after : list A) (b : A) :
  p b = true → Forall (λ x, p x = false) (before ++ after) →
  findIndex p (Array_sort (λ a c, key c - key a)%Q (before ++ b :: after))
  = Z.of_nat (length (List.filter (λ c, Qltb (key b) (key c)) (before ++ after))
              + length (List.filter (λ c, Qeq_bool (key c) (key b)) before)).
Proof.
  intros Hp Hothers. apply Forall_app in Hothers as [Hbefore Hafter].
  set (l := (before ++ b :: after)%list).
  set (sorted := Array_sort (λ a c, key c - key a)%Q l).
  assert (Hperm : sorted ≡ₚ l) by apply Array_sort_perm.
  destruct (first_match p sorted b) as (l1 & y & l2 & Hsplit & Hy & Hl1);
    [rewrite Hperm; subst l; set_solver | done |].
  assert (y = b) as ->.
  { assert (Hyl : y ∈ l) by (rewrite <- Hperm, Hsplit; set_solver).
    subst l. apply elem_of_app in Hyl as [Hyl|Hyl].
    - rewrite Forall_forall in Hbefore. specialize (Hbefore y Hyl). congruence.
    - apply elem_of_cons in Hyl as [->|Hyl]; [done|].
      rewrite Forall_forall in Hafter. specialize (Hafter y Hyl). congruence. }
  unfold findIndex. rewrite Hsplit, findIndex_from_found by done. f_equal.
  pose proof (Array_sort_desc key l) as Hsorted. fold sorted in Hsorted.
  rewrite Hsplit in Hsorted.
  assert (Hhigher : Forall (λ c, (key b <= key c)%Q) l1).
  { apply Forall_forall. intros c Hc.
    apply (StronglySorted_app_1_elem_of _ l1 (b :: l2) c b) in Hsorted; set_solver. }
  assert (Hlower : Forall (λ c, (key c <= key b)%Q) l2).
  { apply StronglySorted_app_1_r in Hsorted.
    by apply StronglySorted_inv in Hsorted as [_ Hl2]. }
  assert (Hself : Qltb (key b) (key b) = false) by (apply Qltb_ge; lra).
  assert (Hsame : Qeq_bool (key b) (key b) = true) by by apply Qeq_bool_iff.
  assert (Hgt : length (List.filter (λ c, Qltb (key b) (key c)) l1)
                = length (List.filter (λ c, Qltb (key b) (key c)) (before ++ after))).
  { pose proof (filter_length_perm (λ c, Qltb (key b) (key c)) sorted l Hperm) as Hlen.
    subst l. rewrite Hsplit, !List.filter_app in Hlen. cbn [List.filter] in Hlen.
    rewrite Hself, !length_app in Hlen.
    rewrite (filter_none (λ c, Qltb (key b) (key c)) l2) in Hlen.
    - rewrite List.filter_app, length_app. simpl in Hlen. lia.
    - eapply Forall_impl; [exact Hlower|]. intros c Hc. by apply Qltb_ge. }
  assert (Heq : List.filter (λ c, Qeq_bool (key c) (key b)) l1
                = List.filter (λ c, Qeq_bool (key c) (key b)) before).
  { pose proof (Array_sort_desc_stable key (key b) l) as Hstable.
    fold sorted in Hstable. subst l.
    rewrite Hsplit, !List.filter_app in Hstable. cbn [List.filter] in Hstable.
    rewrite Hsame in Hstable.
    apply (split_first_match p _ _ _ _ _ _ Hstable);
      [by apply Forall_filter | by apply Forall_filter | done | done]. }
  rewrite (not_lower_count key b l1 Hhigher), Hgt, Heq. done.
Qed.

Section CompetitorRanking.
Context {lf : LogoFormat}.

(** C7: the position of the subject brand is its place in a stable
    descending sort of the brands: one more than the number of brands
    with a strictly higher score plus the number of brands with the same
    score that the payload lists before it, by [mention_score] in
    [getMentionsPosition] and by [geo_score] in the rank-derived
    [getAIVisibilityMetrics].  The sort works on a copy: what the function
    reads from the brands afterwards, it reads in the order of the
    payload.  With Acme 80, Beta 50 and Gamma 50 the position of Gamma by
    [mention_score] is 3; with Acme 10, Beta 50 and a second Acme 90 the
    position of Acme is 1, that of the second entry, and [brandMentions]
    is 10, the score of the first. *)
Theorem competitorRanking_stable (analytics : option Analytics)
    (before after : list BrandInfo) (b : BrandInfo) :
  let ahead (key : BrandInfo → Q) :=
    Z.of_nat (length (List.filter (λ c, Qltb (key b) (key c)) (before ++ after))
              + length (List.filter (λ c, Qeq_bool (key c) (key b)) before)) in
  getBrandInfoWithLogos analytics = (before ++ b :: after)%list →
  brand b = getBrandName analytics →
  Forall (λ c, brand c ≠ brand b) (before ++ after) →
  position (getMentionsPosition analytics) = (1 + ahead mention_score)%Z
  ∧ brandPosition (V2.getAIVisibilityMetrics analytics) = (1 + ahead geo_score)%Z
  ∧ mp_totalBrands (getMentionsPosition analytics) = length (before ++ b :: after)
  ∧ (brandMentions (getMentionsPosition analytics) == mention_score b)%Q
  ∧ position (getMentionsPosition (Some tiedBrands)) = 3%Z
  ∧ position (getMentionsPosition (Some repeatedSubject)) = 1%Z
  ∧ brandMentions (getMentionsPosition (Some repeatedSubject)) = 10%Q.
Proof.
  intros ahead Hinfo Hname Hothers.
  set (p := λ c : BrandInfo, String.eqb (brand c) (getBrandName analytics)).
  assert (Hp : p b = true) by by apply String.eqb_eq.
  assert (Hnone : Forall (λ c, p c = false) (before ++ after)).
  { eapply Forall_impl; [exact Hothers|]. intros c Hc. apply String.eqb_neq. congruence. }
  pose proof (rank_exact mention_score p before after b Hp Hnone) as Hm.
  pose proof (rank_exact geo_score p before after b Hp Hnone) as Hg.
  unfold getMentionsPosition, V2.getAIVisibilityMetrics.
  cbn [position brandPosition mp_totalBrands brandMentions].
  rewrite Hinfo. fold p. rewrite Hm, Hg. subst ahead. cbn beta.
  split_and!.
  - destruct (0 <=? _)%Z eqn:E; [lia|]. apply Z.leb_gt in E. lia.
  - destruct (0 <=? _)%Z eqn:E; [lia|]. apply Z.leb_gt in E. lia.
  - done.
  - apply Forall_app in Hnone as [Hbefore _].
    assert (List.find p (before ++ b :: after) = Some b) as ->.
    { clear -Hbefore Hp. induction Hbefore as [|c l Hc _ IH]; simpl.
      - by rewrite Hp.
      - by rewrite Hc. }
    simpl. unfold or_else. destruct (Qeq_bool (mention_score b) 0) eqn:E; [|done].
    apply Qeq_bool_iff in E. by rewrite E.
  - vm_compute. reflexivity.
  - vm_compute. reflexivity.
  - vm_compute. reflexivity.
Qed.
End CompetitorRanking.

(** The three brands of the scenario: Acme is ahead of Gamma by its
    score, Beta by its place in the payload. *)
Lemma competitorRanking_stable_witness :
  position (getMentionsPosition (lf := plain_logo) (Some tiedBrands)) = (1 + 2)%Z
  ∧ brandPosition (V2.getAIVisibilityMetrics (lf := plain_logo) (Some tiedBrands))
    = (1 + 2)%Z.
Proof.
  destruct (competitorRanking_stable (lf := plain_logo) (Some tiedBrands)
              [ {| brand := "Acme"; geo_score := 0%Q; mention_score := 80%Q;
                   mention_count := 0%Q; logo := ""; geo_tier := "Low";
                   mention_tier := "Low"; summary := ""; outlook := "Neutral";
                   mention_breakdown := None |};
                {| brand := "Beta"; geo_score := 0%Q; mention_score := 50%Q;
                   mention_count := 0%Q; logo := ""; geo_tier := "Low";
                   mention_tier := "Low"; summary := ""; outlook := "Neutral";
                   mention_breakdown := None |} ]
              []
              {| brand := "Gamma"; geo_score := 0%Q; mention_score := 50%Q;
                 mention_count := 0%Q; logo := ""; geo_tier := "Low";
                 mention_tier := "Low"; summary := ""; outlook := "Neutral";
                 mention_breakdown := None |})
    as (Hm & Hg & _).
  - reflexivity.
  - reflexivity.
  - repeat constructor; discriminate.
  - split; [exact Hm | exact Hg].
Defined.

(** ** The subject brand's position *)

Section MorePositions.
Context {lf : LogoFormat}.

Lemma getBrandInfoWithLogos_brands (a : Analytics) :
  getBrandInfoWithLogos (Some a)
  = map (λ b : Raw.Brand,
           {| brand := Raw.brand b;
              geo_score := opt_or (Raw.geo_score b) 0%Q;
              mention_score := opt_or (Raw.mention_score b) 0%Q;
              mention_count := opt_or (Raw.mention_count b) 0%Q;
              logo := formatLogoUrl (str_or (Raw.logo b) "");
              geo_tier := str_or (Raw.geo_tier b) "Low";
              mention_tier := str_or (Raw.mention_tier b) "Low";
              summary := str_or (Raw.summary b) "";
              outlook := str_or (Raw.outlook b) "Neutral";
              mention_breakdown := Raw.mention_breakdown b |})
        (default [] (brands a)).
Proof. unfold getBrandInfoWithLogos. simpl. by destruct (brands a). Qed.

Lemma or_else_idemp (x : Q) : or_else (or_else x 0%Q) 0%Q = or_else x 0%Q.
Proof. unfold or_else. destruct (Qeq_bool x 0) eqn:E; [done|]. by rewrite E. Qed.

Lemma opt_or_idemp (o : option Q) : or_else (opt_or o 0%Q) 0%Q = opt_or o 0%Q.
Proof. destruct o; simpl; [apply or_else_idemp | done]. Qed.

Lemma str_or_idemp (o : option string) (d : string) :
  d ≠ "" → str_or (Some (str_or o d)) d = str_or o d.
Proof.
  intros Hd. unfold str_or. destruct o as [s|].
  - destruct (String.eqb_spec s ""); simpl.
    + by apply String.eqb_neq in Hd as ->.
    + by apply String.eqb_neq in n as ->.
  - by apply String.eqb_neq in Hd as ->.
Qed.

(** X2: when the payload names its subject brand, the two revisions of
    [getAIVisibilityMetrics] report the same score, tier and number of
    brands, and, when that brand is among the brands, the same position,
    which then lies between 1 and the number of brands. *)
Theorem getAIVisibilityMetrics_revisions_agree (a : Analytics) (n : string) :
  brand_name a = Some n →
  score (V1.getAIVisibilityMetrics (Some a)) = score (V2.getAIVisibilityMetrics (Some a))
  ∧ tier (V1.getAIVisibilityMetrics (Some a)) = tier (V2.getAIVisibilityMetrics (Some a))
  ∧ totalBrands (V1.getAIVisibilityMetrics (Some a))
    = totalBrands (V2.getAIVisibilityMetrics (Some a))
  ∧ ((∃ b, b ∈ default [] (brands a) ∧ Raw.brand b = n) →
     brandPosition (V1.getAIVisibilityMetrics (Some a))
     = brandPosition (V2.getAIVisibilityMetrics (Some a))
     ∧ (1 <= brandPosition (V2.getAIVisibilityMetrics (Some a))
        <= Z.of_nat (totalBrands (V2.getAIVisibilityMetrics (Some a))))%Z).
Proof.
  intros Hn.
  unfold V1.getAIVisibilityMetrics, V2.getAIVisibilityMetrics.
  cbn [score tier totalBrands brandPosition].
  rewrite (getBrandName_Some a n Hn), getBrandInfoWithLogos_brands, Hn.
  set (bs := default [] (brands a)).
  rewrite find_map. cbn [brand].
  split_and!.
  - destruct (List.find _ bs) as [b|]; simpl; [|done]. by rewrite opt_or_idemp.
  - destruct (List.find _ bs) as [b|]; simpl; [|done].
    symmetry. by apply (str_or_idemp (Raw.geo_tier b) "Low").
  - by rewrite length_map.
  - intros (b & Hb & Hname).
    rewrite Array_sort_map. unfold findIndex. rewrite findIndex_from_map.
    cbn [brand geo_score]. rewrite length_map.
    set (sorted := Array_sort _ bs).
    assert (Hperm : sorted ≡ₚ bs) by apply Array_sort_perm.
    destruct (first_match (λ r, String.eqb (Raw.brand r) n) sorted b)
      as (l1 & y & l2 & Hsplit & Hy & Hl1).
    { by rewrite Hperm. }
    { by apply String.eqb_eq. }
    assert (Hlen : length bs = length sorted) by by rewrite Hperm.
    rewrite Hlen.
    change (Array_sort _ bs) with sorted.
    rewrite Hsplit, !findIndex_from_found by done.
    rewrite length_app. simpl length.
    destruct (0 + Z.of_nat (length l1) + 1 =? 0)%Z eqn:E0; [lia|].
    destruct (0 <=? 0 + Z.of_nat (length l1))%Z eqn:E1; lia.
Qed.
End MorePositions.

(** Gamma among Acme, Beta and Gamma. *)
Lemma getAIVisibilityMetrics_revisions_agree_witness :
  brandPosition (V1.getAIVisibilityMetrics (Some tiedBrands))
  = brandPosition (V2.getAIVisibilityMetrics (lf := plain_logo) (Some tiedBrands))
  ∧ (1 <= brandPosition (V2.getAIVisibilityMetrics (lf := plain_logo) (Some tiedBrands))
     <= Z.of_nat (totalBrands (V2.getAIVisibilityMetrics (lf := plain_logo) (Some tiedBrands))))%Z.
Proof.
  destruct (getAIVisibilityMetrics_revisions_agree (lf := plain_logo) tiedBrands "Gamma")
    as (_ & _ & _ & Hpos); [reflexivity|].
  apply Hpos. exists (sampleBrand "Gamma" None (Some 50%Q)).
  split; [|reflexivity]. simpl. repeat constructor.
Defined.

Section Ranking.
Context {lf : LogoFormat}.

(** X3: when brand names are unique and the subject brand is listed, its
    position by [mention_score] (in [getMentionsPosition]) and by
    [geo_score] (in the rank-derived [getAIVisibilityMetrics], which
    [getVisibilityPosition] passes on) is more than the number of brands
    with a strictly higher score and at most the number of brands whose
    score is at least as high. *)
Theorem subject_position_bounds (analytics : option Analytics) (b : BrandInfo) :
  let info := getBrandInfoWithLogos analytics in
  let higher (key : BrandInfo → Q) :=
    Z.of_nat (length (List.filter (λ c, Qltb (key b) (key c)) info)) in
  let notLower (key : BrandInfo → Q) :=
    Z.of_nat (length (List.filter (λ c, Qle_bool (key b) (key c)) info)) in
  b ∈ info → brand b = getBrandName analytics → NoDup (map brand info) →
  (higher mention_score < position (getMentionsPosition analytics)
   <= notLower mention_score)%Z
  ∧ (higher geo_score
     < vp_position (getVisibilityPosition (V2.getAIVisibilityMetrics analytics))
     <= notLower geo_score)%Z.
Proof.
  intros info higher notLower Hb Hname Hnd.
  set (p := λ c : BrandInfo, String.eqb (brand c) (getBrandName analytics)).
  assert (Hp : p b = true) by by apply String.eqb_eq.
  assert (Honly : ∀ x, x ∈ info → p x = true → x = b).
  { intros x Hx Hpx. apply String.eqb_eq in Hpx.
    apply (NoDup_map_eq brand info); [done | done | done | congruence]. }
  destruct (rank_bounds mention_score p info b Hb Hp Honly) as [Hm1 Hm2].
  destruct (rank_bounds geo_score p info b Hb Hp Honly) as [Hg1 Hg2].
  unfold getMentionsPosition, getVisibilityPosition, V2.getAIVisibilityMetrics.
  cbn [position vp_position brandPosition].
  fold info. fold p.
  set (im := findIndex p (Array_sort _ info)) in *.
  set (ig := findIndex p (Array_sort (λ a c, geo_score c - geo_score a)%Q info)) in *.
  subst higher notLower. cbn beta.
  split.
  - destruct (0 <=? im)%Z eqn:E; lia.
  - destruct (0 <=? ig)%Z eqn:E; lia.
Qed.

(** An object filled by assignments [o[key(b)] = value(b)] holds, under
    each key but [__proto__], the value of the last entry with that key. *)
Lemma assigned_lookup {A V} (key : A → string) (value : A → V) (l : list A)
    (name : string) :
  foldl (λ (o : gmap string V) b, obj_set (key b) (value b) o) ∅ l !! name
  = if String.eqb name "__proto__" then None
    else value <$> last (List.filter (λ b, String.eqb (key b) name) l).
Proof.
  induction l as [|b l IH] using rev_ind.
  { simpl. rewrite lookup_empty. by destruct (String.eqb name "__proto__"). }
  rewrite foldl_app, List.filter_app. simpl. unfold obj_set at 1.
  destruct (String.eqb_spec (key b) "__proto__") as [Hp|Hp].
  - rewrite IH. destruct (String.eqb name "__proto__") eqn:Hn; [done|].
    apply String.eqb_neq in Hn.
    assert (String.eqb (key b) name = false) as -> by (apply String.eqb_neq; congruence).
    by rewrite app_nil_r.
  - destruct (String.eqb_spec (key b) name) as [Heq|Hne].
    + rewrite Heq in Hp |- *. rewrite lookup_insert_eq, last_snoc.
      by apply String.eqb_neq in Hp as ->.
    + rewrite lookup_insert_ne by done. by rewrite IH, app_nil_r.
Qed.

Lemma filter_unique {A} (key : A → string) (l : list A) (b : A) :
  NoDup (map key l) → b ∈ l →
  List.filter (λ c, String.eqb (key c) (key b)) l = [b].
Proof.
  induction l as [|x l IH]; simpl; intros Hnd Hb; [by apply elem_of_nil in Hb|].
  apply NoDup_cons in Hnd as [Hx Hnd].
  apply elem_of_cons in Hb as [->|Hb].
  - rewrite String.eqb_refl. f_equal. apply filter_none.
    apply Forall_forall. intros c Hc. apply String.eqb_neq. intros Heq.
    apply Hx. rewrite <- Heq. by apply (list_elem_of_fmap_2 key).
  - assert (String.eqb (key x) (key b) = false) as ->.
    { apply String.eqb_neq. intros Heq. apply Hx. rewrite Heq.
      by apply (list_elem_of_fmap_2 key). }
    by apply IH.
Qed.

(** X4: [getBrandMentionCounts] and the [allBrandMentions] of
    [getMentionsPosition] map a name to the [mention_count], respectively
    the [mention_score], of the last brand listed under that name, and
    hold no other name; they hold nothing under [__proto__], also when a
    brand carries that name. *)
Theorem brand_maps_lookup (analytics : option Analytics) (name : string) :
  let last_named :=
    last (List.filter (λ b, String.eqb (brand b) name) (getBrandInfoWithLogos analytics)) in
  getBrandMentionCounts analytics !! name
  = (if String.eqb name "__proto__" then None else mention_count <$> last_named)
  ∧ allBrandMentions (getMentionsPosition analytics) !! name
    = (if String.eqb name "__proto__" then None else mention_score <$> last_named).
Proof.
  intros last_named. subst last_named.
  unfold getBrandMentionCounts, getMentionsPosition. cbn [allBrandMentions].
  induction (getBrandInfoWithLogos analytics) as [|b l [IH1 IH2]] using rev_ind.
  { simpl. rewrite !lookup_empty. by destruct (String.eqb name "__proto__"). }
  rewrite !foldl_app, List.filter_app. simpl. unfold obj_set at 1 3.
  destruct (String.eqb_spec (brand b) "__proto__") as [Hp|Hp].
  - rewrite IH1, IH2. destruct (String.eqb name "__proto__") eqn:Hn; [done|].
    apply String.eqb_neq in Hn.
    assert (String.eqb (brand b) name = false) as -> by (apply String.eqb_neq; congruence).
    by rewrite app_nil_r.
  - destruct (String.eqb_spec (brand b) name) as [Heq|Hne].
    + rewrite Heq in Hp |- *. rewrite !lookup_insert_eq, last_snoc.
      by apply String.eqb_neq in Hp as ->.
    + rewrite !lookup_insert_ne by done. by rewrite IH1, IH2, app_nil_r.
Qed.

(** X5: the [topBrandMentions] of [getMentionsPosition] is at least the
    [mention_score] of every brand and, unless no brand is listed, is the
    score of one of them; the subject's [brandMentions] does not exceed it
    when the subject is listed. *)
Theorem topBrandMentions_is_max (analytics : option Analytics) :
  let info := getBrandInfoWithLogos analytics in
  let result := getMentionsPosition analytics in
  (∀ b, b ∈ info → (mention_score b <= topBrandMentions result)%Q)
  ∧ (info ≠ [] → ∃ b, b ∈ info ∧ (mention_score b == topBrandMentions result)%Q)
  ∧ ((∃ b, b ∈ info ∧ brand b = getBrandName analytics) →
     (brandMentions result <= topBrandMentions result)%Q).
Proof.
  intros info result.
  assert (Hor : ∀ x, (or_else x 0 == x)%Q).
  { intros x. unfold or_else. destruct (Qeq_bool x 0) eqn:E; [|done].
    apply Qeq_bool_iff in E. by rewrite E. }
  subst result. unfold getMentionsPosition. cbn [topBrandMentions brandMentions].
  fold info.
  set (sorted := Array_sort (λ a b, mention_score b - mention_score a)%Q info).
  pose proof (Array_sort_desc mention_score info) as Hsorted. fold sorted in Hsorted.
  assert (Hperm : sorted ≡ₚ info) by apply Array_sort_perm.
  assert (Hmax : ∀ b, b ∈ info →
                 (mention_score b <= opt_or (mention_score <$> head sorted) 0)%Q).
  { intros b Hb. rewrite <- Hperm in Hb.
    destruct Hsorted as [|h t Ht Hh]; [by apply elem_of_nil in Hb|].
    simpl. rewrite Hor. apply elem_of_cons in Hb as [->|Hb]; [lra|].
    rewrite Forall_forall in Hh. by apply Hh. }
  split_and!.
  - exact Hmax.
  - intros Hne. destruct sorted as [|h t] eqn:Hs.
    + apply Permutation_nil_l in Hperm. congruence.
    + exists h. split; [rewrite <- Hperm; set_solver|]. simpl. by rewrite Hor.
  - intros (b & Hb & Hname).
    destruct (List.find _ info) as [c|] eqn:Hfind.
    + apply find_some in Hfind as [Hc _]. simpl. rewrite Hor.
      by apply Hmax, list_elem_of_In.
    + apply find_absent in Hfind. rewrite Forall_forall in Hfind.
      specialize (Hfind b Hb). simpl in Hfind.
      apply String.eqb_neq in Hfind. done.
Qed.

Lemma calculatePercentile_bounds (value : Q) (allValues : list Q) :
  allValues ≠ [] →
  ∃ z, calculatePercentile value allValues = of_Z z ∧ (0 <= z <= 100)%Z.
Proof.
  intros Hne. rewrite calculatePercentile_count.
  destruct (lower_count_bounds value allValues) as [Hl0 Hl1].
  apply roundedPercent_bounds; [done | done | by apply length_positive].
Qed.

Lemma calculatePercentile_mono (v w : Q) (allValues : list Q) (z1 z2 : Z) :
  allValues ≠ [] → (v <= w)%Q →
  calculatePercentile v allValues = of_Z z1 →
  calculatePercentile w allValues = of_Z z2 → (z1 <= z2)%Z.
Proof.
  intros Hne Hvw. rewrite !calculatePercentile_count.
  destruct (lower_count_bounds v allValues) as [Hv0 _].
  destruct (lower_count_bounds w allValues) as [_ Hw1].
  pose proof (length_positive allValues Hne) as Hpos.
  apply roundedPercent_mono; [done | | lra | done].
  rewrite <- Zle_Qle. apply inj_le.
  apply filter_length_le. intros x Hx.
  apply Qltb_lt. apply Qltb_lt in Hx. lra.
Qed.

(** X6: [getAllBrandMentionsWithTiers] returns one row per brand, in
    descending order of mentions; it never calls [calculatePercentile]
    with an empty list, so every percentile is an integer between 0 and
    100, and a row with more mentions never has a lower percentile. *)
Theorem getAllBrandMentionsWithTiers_rows (analytics : option Analytics) :
  let rows := getAllBrandMentionsWithTiers analytics in
  length rows = length (getBrandInfoWithLogos analytics)
  ∧ StronglySorted (λ a b, (mr_mentions b <= mr_mentions a)%Q) rows
  ∧ Forall (λ r, ∃ z, mr_percentile r = of_Z z ∧ (0 <= z <= 100)%Z) rows
  ∧ ∀ r1 r2 z1 z2,
      r1 ∈ rows → r2 ∈ rows → (mr_mentions r1 <= mr_mentions r2)%Q →
      mr_percentile r1 = of_Z z1 → mr_percentile r2 = of_Z z2 → (z1 <= z2)%Z.
Proof.
  intros rows. subst rows. unfold getAllBrandMentionsWithTiers.
  set (info := getBrandInfoWithLogos analytics).
  set (allMentions := map mention_count info).
  set (mk := λ b : BrandInfo,
         {| mr_brand := brand b; mr_mentions := mention_count b;
            mr_percentile := calculatePercentile (mention_count b) allMentions;
            mr_tier := mention_tier b; mr_logo := logo b |}).
  assert (Hrow : ∀ r, r ∈ Array_sort (λ a b, mr_mentions b - mr_mentions a)%Q (map mk info) →
                 allMentions ≠ []
                 ∧ mr_percentile r = calculatePercentile (mr_mentions r) allMentions).
  { intros r Hr. rewrite Array_sort_perm in Hr.
    apply list_elem_of_fmap in Hr as (b & -> & Hb). split; [|done].
    subst allMentions. destruct info; [by apply elem_of_nil in Hb | done]. }
  split_and!.
  - by rewrite Array_sort_length, length_map.
  - apply Array_sort_desc.
  - apply Forall_forall. intros r Hr. destruct (Hrow r Hr) as [Hne ->].
    by apply calculatePercentile_bounds.
  - intros r1 r2 z1 z2 Hr1 Hr2 Hle.
    destruct (Hrow r1 Hr1) as [Hne ->]. destruct (Hrow r2 Hr2) as [_ ->].
    by apply calculatePercentile_mono.
Qed.
End Ranking.

(** Gamma among Acme, Beta and Gamma, all names distinct. *)
Lemma subject_position_bounds_witness :
  (1 < position (getMentionsPosition (lf := plain_logo) (Some tiedBrands)) <= 3)%Z
  ∧ (0 < vp_position (getVisibilityPosition
                        (V2.getAIVisibilityMetrics (lf := plain_logo) (Some tiedBrands)))
     <= 3)%Z.
Proof.
  apply (subject_position_bounds (lf := plain_logo) (Some tiedBrands)
           {| brand := "Gamma"; geo_score := 0%Q; mention_score := 50%Q;
              mention_count := 0%Q; logo := ""; geo_tier := "Low";
              mention_tier := "Low"; summary := ""; outlook := "Neutral";
              mention_breakdown := None |}).
  - vm_compute. repeat constructor.
  - reflexivity.
  - compute_done.
Defined.

(** The three brands of the scenario, the subject Gamma listed. *)
Lemma topBrandMentions_is_max_witness :
  (∃ b, b ∈ getBrandInfoWithLogos (lf := plain_logo) (Some tiedBrands)
        ∧ (mention_score b
           == topBrandMentions (getMentionsPosition (lf := plain_logo) (Some tiedBrands)))%Q)
  ∧ (brandMentions (getMentionsPosition (lf := plain_logo) (Some tiedBrands))
     <= topBrandMentions (getMentionsPosition (lf := plain_logo) (Some tiedBrands)))%Q.
Proof.
  destruct (topBrandMentions_is_max (lf := plain_logo) (Some tiedBrands))
    as (_ & Hattained & Hsubject).
  split.
  - apply Hattained. discriminate.
  - apply Hsubject.
    exists {| brand := "Gamma"; geo_score := 0%Q; mention_score := 50%Q;
              mention_count := 0%Q; logo := ""; geo_tier := "Low";
              mention_tier := "Low"; summary := ""; outlook := "Neutral";
              mention_breakdown := None |}.
    split; [|reflexivity]. vm_compute. repeat constructor.
Defined.

(** ** Competitor visibility *)

Lemma Math_max_of_spec (xs : list Q) :
  xs ≠ [] →
  ∃ m, Math_max_of xs = Fin m ∧ m ∈ xs ∧ Forall (λ x, (x <= m)%Q) xs.
Proof.
  induction xs as [|x xs IH]; [done|]. intros _.
  destruct xs as [|y ys].
  { exists x. simpl. split_and!; [done | by left | repeat constructor; lra]. }
  destruct IH as (m & Hm & Hin & Hall); [done|].
  change (Math_max_of (x :: y :: ys))
    with (Math_max (Fin x) (Math_max_of (y :: ys))). rewrite Hm.
  unfold Math_max, Num.compare.
  destruct (Qcompare_spec x m) as [Heq|Hlt|Hgt].
  - exists x. split_and!; [done | by left |].
    constructor; [lra|]. eapply Forall_impl; [exact Hall|]. intros z Hz. simpl in Hz. lra.
  - exists m. split_and!; [done | by right |]. constructor; [lra | done].
  - exists x. split_and!; [done | by left |].
    constructor; [lra|]. eapply Forall_impl; [exact Hall|]. intros z Hz. simpl in Hz. lra.
Qed.

Section Visibility.
Context {lf : LogoFormat}.

(** X7: [getCompetitorVisibility] keeps the rows of [getCompetitorData],
    which are in descending order of score.  It returns no row for no
    brand, although the maximum is then [-Infinity].  When no score is
    negative every [visibility] is an integer between 0 and 100; the
    first row has 100 when its score is positive; all rows have 0 when no
    score is positive. *)
Theorem getCompetitorVisibility_spec (analytics : option Payload) :
  let info := getBrandInfoWithLogos (core <$> analytics) in
  let rows := getCompetitorVisibility analytics in
  map row rows = getCompetitorData analytics
  ∧ length rows = length info
  ∧ StronglySorted (λ a b, (totalScore b <= totalScore a)%Q) (getCompetitorData analytics)
  ∧ (Forall (λ b, (0 <= geo_score b)%Q) info →
     Forall (λ r, ∃ z, visibility r = of_Z z ∧ (0 <= z <= 100)%Z) rows)
  ∧ (∀ r, head rows = Some r → (0 < totalScore (row r))%Q → visibility r = of_Z 100)
  ∧ (Forall (λ b, (geo_score b <= 0)%Q) info →
     Forall (λ r, visibility r = of_Z 0) rows).
Proof.
  intros info rows. subst rows. unfold getCompetitorVisibility.
  set (data := getCompetitorData analytics).
  assert (Hsorted : StronglySorted (λ a b, (totalScore b <= totalScore a)%Q) data)
    by apply Array_sort_desc.
  assert (Hscores : ∀ P : Q → Prop,
            Forall (λ b, P (geo_score b)) info → Forall (λ c, P (totalScore c)) data).
  { intros P HP. subst data. unfold getCompetitorData. apply Forall_Array_sort.
    fold info. apply Forall_fmap. eapply Forall_impl; [exact HP|]. by intros b Hb. }
  assert (Hlen : length data = length info).
  { subst data. unfold getCompetitorData. by rewrite Array_sort_length, length_map. }
  split_and!.
  - rewrite <- list_fmap_compose. apply list_fmap_id.
  - by rewrite length_map.
  - done.
  - intros Hnn. apply Forall_fmap, Forall_forall. intros c Hc. unfold compose. cbn [visibility].
    destruct (decide (data = [])) as [Hnil|Hne].
    { rewrite Hnil in Hc. by apply elem_of_nil in Hc. }
    destruct (Math_max_of_spec (map totalScore data)) as (m & -> & Hm & Hall).
    { by destruct data. }
    unfold Num.gtb, Num.ltb, Num.compare.
    destruct (Qcompare_spec 0 m) as [Heq|Hlt|Hgt]; [by exists 0%Z | | by exists 0%Z].
    apply (roundedPercent_bounds (totalScore c) m); [ | | done].
    + specialize (Hscores (λ q, (0 <= q)%Q) Hnn).
      rewrite Forall_forall in Hscores. by apply Hscores.
    + rewrite Forall_forall in Hall. apply Hall. by apply (list_elem_of_fmap_2 totalScore).
  - intros r Hr Hpos. destruct data as [|c data'] eqn:Hdata; [done|].
    destruct (Math_max_of_spec (map totalScore (c :: data'))) as (m & Hmx & Hm & Hall);
      [done|].
    cbn [map head] in Hr, Hmx. rewrite Hmx in Hr. injection Hr as <-.
    cbv beta iota delta [row visibility] in *.
    assert (Hcm : (totalScore c == m)%Q).
    { apply Qle_antisym.
      - apply Forall_cons_1 in Hall as [Hc _]. done.
      - apply list_elem_of_fmap in Hm as (c' & -> & Hc').
        apply elem_of_cons in Hc' as [->|Hc']; [lra|].
        apply StronglySorted_inv in Hsorted as [_ Hrest].
        rewrite Forall_forall in Hrest. by apply Hrest. }
    unfold Num.gtb, Num.ltb, Num.compare.
    destruct (Qcompare_spec 0 m) as [Heq|Hlt|Hgt]; [lra | | lra].
    by apply (roundedPercent_all (totalScore c) m).
  - intros Hnp. apply Forall_fmap, Forall_forall. intros c Hc. unfold compose. cbn [visibility].
    destruct (decide (data = [])) as [Hnil|Hne].
    { rewrite Hnil in Hc. by apply elem_of_nil in Hc. }
    destruct (Math_max_of_spec (map totalScore data)) as (m & -> & Hm & Hall).
    { by destruct data. }
    apply list_elem_of_fmap in Hm as (c' & -> & Hc').
    specialize (Hscores (λ q, (q <= 0)%Q) Hnp). rewrite Forall_forall in Hscores.
    specialize (Hscores c' Hc').
    unfold Num.gtb, Num.ltb, Num.compare.
    destruct (Qcompare_spec 0 (totalScore c')) as [Heq|Hlt|Hgt]; [done | lra | done].
Qed.
End Visibility.

(** The sample payload: scores 60, 80 and 0. *)
Lemma getCompetitorVisibility_spec_witness :
  Forall (λ r, ∃ z, visibility r = of_Z z ∧ (0 <= z <= 100)%Z)
         (getCompetitorVisibility (lf := plain_logo) (Some samplePayload))
  ∧ (visibility <$> head (getCompetitorVisibility (lf := plain_logo) (Some samplePayload)))
    = Some (of_Z 100).
Proof.
  destruct (getCompetitorVisibility_spec (lf := plain_logo) (Some samplePayload))
    as (_ & _ & _ & Hbounds & Hhead & _).
  split.
  - apply Hbounds. repeat constructor; discriminate.
  - destruct (head _) as [r|] eqn:Hr; [|discriminate Hr].
    simpl. f_equal. apply Hhead; [done|].
    vm_compute in Hr. injection Hr as <-. reflexivity.
Defined.

(** ** Prompts and rates *)

Section Rates.
Context {lf : LogoFormat}.

Lemma foldl_prompts (kws : list (string * Keyword)) (n : nat) :
  foldl (λ acc k, acc + length (kp_prompts k)) n
        (map (λ '(id, kw), {| kp_id := id; kp_name := kw_name kw;
                              kp_prompts := default [] (prompts kw) |}) kws)
  = foldl (λ totalPrompts (e : string * Keyword),
             match prompts e.2 with
             | Some ps => totalPrompts + length ps
             | None => totalPrompts
             end) n kws.
Proof.
  revert n. induction kws as [|[id kw] kws IH]; intros n; simpl; [done|].
  rewrite IH. destruct (prompts kw); simpl; [done|]. by rewrite Nat.add_0_r.
Qed.

(** X8: the total of prompts that the prompts page computes from
    [getSearchKeywordsWithPrompts] is the [getTotalPromptCount] of the
    data layer, and both are the number of prompts of all keywords
    together. *)
Theorem totalPrompts_agree (analytics : option Payload) :
  totalPrompts (getSearchKeywordsWithPrompts analytics) = getTotalPromptCount analytics
  ∧ getTotalPromptCount analytics
    = length (concat (kp_prompts <$> getSearchKeywordsWithPrompts analytics)).
Proof.
  unfold totalPrompts, getTotalPromptCount, getSearchKeywordsWithPrompts.
  destruct (analytics ≫= search_keywords) as [kws|]; [|done].
  rewrite foldl_prompts. split; [done|].
  assert (Hgen : ∀ n,
            foldl (λ totalPrompts (e : string * Keyword),
                     match prompts e.2 with
                     | Some ps => totalPrompts + length ps
                     | None => totalPrompts
                     end) n kws
            = n + length (concat (kp_prompts <$>
                 map (λ '(id, kw), {| kp_id := id; kp_name := kw_name kw;
                                      kp_prompts := default [] (prompts kw) |}) kws))).
  { induction kws as [|[id kw] kws IH]; intros n; simpl; [lia|].
    rewrite IH, length_app.
    destruct (prompts kw); simpl; [rewrite Nat.add_assoc|]; reflexivity. }
  by rewrite Hgen.
Qed.



End Rates.


(** ** The prompts page *)

Lemma sort_head_first_max {A} (key : A → Q) (l1 l2 : list A) (b : A) :
  Forall (λ y, (key y < key b)%Q) l1 → Forall (λ y, (key y <= key b)%Q) l2 →
  ∃ rest, Array_sort (λ a c, key c - key a)%Q (l1 ++ b :: l2) = b :: rest.
Proof.
  intros Hl1 Hl2. induction Hl1 as [|x l1 Hx _ [rest IH]].
  - simpl. fold (Array_sort (λ a c, key c - key a)%Q l2).
    assert (Hs : Forall (λ y, (key y <= key b)%Q)
                   (Array_sort (λ a c, key c - key a)%Q l2))
      by by apply Forall_Array_sort.
    destruct (Array_sort _ l2) as [|y t]; simpl; [by eexists|].
    apply Forall_cons_1 in Hs as [Hy _].
    assert (Qle_bool (key y - key b) 0 = true) as -> by (apply Qle_bool_iff; lra).
    by eexists.
  - cbn [app Array_sort foldr].
    fold (Array_sort (λ a c, key c - key a)%Q (l1 ++ b :: l2)). rewrite IH.
    cbn [sort_insert].
    assert (Qle_bool (key b - key x) 0 = false) as -> by (apply Qle_bool_gt; lra).
    by eexists.
Qed.

Lemma top_keyword_bound (brandInfo : list BrandInfo) (keywordId : string) (b : BrandInfo) :
  b ∈ brandInfo →
  (keywordScore keywordId b <= topScore (getTopCompetitorForKeyword brandInfo keywordId))%Q
  ∧ (0 <= topScore (getTopCompetitorForKeyword brandInfo keywordId))%Q.
Proof.
  intros Hb.
  set (sc := λ b : BrandInfo, Some (keywordScore keywordId b)).
  set (mk := λ b : BrandInfo,
         {| topBrand := brand b; topScore := keywordScore keywordId b;
            topLogo := logo b |}).
  assert (Hmk : ∀ x c, sc x = Some c → topScore (mk x) = c) by by intros x c [= <-].
  change (getTopCompetitorForKeyword brandInfo keywordId)
    with (foldl (scan_step sc mk) {| topBrand := ""; topScore := 0%Q; topLogo := "" |}
                brandInfo).
  destruct (scan_first_max sc mk Hmk brandInfo
              {| topBrand := ""; topScore := 0%Q; topLogo := "" |})
    as [[Hall ->]|(l1 & x & l2 & c & Hsplit & Hc & Hlt & Hl1 & Hl2 & ->)].
  - rewrite Forall_forall in Hall. split; [by apply (Hall b Hb) | simpl; lra].
  - injection Hc as <-. simpl in *. split; [|lra].
    rewrite Hsplit in Hb. rewrite Forall_forall in Hl1, Hl2.
    apply elem_of_app in Hb as [Hb|Hb].
    + apply Qlt_le_weak. by apply (Hl1 b Hb).
    + apply elem_of_cons in Hb as [->|Hb]; [lra|]. by apply (Hl2 b Hb).
Qed.

(** X10: on the prompts page the tiles of a keyword hold exactly the
    brands mentioned for it and the subject brand, in descending order of
    score; when the header shows a top competitor (a positive top score),
    that competitor is the first tile; and the subject's own score never
    exceeds the top score. *)
Theorem competitorBreakdown_spec (brandName : string) (brandInfo : list BrandInfo)
    (keywordId : string) :
  let tiles := competitorBreakdown brandName brandInfo keywordId in
  let top := getTopCompetitorForKeyword brandInfo keywordId in
  (∀ b, b ∈ tiles ↔
        b ∈ brandInfo ∧ ((0 < keywordScore keywordId b)%Q ∨ brand b = brandName))
  ∧ StronglySorted (λ a b, (keywordScore keywordId b <= keywordScore keywordId a)%Q) tiles
  ∧ ((0 < topScore top)%Q →
     ∃ b rest, tiles = b :: rest
               ∧ top = {| topBrand := brand b; topScore := keywordScore keywordId b;
                          topLogo := logo b |})
  ∧ (getBrandScoreForKeyword brandName brandInfo keywordId <= topScore top)%Q.
Proof.
  intros tiles top. subst tiles top.
  set (shown := λ b : BrandInfo,
         Qltb 0%Q (keywordScore keywordId b) || String.eqb (brand b) brandName).
  split_and!.
  - intros b. unfold competitorBreakdown. rewrite Array_sort_perm.
    rewrite list_elem_of_In, filter_In, <- list_elem_of_In.
    rewrite orb_true_iff, Qltb_lt, String.eqb_eq. done.
  - apply Array_sort_desc.
  - intros Hpos.
    set (sc := λ b : BrandInfo, Some (keywordScore keywordId b)).
    set (mk := λ b : BrandInfo,
           {| topBrand := brand b; topScore := keywordScore keywordId b;
              topLogo := logo b |}).
    assert (Hmk : ∀ x c, sc x = Some c → topScore (mk x) = c) by by intros x c [= <-].
    change (getTopCompetitorForKeyword brandInfo keywordId)
      with (foldl (scan_step sc mk) {| topBrand := ""; topScore := 0%Q; topLogo := "" |}
                  brandInfo) in *.
    destruct (scan_first_max sc mk Hmk brandInfo
                {| topBrand := ""; topScore := 0%Q; topLogo := "" |})
      as [[Hall Heq]|(l1 & x & l2 & c & Hsplit & Hc & Hlt & Hl1 & Hl2 & Heq)].
    { rewrite Heq in Hpos. simpl in Hpos. lra. }
    injection Hc as <-. simpl in Hlt.
    unfold competitorBreakdown. rewrite Hsplit, List.filter_app. cbn [List.filter].
    assert (Qltb 0 (keywordScore keywordId x) = true) as -> by by apply Qltb_lt.
    cbn [orb].
    destruct (sort_head_first_max (keywordScore keywordId)
                (List.filter shown l1) (List.filter shown l2) x) as [rest Hrest].
    + apply Forall_forall. intros y Hy.
      apply list_elem_of_In, filter_In in Hy as [Hy _].
      rewrite Forall_forall in Hl1. by apply (Hl1 y); [apply list_elem_of_In|].
    + apply Forall_forall. intros y Hy.
      apply list_elem_of_In, filter_In in Hy as [Hy _].
      rewrite Forall_forall in Hl2. by apply (Hl2 y); [apply list_elem_of_In|].
    + exists x, rest. split; [exact Hrest | by rewrite <- Hsplit, Heq].
  - unfold getBrandScoreForKeyword.
    destruct (List.find _ brandInfo) as [b|] eqn:Hfind; simpl.
    + apply find_some in Hfind as [Hb _]. apply list_elem_of_In in Hb.
      by apply (top_keyword_bound brandInfo keywordId b).
    + assert (Hsent : (0 <= topScore (getTopCompetitorForKeyword brandInfo keywordId))%Q).
      { destruct brandInfo as [|b l]; [simpl; lra|].
        apply (top_keyword_bound (b :: l) keywordId b). by left. }
      exact Hsent.
Qed.

(** The brands of the sample payload and its keyword "k1": Beta leads. *)
Lemma competitorBreakdown_spec_witness :
  let brandInfo := getBrandInfoWithLogos (lf := plain_logo) (Some (core samplePayload)) in
  ∃ b rest,
    competitorBreakdown "Acme" brandInfo "k1" = b :: rest
    ∧ getTopCompetitorForKeyword brandInfo "k1"
      = {| topBrand := brand b; topScore := keywordScore "k1" b; topLogo := logo b |}.
Proof.
  intros brandInfo.
  destruct (competitorBreakdown_spec "Acme" brandInfo "k1") as (_ & _ & Hhead & _).
  apply Hhead. reflexivity.
Defined.

(** ** The sources page *)

(** A score of 0.575 is shown as 57: its binary64 value is below 23/40,
    and the product with 100 is rounded to a number below 57.5. *)
Lemma brandScore_below_half :
  (JSON_number (575 # 1000) < 575 # 1000)%Q
  ∧ brandScore <$> sourcesData "Acme" halfwaySource = [of_Z 57].
Proof. split; vm_compute; reflexivity. Qed.

Lemma or_else_zero (x : Q) : (or_else x 0 == x)%Q.
Proof.
  unfold or_else. destruct (Qeq_bool x 0) eqn:E; [|done].
  apply Qeq_bool_iff in E. by rewrite E.
Qed.

Lemma top_source_bound (brandInfo : list BrandInfo) (mentions : list (string * Mention)) :
  let top := getTopCompetitorForSource brandInfo mentions in
  (∀ e c, e ∈ mentions → count e.2 = Some c → (c <= topScore top)%Q)
  ∧ (0 <= topScore top)%Q
  ∧ ((topScore top == 0)%Q
     ∨ ∃ e, e ∈ mentions ∧ count e.2 = Some (topScore top)).
Proof.
  intros top. subst top.
  set (sc := λ e : string * Mention, count e.2).
  set (mk := λ e : string * Mention,
         {| topBrand := e.1; topScore := default 0%Q (count e.2);
            topLogo := str_or (getBrandLogo brandInfo e.1) "" |}).
  assert (Hmk : ∀ x c, sc x = Some c → topScore (mk x) = c).
  { intros x c Hx. unfold sc in Hx. simpl. by rewrite Hx. }
  assert (Hfold : getTopCompetitorForSource brandInfo mentions
                  = foldl (scan_step sc mk)
                          {| topBrand := ""; topScore := 0%Q; topLogo := "" |} mentions).
  { apply foldl_ext_all. intros t [b data]. unfold scan_step, sc, mk. simpl.
    by destruct (count data). }
  rewrite Hfold.
  destruct (scan_first_max sc mk Hmk mentions
              {| topBrand := ""; topScore := 0%Q; topLogo := "" |})
    as [[Hall ->]|(l1 & x & l2 & c & Hsplit & Hc & Hlt & Hl1 & Hl2 & ->)].
  - rewrite Forall_forall in Hall. simpl. split_and!.
    + intros e c He Hc. by apply (Hall e He).
    + lra.
    + by left.
  - rewrite (Hmk x c Hc). simpl in Hlt. split_and!.
    + intros e d He Hd. rewrite Hsplit in He.
      rewrite Forall_forall in Hl1, Hl2.
      apply elem_of_app in He as [He|He].
      * apply Qlt_le_weak. by apply (Hl1 e He).
      * apply elem_of_cons in He as [->|He]; [|by apply (Hl2 e He)].
        unfold sc in Hc. rewrite Hc in Hd. injection Hd as <-. lra.
    + lra.
    + right. exists x. split; [|done]. rewrite Hsplit.
      apply elem_of_app. right. by left.
Qed.

Lemma total_counts_bound (mentions : list (string * Mention)) (acc : Q) :
  Forall (λ e : string * Mention, ∀ c, count e.2 = Some c → (0 <= c)%Q) mentions →
  (acc <= foldl (λ totalMentions (m : string * Mention),
                   (totalMentions + opt_or (count m.2) 0)%Q) acc mentions)%Q
  ∧ ∀ e, e ∈ mentions →
      (acc + opt_or (count e.2) 0
       <= foldl (λ totalMentions (m : string * Mention),
                   (totalMentions + opt_or (count m.2) 0)%Q) acc mentions)%Q.
Proof.
  intros Hnn. revert acc.
  induction Hnn as [|e l He Hl IH]; intros acc; simpl.
  { split; [lra|]. intros e He. by apply elem_of_nil in He. }
  assert (Hpos : (0 <= opt_or (count e.2) 0)%Q).
  { destruct (count e.2) as [c|]; simpl; [|lra].
    rewrite or_else_zero. by apply He. }
  destruct (IH (acc + opt_or (count e.2) 0)%Q) as [IH1 IH2].
  split; [lra|]. intros e' He'.
  apply elem_of_cons in He' as [->|He']; [lra|].
  specialize (IH2 e' He').
  assert (0 <= opt_or (count e'.2) 0)%Q; [|lra].
  rewrite Forall_forall in Hl. specialize (Hl e' He').
  destruct (count e'.2) as [c|]; simpl; [|lra]. rewrite or_else_zero. by apply Hl.
Qed.

(** X11: on the sources page, when no count of a source is negative, the
    subject's mentions do not exceed the top competitor's count, which
    does not exceed the source's total of mentions. *)
Theorem source_counts_ordered (brandName : string) (brandInfo : list BrandInfo)
    (sources : list (string * Source)) (r : SourceRow) :
  r ∈ sourcesData brandName sources →
  Forall (λ e : string * Mention, ∀ c, count e.2 = Some c → (0 <= c)%Q) (sr_mentions r) →
  (sr_brandMentions r <= topScore (getTopCompetitorForSource brandInfo (sr_mentions r)))%Q
  ∧ (topScore (getTopCompetitorForSource brandInfo (sr_mentions r)) <= totalMentions r)%Q.
Proof.
  intros Hr Hnn. unfold sourcesData in Hr.
  apply list_elem_of_fmap in Hr as ([name src] & -> & _).
  cbn [sr_mentions sr_brandMentions totalMentions] in *.
  set (mentions := default [] (src_mentions src)) in *.
  destruct (top_source_bound brandInfo mentions) as (Hmax & Hzero & Hwho).
  destruct (total_counts_bound mentions 0 Hnn) as [Htot Heach].
  split.
  - unfold mention_of. destruct (List.find _ mentions) as [e|] eqn:Hfind; simpl; [|done].
    apply find_some in Hfind as [He _]. apply list_elem_of_In in He.
    destruct (count e.2) as [c|] eqn:Hc; simpl; [|done].
    rewrite or_else_zero. by apply (Hmax e c).
  - destruct Hwho as [Hz|(e & He & Hc)]; [lra|].
    specialize (Heach e He). rewrite Hc in Heach. simpl in Heach.
    rewrite or_else_zero in Heach. lra.
Qed.

(** The source of the sample payload: Acme 2, Beta 5, total 7. *)
Lemma source_counts_ordered_witness :
  let brandInfo := getBrandInfoWithLogos (lf := plain_logo) (Some (core samplePayload)) in
  Forall (λ r,
            (sr_brandMentions r
             <= topScore (getTopCompetitorForSource brandInfo (sr_mentions r)))%Q
            ∧ (topScore (getTopCompetitorForSource brandInfo (sr_mentions r))
               <= totalMentions r)%Q)
         (sourcesData "Acme" (default [] (sources_and_content_impact samplePayload))).
Proof.
  intros brandInfo. apply Forall_forall. intros r Hr.
  apply (source_counts_ordered "Acme" brandInfo
           (default [] (sources_and_content_impact samplePayload)) r Hr).
  apply list_elem_of_fmap in Hr as ([name src] & -> & Hsrc).
  apply list_elem_of_singleton in Hsrc. injection Hsrc as -> ->.
  repeat constructor; intros c [= <-]; discriminate.
Defined.

(** ** The stored response *)

Section StoreFacts.
Context {json : Json}.

(** X12: [clearAnalyticsData] leaves no data in memory and none under the
    storage key, so that a following [loadAnalyticsFromStorage] fails and
    changes nothing, while the other keys of [localStorage] are kept; and
    [setAnalyticsData] ignores a response that is [null] or has no
    [analytics] array: memory and storage stay as they were. *)
Theorem clear_and_invalid_set (st : Store) (r : Response) (setItemOk : bool) :
  let cleared := clearAnalyticsData st in
  getAnalytics cleared = None
  ∧ hasAnalyticsData cleared = false
  ∧ getStatus cleared = ""
  ∧ loadAnalyticsFromStorage cleared = (false, cleared)
  ∧ (∀ key, key ≠ ANALYTICS_STORAGE_KEY →
            localStorage cleared !! key = localStorage st !! key)
  ∧ setAnalyticsData None setItemOk st = st
  ∧ (analytics r = None → setAnalyticsData (Some r) setItemOk st = st).
Proof.
  intros cleared. subst cleared. split_and!.
  - done.
  - done.
  - done.
  - unfold loadAnalyticsFromStorage, clearAnalyticsData. cbn [localStorage].
    by rewrite lookup_delete_eq.
  - intros key Hkey. unfold clearAnalyticsData. cbn [localStorage].
    by rewrite lookup_delete_ne.
  - done.
  - intros Hr. unfold setAnalyticsData. by rewrite Hr.
Qed.

(** X13: a response that [setAnalyticsData] accepts and the browser
    stores is restored by [loadAnalyticsFromStorage] after the page is
    loaded again, provided [JSON.parse] gives back what [JSON.stringify]
    was given, with one exception: when the first entry holds an analytics
    object without [brands], which [setAnalyticsData] accepts all the
    same, the load fails and deletes the stored copy. *)
Theorem set_then_reload (st : Store) (r : Response) (entries : list (option Wrapper)) :
  analytics r = Some entries →
  JSON_stringify r ≠ "" →
  JSON_parse (JSON_stringify r) = Some r →
  let saved := setAnalyticsData (Some r) true st in
  let reloaded := loadAnalyticsFromStorage (moduleInit saved) in
  let oldStructure :=
    match mjoin (head entries) ≫= w_analytics with
    | Some obj => bool_decide (brands (core obj) = None)
    | None => false
    end in
  currentAnalyticsData saved = Some r
  ∧ getAnalytics saved = mjoin (head entries) ≫= w_analytics
  ∧ (oldStructure = false →
     reloaded.1 = true
     ∧ currentAnalyticsData reloaded.2 = Some r
     ∧ getAnalytics reloaded.2 = getAnalytics saved
     ∧ localStorage reloaded.2 = localStorage saved)
  ∧ (oldStructure = true →
     reloaded.1 = false
     ∧ currentAnalyticsData reloaded.2 = None
     ∧ localStorage reloaded.2 !! ANALYTICS_STORAGE_KEY = None).
Proof.
  intros Hentries Hne Hparse saved reloaded oldStructure.
  assert (Hsaved : saved = {| currentAnalyticsData := Some r;
                              localStorage := <[ANALYTICS_STORAGE_KEY := JSON_stringify r]>
                                                (localStorage st) |}).
  { subst saved. unfold setAnalyticsData. by rewrite Hentries. }
  assert (Hget : getAnalytics saved = mjoin (head entries) ≫= w_analytics).
  { rewrite Hsaved. unfold getAnalytics. cbn [currentAnalyticsData].
    rewrite Hentries. simpl. by destruct (mjoin (head entries)). }
  subst reloaded. rewrite Hsaved in *.
  unfold loadAnalyticsFromStorage, moduleInit. cbn [localStorage currentAnalyticsData].
  rewrite lookup_insert_eq.
  apply String.eqb_neq in Hne as ->. rewrite Hparse, Hentries.
  subst oldStructure.
  split_and!; [done | done | |].
  - intros Hold. destruct (mjoin (head entries) ≫= w_analytics) as [obj|] eqn:Hobj.
    + destruct (brands (core obj)) eqn:Hb; [|by rewrite bool_decide_eq_true_2 in Hold].
      cbn [fst snd currentAnalyticsData localStorage]. by split_and!.
    + cbn [fst snd currentAnalyticsData localStorage]. by split_and!.
  - intros Hold. destruct (mjoin (head entries) ≫= w_analytics) as [obj|] eqn:Hobj;
      [|done].
    apply bool_decide_eq_true_1 in Hold. rewrite Hold.
    cbn [fst snd removeStored currentAnalyticsData localStorage].
    split_and!; [done | done |]. apply lookup_delete_eq.
Qed.
End StoreFacts.

(** A response without an [analytics] array, offered to an empty store. *)
Lemma clear_and_invalid_set_witness :
  setAnalyticsData (json := sampleJson) (Some {| analytics := None |}) true emptyStore
  = emptyStore.
Proof.
  apply (clear_and_invalid_set (json := sampleJson) emptyStore {| analytics := None |} true).
  reflexivity.
Defined.

(** The sample response comes back after a reload; the response of the
    old structure does not. *)
Lemma set_then_reload_witness :
  (loadAnalyticsFromStorage (json := sampleJson)
     (moduleInit (setAnalyticsData (json := sampleJson) (Some sampleResponse) true
                    emptyStore))).1 = true
  ∧ (loadAnalyticsFromStorage (json := sampleJson)
       (moduleInit (setAnalyticsData (json := sampleJson) (Some oldResponse) true
                      emptyStore))).1 = false.
Proof.
  split.
  - destruct (set_then_reload (json := sampleJson) emptyStore sampleResponse
                (default [] (analytics sampleResponse)))
      as (_ & _ & Hnew & _); [reflexivity | discriminate | reflexivity |].
    apply Hnew. reflexivity.
  - destruct (set_then_reload (json := sampleJson) emptyStore oldResponse
                (default [] (analytics oldResponse)))
      as (_ & _ & _ & Hold); [reflexivity | discriminate | reflexivity |].
    apply Hold. reflexivity.
Defined.

(** ** Onboarding: the selected keywords *)

Lemma includes_elem_of (l : list string) (k : string) : includes l k = true ↔ k ∈ l.
Proof. unfold includes. apply bool_decide_eq_true. Qed.

Lemma includes_not_elem_of (l : list string) (k : string) : includes l k = false ↔ k ∉ l.
Proof. unfold includes. apply bool_decide_eq_false. Qed.

Lemma NoDup_List_filter {A} (p : A → bool) (l : list A) :
  NoDup l → NoDup (List.filter p l).
Proof.
  induction 1 as [|x l Hx _ IH]; simpl; [constructor|].
  destruct (p x); [|done]. constructor; [|done].
  intros Hin. apply Hx. by apply list_elem_of_In, filter_In in Hin as [?%list_elem_of_In _].
Qed.

Lemma keywordStep_length (trim : string → string) (selected : list string)
    (e : KeywordEvent) (bound : nat) :
  (3 <= bound)%nat → (length selected <= bound)%nat →
  (length (keywordStep trim selected e) <= bound)%nat.
Proof.
  intros Hb Hlen. destruct e as [k|c]; cbn [keywordStep].
  - unfold toggleKeyword. destruct (includes selected k).
    + cbn [applyUpdate].
      pose proof (filter_length_bound (λ k0, negb (String.eqb k0 k)) selected). lia.
    + destruct (3 <=? length selected)%nat eqn:E; cbn [applyUpdate]; [lia|].
      apply Nat.leb_gt in E. rewrite length_app. simpl. lia.
  - unfold handleAddCustomKeyword. destruct (String.eqb (trim c) ""); [simpl; lia|].
    destruct (3 <=? length selected)%nat eqn:E; [simpl; lia|].
    apply Nat.leb_gt in E. simpl. rewrite length_app. simpl. lia.
Qed.

(** X14: however the user toggles keywords and adds custom ones, the
    selection never grows beyond three keywords, or beyond its initial
    size when that was larger; and toggling alone never selects a keyword
    twice. *)
Theorem keyword_selection_capped (trim : string → string) (events : list KeywordEvent)
    (selected : list string) :
  (length (foldl (keywordStep trim) selected events) <= Nat.max 3 (length selected))%nat
  ∧ ((∀ e, e ∈ events → ∃ k, e = Toggle k) → NoDup selected →
     NoDup (foldl (keywordStep trim) selected events)).
Proof.
  split.
  - assert (Hgen : ∀ bound sel, (3 <= bound)%nat → (length sel <= bound)%nat →
                     (length (foldl (keywordStep trim) sel events) <= bound)%nat).
    { intros bound. induction events as [|e es IH]; intros sel Hb Hlen; simpl; [done|].
      apply IH; [done|]. by apply keywordStep_length. }
    apply Hgen; lia.
  - revert selected. induction events as [|e es IH]; intros selected Hev Hnd; simpl;
      [done|].
    apply IH; [intros e' He'; apply Hev; by right|].
    destruct (Hev e) as [k ->]; [by left|]. cbn [keywordStep]. unfold toggleKeyword.
    destruct (includes selected k) eqn:Hin.
    + by apply NoDup_List_filter.
    + destruct (3 <=? length selected)%nat; cbn [applyUpdate]; [done|].
      apply includes_not_elem_of in Hin.
      apply NoDup_app. split_and!; [done | | apply NoDup_singleton].
      intros x Hx Hx'. apply list_elem_of_singleton in Hx'. by subst.
Qed.

(** Two toggles from the empty selection. *)
Lemma keyword_selection_capped_witness :
  NoDup (foldl (keywordStep (λ s, s)) [] [Toggle "crm"; Toggle "erp"]).
Proof.
  apply (keyword_selection_capped (λ s, s) [Toggle "crm"; Toggle "erp"] []).
  - intros e He. apply elem_of_cons in He as [->|He]; [by eexists|].
    apply list_elem_of_singleton in He as ->. by eexists.
  - constructor.
Defined.

(** X15: selecting an unselected keyword while fewer than three are
    selected and toggling it again restores the selection; toggling a
    selected keyword removes every copy of it; and [handleAddCustomKeyword]
    appends the trimmed keyword without looking whether it is selected
    already, so that it can select a keyword twice. *)
Theorem keyword_toggle_round_trip (trim : string → string) (selected : list string)
    (k c : string) :
  (k ∉ selected → (length selected < 3)%nat →
   keywordStep trim (keywordStep trim selected (Toggle k)) (Toggle k) = selected)
  ∧ (k ∈ selected → k ∉ keywordStep trim selected (Toggle k))
  ∧ (trim c ≠ "" → (length selected < 3)%nat →
     keywordStep trim selected (AddCustom c) = (selected ++ [trim c])%list
     ∧ (trim c ∈ selected → ¬ NoDup (keywordStep trim selected (AddCustom c)))).
Proof.
  split_and!.
  - intros Hk Hlen.
    assert (Hfirst : keywordStep trim selected (Toggle k) = (selected ++ [k])%list).
    { cbn [keywordStep]. unfold toggleKeyword.
      apply includes_not_elem_of in Hk as ->. by apply Nat.leb_gt in Hlen as ->. }
    rewrite Hfirst. cbn [keywordStep]. unfold toggleKeyword.
    assert (includes (selected ++ [k]) k = true) as ->.
    { apply includes_elem_of, elem_of_app. right. by left. }
    cbn [applyUpdate]. rewrite List.filter_app. simpl. rewrite String.eqb_refl. simpl.
    rewrite app_nil_r. apply filter_all.
    apply Forall_forall. intros x Hx. apply negb_true_iff, String.eqb_neq.
    intros ->. done.
  - intros Hk. cbn [keywordStep]. unfold toggleKeyword.
    apply includes_elem_of in Hk as ->. cbn [applyUpdate].
    intros Hin. apply list_elem_of_In, filter_In in Hin as [_ Hne].
    by rewrite String.eqb_refl in Hne.
  - intros Hc Hlen. cbn [keywordStep]. unfold handleAddCustomKeyword.
    apply String.eqb_neq in Hc as ->. apply Nat.leb_gt in Hlen as ->. simpl.
    split; [done|]. intros Hin Hnd.
    apply NoDup_app in Hnd as (_ & Hdisj & _).
    apply (Hdisj (trim c) Hin). by left.
Qed.

(** "erp" toggled on and off after "crm"; "crm" added again by hand. *)
Lemma keyword_toggle_round_trip_witness :
  keywordStep (λ s, s) (keywordStep (λ s, s) ["crm"] (Toggle "erp")) (Toggle "erp")
  = ["crm"]
  ∧ keywordStep (λ s, s) ["crm"] (AddCustom "crm") = ["crm"; "crm"].
Proof.
  destruct (keyword_toggle_round_trip (λ s, s) ["crm"] "erp" "crm")
    as (Hround & _ & Hadd).
  split.
  - apply Hround; [|simpl; lia].
    intros Hin. apply list_elem_of_singleton in Hin. discriminate.
  - apply Hadd; [discriminate | simpl; lia].
Defined.

(** ** Onboarding: suggested and pre-populated keywords *)

Lemma dedupe_from_spec (seen xs : list string) :
  NoDup (dedupe_from seen xs)
  ∧ ∀ x, x ∈ dedupe_from seen xs ↔ x ∈ xs ∧ x ∉ seen.
Proof.
  revert seen. induction xs as [|y xs IH]; intros seen; simpl.
  { split; [constructor|]. intros x. split; [by intros ?%elem_of_nil|].
    by intros [?%elem_of_nil _]. }
  destruct (bool_decide_reflect (y ∈ seen)) as [Hy|Hy].
  - destruct (IH seen) as [Hnd Hin]. split; [done|]. intros x. rewrite Hin.
    split; [intros [Hx Hs]; split; [by right | done]|].
    intros [Hx Hs]. split; [|done].
    apply elem_of_cons in Hx as [->|Hx]; done.
  - destruct (IH (y :: seen)) as [Hnd Hin]. split.
    + constructor; [|done]. rewrite Hin. intros [_ Hs]. apply Hs. by left.
    + intros x. rewrite elem_of_cons, Hin, not_elem_of_cons, elem_of_cons.
      split.
      * intros [->|(Hx & Hne & Hs)]; [by split; [left|] | by split; [right|]].
      * intros [[->|Hx] Hs]; [by left|].
        destruct (decide (x = y)) as [->|Hne]; [by left | by right].
Qed.

Lemma dedupe_from_app (seen l1 l2 : list string) :
  ∃ rest, dedupe_from seen (l1 ++ l2) = (dedupe_from seen l1 ++ rest)%list.
Proof.
  revert seen. induction l1 as [|x l1 IH]; intros seen; simpl; [by eexists|].
  destruct (bool_decide (x ∈ seen)); [apply IH|].
  destruct (IH (x :: seen)) as [rest ->]. by exists rest.
Qed.

Lemma dedupe_from_NoDup (seen xs : list string) :
  NoDup xs → (∀ x, x ∈ xs → x ∉ seen) → dedupe_from seen xs = xs.
Proof.
  intros Hnd. revert seen. induction Hnd as [|y xs Hy _ IH]; intros seen Hdisj; simpl;
    [done|].
  rewrite bool_decide_eq_false_2 by (apply Hdisj; by left).
  f_equal. apply IH. intros x Hx. rewrite not_elem_of_cons. split.
  - intros ->. done.
  - apply Hdisj. by right.
Qed.

(** X16: the keywords a fetch suggests are appended to the suggestions
    already shown, those already shown left out: every old and new
    keyword is suggested, no keyword twice when neither list repeats one,
    and merging the same keywords again changes nothing.  The keywords of
    an earlier analysis are added to the selection without its limit of
    three: the selection then holds each old and each earlier keyword
    exactly once, the old ones first, and at least as many keywords as the
    earlier analysis had. *)
Theorem keyword_suggestions_spec (keywords prev : list string) :
  (∀ k, k ∈ mergeSuggestedKeywords keywords prev ↔ k ∈ prev ∨ k ∈ keywords)
  ∧ (NoDup prev → NoDup keywords → NoDup (mergeSuggestedKeywords keywords prev))
  ∧ mergeSuggestedKeywords keywords (mergeSuggestedKeywords keywords prev)
    = mergeSuggestedKeywords keywords prev
  ∧ NoDup (prePopulateSelected keywords prev)
  ∧ (∀ k, k ∈ prePopulateSelected keywords prev ↔ k ∈ prev ∨ k ∈ keywords)
  ∧ (NoDup prev → ∃ added, prePopulateSelected keywords prev = (prev ++ added)%list)
  ∧ (NoDup keywords →
     (length keywords <= length (prePopulateSelected keywords prev))%nat)
  ∧ NoDup (prePopulateSuggested keywords prev)
  ∧ (∀ k, k ∈ prePopulateSuggested keywords prev ↔ k ∈ prev ∨ k ∈ keywords).
Proof.
  assert (Hnew : ∀ k, k ∈ List.filter (λ k, negb (includes prev k)) keywords
                      ↔ k ∈ keywords ∧ k ∉ prev).
  { intros k. rewrite list_elem_of_In, filter_In, <- list_elem_of_In.
    by rewrite negb_true_iff, includes_not_elem_of. }
  assert (Hmem : ∀ k, k ∈ mergeSuggestedKeywords keywords prev ↔ k ∈ prev ∨ k ∈ keywords).
  { intros k. unfold mergeSuggestedKeywords. rewrite elem_of_app, Hnew.
    destruct (decide (k ∈ prev)); tauto. }
  destruct (dedupe_from_spec [] (prev ++ keywords)) as [Hnd1 Hin1].
  destruct (dedupe_from_spec [] (keywords ++ prev)) as [Hnd2 Hin2].
  split_and!.
  - exact Hmem.
  - intros Hp Hk. unfold mergeSuggestedKeywords. apply NoDup_app. split_and!.
    + done.
    + intros x Hx Hx'. apply Hnew in Hx'. tauto.
    + by apply NoDup_List_filter.
  - unfold mergeSuggestedKeywords at 1.
    rewrite (filter_none _ keywords); [by rewrite app_nil_r|].
    apply Forall_forall. intros k Hk. apply negb_false_iff, includes_elem_of, Hmem.
    by right.
  - exact Hnd1.
  - intros k. unfold prePopulateSelected, dedupe. rewrite Hin1, elem_of_app.
    split; [tauto|]. intros H. split; [done|]. apply not_elem_of_nil.
  - intros Hp. unfold prePopulateSelected, dedupe.
    destruct (dedupe_from_app [] prev keywords) as [rest ->].
    rewrite dedupe_from_NoDup; [by exists rest | done |].
    intros x _. apply not_elem_of_nil.
  - intros Hk. apply (submseteq_length keywords), NoDup_submseteq; [done|].
    intros k Hin. unfold prePopulateSelected, dedupe. rewrite Hin1, elem_of_app.
    split; [by right | apply not_elem_of_nil].
  - exact Hnd2.
  - intros k. unfold prePopulateSuggested, dedupe. rewrite Hin2, elem_of_app.
    split; [tauto|]. intros H. split; [tauto | apply not_elem_of_nil].
Qed.

(** Four keywords of an earlier analysis, added to an empty selection. *)
Lemma keyword_suggestions_spec_witness :
  (4 <= length (prePopulateSelected ["a"; "b"; "c"; "d"] []))%nat
  ∧ NoDup (mergeSuggestedKeywords ["b"; "c"] ["a"; "b"]).
Proof.
  destruct (keyword_suggestions_spec ["a"; "b"; "c"; "d"] [])
    as (_ & _ & _ & _ & _ & _ & Hlen & _).
  destruct (keyword_suggestions_spec ["b"; "c"] ["a"; "b"]) as (_ & Hnd & _).
  split; [apply Hlen | apply Hnd]; compute_done.
Defined.

(** ** Onboarding: progress of the analysis *)

(** For the five agents the quotient and the product are exact or round
    to the exact value. *)
Lemma progressPercent_value (i : Z) :
  (0 <= i <= 4)%Z → progressPercent i = of_Z (20 * (i + 1)).
Proof.
  intros Hi.
  assert (i = 0 ∨ i = 1 ∨ i = 2 ∨ i = 3 ∨ i = 4)%Z as [->|[->|[->|[->| ->]]]] by lia;
    vm_compute; reflexivity.
Qed.

(** X17: while the analysis runs the index of the active agent starts at
    0, goes up by one per tick and stops at 4: after [n] ticks it is
    [min n 4].  For such an index the progress shown is [20 * (index + 1)]
    percent, between 20 and 100, the estimate of the remaining time is
    [2 * (4 - index)] seconds, and the progress is 100 exactly when the
    estimate is 0. *)
Theorem agent_progress_spec (n : nat) :
  let index := Nat.iter n nextAgent 0%Z in
  index = Z.min (Z.of_nat n) 4
  ∧ progressPercent index = of_Z (20 * (index + 1))
  ∧ (20 <= 20 * (index + 1) <= 100)%Z
  ∧ secondsRemaining index = (2 * (4 - index))%Z
  ∧ (progressPercent index = of_Z 100 ↔ secondsRemaining index = 0%Z).
Proof.
  intros index.
  assert (Hidx : index = Z.min (Z.of_nat n) 4).
  { subst index. induction n as [|n IH]; [done|].
    rewrite Nat.iter_succ, IH. unfold nextAgent, AGENTS_length.
    destruct (Z.min (Z.of_nat n) 4 <? 5 - 1)%Z eqn:E.
    - apply Z.ltb_lt in E. lia.
    - apply Z.ltb_ge in E. lia. }
  refine (conj _ (conj _ (conj _ (conj _ _)))).
  - done.
  - apply progressPercent_value. lia.
  - lia.
  - unfold secondsRemaining, AGENTS_length. lia.
  - rewrite progressPercent_value by lia. unfold secondsRemaining, AGENTS_length, of_Z.
    split.
    + intros [= Heq]. lia.
    + intros Heq. do 2 f_equal. lia.
Qed.

(** ** Competitor rows and the subject's figures *)

Section SubjectFigures.
Context {lf : LogoFormat}.

Lemma keywordScores_map (b : BrandInfo) (kws : list KeywordWithPrompts) (acc : list Q) :
  foldl (λ keywordScores kw,
           let score := opt_or (mention_breakdown b ≫= (.!! kp_id kw)) 0%Q in
           (keywordScores ++ [score])%list) acc kws
  = (acc ++ map (λ kw, keywordScore (kp_id kw) b) kws)%list.
Proof.
  revert acc. induction kws as [|kw kws IH]; intros acc; simpl.
  - by rewrite app_nil_r.
  - rewrite IH, <- app_assoc. done.
Qed.

(** X18: [getCompetitorData] has one row per brand, carrying the brand's
    name, logo and [geo_score], and in [keywordScores] one score per
    keyword, in the order of the keywords: the same score that the
    prompts page reads for that brand and keyword. *)
Theorem getCompetitorData_rows (analytics : option Payload) :
  let info := getBrandInfoWithLogos (core <$> analytics) in
  let keywords := getSearchKeywordsWithPrompts analytics in
  getCompetitorData analytics
  ≡ₚ map (λ b, {| cr_name := brand b;
                   keywordScores := map (λ kw, keywordScore (kp_id kw) b) keywords;
                   totalScore := geo_score b;
                   cr_logo := logo b |}) info
  ∧ Forall (λ r, length (keywordScores r) = length keywords) (getCompetitorData analytics)
  ∧ cr_name <$> getCompetitorData analytics ≡ₚ brand <$> info.
Proof.
  intros info keywords.
  assert (Hperm : getCompetitorData analytics
            ≡ₚ map (λ b, {| cr_name := brand b;
                             keywordScores := map (λ kw, keywordScore (kp_id kw) b) keywords;
                             totalScore := geo_score b;
                             cr_logo := logo b |}) info).
  { unfold getCompetitorData. rewrite Array_sort_perm. fold info keywords.
    erewrite map_ext; [reflexivity|]. intros b. cbv zeta. by rewrite keywordScores_map. }
  split_and!.
  - exact Hperm.
  - rewrite Hperm. apply Forall_fmap, Forall_true. intros b. simpl. by rewrite length_map.
  - rewrite Hperm, <- list_fmap_compose. done.
Qed.

Lemma subject_found (analytics : option Analytics) (b : BrandInfo) :
  b ∈ getBrandInfoWithLogos analytics → brand b = getBrandName analytics →
  NoDup (map brand (getBrandInfoWithLogos analytics)) →
  subjectInfo analytics = Some b.
Proof.
  intros Hb Hname Hnd. unfold subjectInfo.
  destruct (List.find _ _) as [c|] eqn:Hfind.
  - apply find_some in Hfind as [Hc Heq]. apply String.eqb_eq in Heq.
    f_equal. apply (NoDup_map_eq brand (getBrandInfoWithLogos analytics));
      [done | by apply list_elem_of_In | done | congruence].
  - apply find_absent in Hfind. rewrite Forall_forall in Hfind.
    specialize (Hfind b Hb). apply String.eqb_neq in Hfind. done.
Qed.

Lemma defaulted_fields (analytics : option Analytics) (b : BrandInfo) :
  b ∈ getBrandInfoWithLogos analytics →
  or_else (mention_count b) 0 = mention_count b
  ∧ or_else (mention_score b) 0 = mention_score b
  ∧ or_else (geo_score b) 0 = geo_score b.
Proof.
  destruct analytics as [a|]; [|by intros ?%elem_of_nil].
  rewrite getBrandInfoWithLogos_brands. intros Hb.
  apply list_elem_of_fmap in Hb as (raw & -> & _). cbn [mention_count mention_score geo_score].
  by rewrite !opt_or_idemp.
Qed.

(** X19: with unique brand names and the subject brand listed, the
    accessors of the subject report the numbers of that brand's record:
    [getPrimaryBrandTotalMentions] and [getBrandMentions] its
    [mention_count], which is also its entry in [getBrandMentionCounts];
    [getBrandMentions] and [getMentionsPosition] its [mention_score], which
    is also its entry in [allBrandMentions]; [getAIVisibility] and the
    rank-derived [getAIVisibilityMetrics] its [geo_score].  A subject
    named [__proto__] has no entry in the two objects. *)
Theorem subject_figures_agree (analytics : option Analytics) (b : BrandInfo) :
  b ∈ getBrandInfoWithLogos analytics → brand b = getBrandName analytics →
  NoDup (map brand (getBrandInfoWithLogos analytics)) →
  getPrimaryBrandTotalMentions analytics = mention_count b
  ∧ bm_mention_count (getBrandMentions analytics) = mention_count b
  ∧ getBrandMentionCounts analytics !! getBrandName analytics
    = (if String.eqb (getBrandName analytics) "__proto__" then None
       else Some (mention_count b))
  ∧ bm_mention_score (getBrandMentions analytics) = mention_score b
  ∧ brandMentions (getMentionsPosition analytics) = mention_score b
  ∧ allBrandMentions (getMentionsPosition analytics) !! getBrandName analytics
    = (if String.eqb (getBrandName analytics) "__proto__" then None
       else Some (mention_score b))
  ∧ av_geo_score (getAIVisibility analytics) = geo_score b
  ∧ score (V2.getAIVisibilityMetrics analytics) = geo_score b.
Proof.
  intros Hb Hname Hnd.
  pose proof (subject_found analytics b Hb Hname Hnd) as Hsub. unfold subjectInfo in Hsub.
  destruct (defaulted_fields analytics b Hb) as (Hcount & Hscore & Hgeo).
  unfold getPrimaryBrandTotalMentions, getBrandMentions, getAIVisibility, subjectInfo,
    getBrandMentionCounts, getMentionsPosition, V2.getAIVisibilityMetrics.
  cbn [bm_mention_count bm_mention_score brandMentions allBrandMentions av_geo_score score].
  rewrite !Hsub, !assigned_lookup, <- Hname, !(filter_unique brand) by done.
  simpl. rewrite Hcount, Hscore, Hgeo.
  by destruct (String.eqb (brand b) "__proto__").
Qed.
End SubjectFigures.

(** Gamma among Acme, Beta and Gamma. *)
Lemma subject_figures_agree_witness :
  getBrandMentionCounts (lf := plain_logo) (Some tiedBrands) !! "Gamma" = Some 0%Q
  ∧ allBrandMentions (getMentionsPosition (lf := plain_logo) (Some tiedBrands)) !! "Gamma"
    = Some 50%Q.
Proof.
  destruct (subject_figures_agree (lf := plain_logo) (Some tiedBrands)
              {| brand := "Gamma"; geo_score := 0%Q; mention_score := 50%Q;
                 mention_count := 0%Q; logo := ""; geo_tier := "Low";
                 mention_tier := "Low"; summary := ""; outlook := "Neutral";
                 mention_breakdown := None |})
    as (_ & _ & Hcount & _ & _ & Hscore & _).
  - vm_compute. repeat constructor.
  - reflexivity.
  - compute_done.
  - split; [exact Hcount | exact Hscore].
Defined.

(** ** Onboarding: the selected competitors *)

Section CompetitorFacts.
Context {ops : StringOps}.

Lemma isSameCompetitor_refl (a : OnboardingCompetitor) : isSameCompetitor a a = true.
Proof.
  unfold isSameCompetitor. destruct (truthy_str (website a) && truthy_str (website a));
    apply String.eqb_refl.
Qed.

Lemma isSameCompetitor_sym (a b : OnboardingCompetitor) :
  isSameCompetitor a b = isSameCompetitor b a.
Proof.
  unfold isSameCompetitor. rewrite (andb_comm (truthy_str (website a))).
  destruct (truthy_str (website b) && truthy_str (website a)); apply String.eqb_sym.
Qed.

Lemma existsb_none {A} (p : A → bool) (l : list A) :
  existsb p l = false ↔ Forall (λ x, p x = false) l.
Proof.
  induction l as [|x l IH]; simpl.
  - split; [constructor | done].
  - rewrite orb_false_iff, IH, Forall_cons. done.
Qed.

(** X20: [isSameCompetitor] holds of every competitor and itself and does
    not depend on the order of its arguments, but it does not compose: a
    competitor without a website is the same as any competitor of its
    name, also as two whose websites differ. *)
Theorem isSameCompetitor_relation (n w1 w2 : string) :
  (∀ a, isSameCompetitor a a = true)
  ∧ (∀ a b, isSameCompetitor a b = isSameCompetitor b a)
  ∧ (w1 ≠ "" → w2 ≠ "" → normalizeDomain w1 ≠ normalizeDomain w2 →
     let a := {| oc_name := n; website := Some w1 |} in
     let b := {| oc_name := n; website := None |} in
     let c := {| oc_name := n; website := Some w2 |} in
     isSameCompetitor a b = true ∧ isSameCompetitor b c = true
     ∧ isSameCompetitor a c = false).
Proof.
  split_and!.
  - apply isSameCompetitor_refl.
  - apply isSameCompetitor_sym.
  - intros H1 H2 Hne a b c. unfold isSameCompetitor. cbn [a b c website oc_name truthy_str].
    apply String.eqb_neq in H1, H2. rewrite H1, H2. cbn [negb andb default].
    rewrite String.eqb_refl. split_and!; [done | done |].
    by apply String.eqb_neq.
Qed.

Lemma competitorStep_length (selected : list OnboardingCompetitor) (e : CompetitorEvent)
    (bound : nat) :
  (5 <= bound)%nat → (length selected <= bound)%nat →
  (length (competitorStep selected e) <= bound)%nat.
Proof.
  intros Hb Hlen. destruct e as [c|n w]; cbn [competitorStep].
  - unfold toggleCompetitor. cbv zeta. destruct (existsb _ selected).
    + cbn [applyUpdate].
      pose proof (filter_length_bound (λ c0, negb (isSameCompetitor c0 c)) selected). lia.
    + destruct (5 <=? length selected)%nat eqn:E; cbn [applyUpdate]; [lia|].
      apply Nat.leb_gt in E. rewrite length_app. simpl. lia.
  - unfold handleAddCustomCompetitor.
    destruct (String.eqb (String_trim n) "" || String.eqb (String_trim w) ""); [simpl; lia|].
    destruct (5 <=? length selected)%nat eqn:E; [simpl; lia|].
    apply Nat.leb_gt in E. simpl. rewrite length_app. simpl. lia.
Qed.

(** X21: however the user toggles competitors and adds custom ones, the
    selection never grows beyond five competitors, or beyond its initial
    size when that was larger; and toggling alone keeps a selection free
    of two competitors that are the same. *)
Theorem competitor_selection_capped (events : list CompetitorEvent)
    (selected : list OnboardingCompetitor) :
  (length (foldl competitorStep selected events) <= Nat.max 5 (length selected))%nat
  ∧ ((∀ e, e ∈ events → ∃ c, e = ToggleCompetitor c) →
     StronglySorted (λ x y, isSameCompetitor x y = false) selected →
     StronglySorted (λ x y, isSameCompetitor x y = false)
       (foldl competitorStep selected events)).
Proof.
  split.
  - assert (Hgen : ∀ bound sel, (5 <= bound)%nat → (length sel <= bound)%nat →
                     (length (foldl competitorStep sel events) <= bound)%nat).
    { intros bound. induction events as [|e es IH]; intros sel Hb Hlen; simpl; [done|].
      apply IH; [done|]. by apply competitorStep_length. }
    apply Hgen; lia.
  - revert selected. induction events as [|e es IH]; intros selected Hev Hs; simpl;
      [done|].
    apply IH; [intros e' He'; apply Hev; by right|].
    destruct (Hev e) as [c ->]; [by left|]. cbn [competitorStep]. unfold toggleCompetitor.
    cbv zeta. destruct (existsb _ selected) eqn:Hin.
    + cbn [applyUpdate]. by apply filter_sorted.
    + destruct (5 <=? length selected)%nat; cbn [applyUpdate]; [done|].
      apply existsb_none in Hin. clear -Hs Hin.
      induction Hs as [|x l Hl IHl Hx]; simpl.
      * repeat constructor.
      * apply Forall_cons in Hin as [Hxc Hin]. constructor; [by apply IHl|].
        apply Forall_app. split; [done|]. by constructor.
Qed.

(** X22: selecting a competitor that is the same as none of the selected
    ones while fewer than five are selected and toggling it again restores
    the selection; toggling a competitor that counts as selected removes
    every selected competitor that is the same as it, at least one;
    and [handleAddCustomCompetitor] appends the new competitor, with its
    name trimmed and its website normalised, without looking whether it is
    selected already. *)
Theorem competitor_toggle_round_trip (selected : list OnboardingCompetitor)
    (c : OnboardingCompetitor) (n w : string) :
  (Forall (λ x, isSameCompetitor x c = false) selected → (length selected < 5)%nat →
   competitorStep (competitorStep selected (ToggleCompetitor c)) (ToggleCompetitor c) = selected)
  ∧ (Exists (λ x, isSameCompetitor x c = true) selected →
     Forall (λ x, isSameCompetitor x c = false) (competitorStep selected (ToggleCompetitor c))
     ∧ (length (competitorStep selected (ToggleCompetitor c)) < length selected)%nat)
  ∧ (String_trim n ≠ "" → String_trim w ≠ "" → (length selected < 5)%nat →
     competitorStep selected (AddCustomCompetitor n w)
     = (selected ++ [{| oc_name := String_trim n; website := Some (normalizeDomain w) |}])%list).
Proof.
  split_and!.
  - intros Hc Hlen.
    assert (Hfirst : competitorStep selected (ToggleCompetitor c) = (selected ++ [c])%list).
    { cbn [competitorStep]. unfold toggleCompetitor. cbv zeta.
      apply existsb_none in Hc as ->. by apply Nat.leb_gt in Hlen as ->. }
    rewrite Hfirst. cbn [competitorStep]. unfold toggleCompetitor. cbv zeta.
    assert (existsb (λ x, isSameCompetitor x c) (selected ++ [c]) = true) as ->.
    { rewrite existsb_app. simpl. rewrite isSameCompetitor_refl. by rewrite orb_true_r. }
    cbn [applyUpdate]. rewrite List.filter_app. simpl. rewrite isSameCompetitor_refl. simpl.
    rewrite app_nil_r. apply filter_all.
    eapply Forall_impl; [exact Hc|]. intros x Hx. simpl in Hx. by rewrite Hx.
  - intros Hex. cbn [competitorStep]. unfold toggleCompetitor. cbv zeta.
    assert (existsb (λ x, isSameCompetitor x c) selected = true) as ->.
    { apply existsb_exists. apply Exists_exists in Hex as (x & Hx & Hsame).
      exists x. split; [by apply list_elem_of_In | done]. }
    cbn [applyUpdate]. split.
    + apply Forall_forall. intros x Hx.
      apply list_elem_of_In, filter_In in Hx as [_ Hx]. by apply negb_true_iff in Hx.
    + clear -Hex. induction Hex as [x l Hx|x l Hex IH]; simpl.
      * rewrite Hx. simpl.
        pose proof (filter_length_bound (λ c0, negb (isSameCompetitor c0 c)) l). lia.
      * destruct (negb (isSameCompetitor x c)); simpl; [lia|].
        pose proof (filter_length_bound (λ c0, negb (isSameCompetitor c0 c)) l). lia.
  - intros Hn Hw Hlen. cbn [competitorStep]. unfold handleAddCustomCompetitor.
    apply String.eqb_neq in Hn as ->. apply String.eqb_neq in Hw as ->.
    by apply Nat.leb_gt in Hlen as ->.
Qed.

(** X23: merging fetched competitors into the suggestions keeps the
    suggestions there were, in front and in order; adds no competitor
    that is the same as one of them; and is idempotent, a second merge of
    the same competitors adding nothing.  The pre-populated selection is
    built the same way, and the pre-populated suggestions hold the same
    competitors with the new ones in front. *)
Theorem competitor_suggestions_spec (competitors prev : list OnboardingCompetitor) :
  (∃ added, mergeSuggestedCompetitors competitors prev = (prev ++ added)%list
            ∧ added ⊆ competitors
            ∧ Forall (λ nc, Forall (λ pc, isSameCompetitor nc pc = false) prev) added)
  ∧ mergeSuggestedCompetitors competitors (mergeSuggestedCompetitors competitors prev)
    = mergeSuggestedCompetitors competitors prev
  ∧ prePopulateSelectedCompetitors competitors prev
    = mergeSuggestedCompetitors competitors prev
  ∧ prePopulateSuggestedCompetitors competitors prev
    ≡ₚ mergeSuggestedCompetitors competitors prev.
Proof.
  split_and!.
  - eexists. split; [reflexivity|]. split.
    + intros x Hx. by apply list_elem_of_In, filter_In in Hx as [?%list_elem_of_In _].
    + apply Forall_forall. intros nc Hnc.
      apply list_elem_of_In, filter_In in Hnc as [_ Hnc].
      apply negb_true_iff in Hnc. by apply existsb_none in Hnc.
  - unfold mergeSuggestedCompetitors at 1. cbv zeta.
    rewrite (filter_none _ competitors); [by rewrite app_nil_r|].
    apply Forall_forall. intros nc Hnc. apply negb_false_iff.
    unfold mergeSuggestedCompetitors. cbv zeta. rewrite existsb_app.
    destruct (existsb (λ pc, isSameCompetitor nc pc) prev) eqn:Hprev; [done|]. simpl.
    apply existsb_exists. exists nc. split; [|apply isSameCompetitor_refl].
    apply filter_In. split; [by apply list_elem_of_In|]. by rewrite Hprev.
  - reflexivity.
  - unfold prePopulateSuggestedCompetitors, mergeSuggestedCompetitors. cbv zeta.
    apply Permutation_app_comm.
Qed.
End CompetitorFacts.

(** Two websites under the name "Acme", and the name alone. *)
Lemma isSameCompetitor_relation_witness :
  isSameCompetitor (ops := plain_ops)
    {| oc_name := "Acme"; website := Some "acme.com" |}
    {| oc_name := "Acme"; website := Some "acme.io" |} = false.
Proof.
  apply (isSameCompetitor_relation (ops := plain_ops) "Acme" "acme.com" "acme.io");
    done.
Defined.

(** Two toggles from the empty selection. *)
Lemma competitor_selection_capped_witness :
  StronglySorted
    (λ x y, isSameCompetitor (ops := plain_ops) x y = false)
    (foldl (competitorStep (ops := plain_ops)) []
       [ToggleCompetitor {| oc_name := "Acme"; website := Some "acme.com" |};
        ToggleCompetitor {| oc_name := "Beta"; website := None |}]).
Proof.
  apply (competitor_selection_capped (ops := plain_ops)
           [ToggleCompetitor {| oc_name := "Acme"; website := Some "acme.com" |};
            ToggleCompetitor {| oc_name := "Beta"; website := None |}] []).
  - intros e He. apply elem_of_cons in He as [->|He]; [by eexists|].
    apply list_elem_of_singleton in He as ->. by eexists.
  - constructor.
Defined.

(** "Beta" toggled on and off after "Acme"; "Acme" added by hand. *)
Lemma competitor_toggle_round_trip_witness :
  competitorStep (ops := plain_ops)
    (competitorStep (ops := plain_ops)
       [{| oc_name := "Acme"; website := Some "acme.com" |}]
       (ToggleCompetitor {| oc_name := "Beta"; website := None |}))
    (ToggleCompetitor {| oc_name := "Beta"; website := None |})
  = [{| oc_name := "Acme"; website := Some "acme.com" |}]
  ∧ competitorStep (ops := plain_ops)
      [{| oc_name := "Acme"; website := Some "acme.com" |}]
      (AddCustomCompetitor "Acme" "acme.com")
    = [{| oc_name := "Acme"; website := Some "acme.com" |};
       {| oc_name := "Acme"; website := Some "acme.com" |}].
Proof.
  destruct (competitor_toggle_round_trip (ops := plain_ops)
              [{| oc_name := "Acme"; website := Some "acme.com" |}]
              {| oc_name := "Beta"; website := None |} "Acme" "acme.com")
    as (Htoggle & _ & Hadd).
  split.
  - apply Htoggle; [repeat constructor | simpl; lia].
  - apply Hadd; [done | done | simpl; lia].
Defined.
